(** * bigcache: byte-packed entries, the byte ring queue and the shard

    A shallow embedding of [entry.go], [bytes_queue.go] and [shard.go].

    Conventions of the embedding.
    - A byte is a [Z]; a Go [[]byte] is a [list Z].  Buffers made by
      [make([]byte, n)] have length and capacity [n], so [cap] and [len]
      coincide on the queue's array.
    - Go's [int] (and [qref]) is a [Z].  Every [int] the queue computes is
      bounded by a small multiple of a buffer length, so 64-bit overflow is
      out of reach and is not modelled.  Fixed-width conversions that the
      code performs explicitly ([uint32(..)], [uint16(..)], [uint64]
      subtraction, [int64] counters) are written out with [mod].
    - A Go panic (slice or index out of range) is [None]; an [error] value
      is the [Err] case of [result].
    - The logger and the wall-clock timing inside [expand] do not influence
      any state and are left out. *)

From Stdlib Require Import ZArith Lia List Bool Sorted.
From stdpp Require Import base option list gmap sorting.

Local Open Scope Z_scope.

(** ** Errors and results *)

Inductive error : Type :=
  | ErrQueueEmpty
  | ErrQueueFull
  | ErrQueueInvalidIndex
  | ErrQueueEntryTooBig
  | ErrCacheEntryCorrupted
  | ErrEntryNotFound
  | ErrBiggerThanShard (cause : error).

Inductive result (A : Type) : Type :=
  | Ok (a : A)
  | Err (e : error).
Arguments Ok {A} a.
Arguments Err {A} e.

(** ** Slices of a byte buffer *)

Abbreviation len l := (Z.of_nat (length l)).

(** [buf[a:]]; faults unless [0 <= a <= len(buf)]. *)
Definition slice_from (buf : list Z) (a : Z) : option (list Z) :=
  if (a <? 0) || (len buf <? a) then None
  else Some (drop (Z.to_nat a) buf).

(** [buf[a:b]]; faults unless [0 <= a <= b <= cap(buf)]. *)
Definition slice_range (buf : list Z) (a b : Z) : option (list Z) :=
  if (a <? 0) || (b <? a) || (len buf <? b) then None
  else Some (take (Z.to_nat (b - a)) (drop (Z.to_nat a) buf)).

(** The bytes [bs] laid over [buf] from position [a] on. *)
Definition overlay (buf : list Z) (a : nat) (bs : list Z) : list Z :=
  take a buf ++ bs ++ drop (a + length bs) buf.

(** [copy(buf[a:], src)]: copies [min(len(buf)-a, len(src))] bytes; only the
    slicing can fault. *)
Definition copy_at (buf : list Z) (a : Z) (src : list Z) : option (list Z) :=
  if (a <? 0) || (len buf <? a) then None
  else Some (overlay buf (Z.to_nat a) (take (length buf - Z.to_nat a) src)).

(** ** encoding/binary, little endian *)

Fixpoint le_encode (n : nat) (x : Z) : list Z :=
  match n with
  | O => []
  | S n' => (x mod 256) :: le_encode n' (x / 256)
  end.

Fixpoint le_decode (bs : list Z) : Z :=
  match bs with
  | [] => 0
  | b :: bs' => b + 256 * le_decode bs'
  end.

(** [binary.LittleEndian.UintN(b)] reads the first [n] bytes of [b] and
    faults when [b] is shorter. *)
Definition get_uint (n : nat) (b : list Z) : option Z :=
  if (length b <? n)%nat then None else Some (le_decode (take n b)).

(** [binary.LittleEndian.PutUintN(buf[a:], v)]. *)
Definition put_uint (n : nat) (buf : list Z) (a : Z) (v : Z) : option (list Z) :=
  if (a <? 0) || (len buf <? a) then None
  else if (length buf - Z.to_nat a <? n)%nat then None
  else Some (overlay buf (Z.to_nat a) (le_encode n v)).

(** ** entry.go *)

Definition sizeLen : Z := 4.
Definition sizeTS : Z := 8.
Definition sizeHash : Z := 8.
Definition sizeKeyLen : Z := 2.

Definition offLen : Z := 0.
Definition offTS : Z := offLen + sizeLen.
Definition offHash : Z := offTS + sizeTS.
Definition offKeyLen : Z := offHash + sizeHash.
Definition offKeyStr : Z := offKeyLen + sizeKeyLen.

Abbreviation qref := Z.

Record CacheEntry : Type := mkEntry {
  TS : Z;
  Hash : Z;
  Key : list Z;
  Data : list Z
}.

(** [CacheEntry.Size], a method on a pointer; the receiver may be nil. *)
Definition Size (ce : option CacheEntry) : Z :=
  match ce with
  | None => offKeyStr
  | Some e => offKeyStr + (len (Key e) + len (Data e))
  end.

Definition qref_size (r : qref) (buf : list Z) : option Z :=
  b ← slice_from buf (r + offLen); get_uint 4 b.

Definition qref_valid (r : qref) (buf : list Z) : option bool :=
  if r <? 0 then Some false
  else
    let bl := len buf in
    if bl <? sizeLen then Some false
    else l ← qref_size r buf; Some ((offKeyStr <=? l) || (l <=? bl)).

Definition qref_ts (r : qref) (buf : list Z) : option Z :=
  b ← slice_from buf (r + offTS); get_uint 8 b.

Definition qref_hash (r : qref) (buf : list Z) : option Z :=
  b ← slice_from buf (r + offHash); get_uint 8 b.

Definition qref_key (r : qref) (buf : list Z) : option (list Z) :=
  b ← slice_from buf (r + offKeyLen);
  kl ← get_uint 2 b;
  slice_range buf (r + offKeyStr) (r + offKeyStr + kl).

Definition qref_data (r : qref) (buf : list Z) : option (list Z) :=
  l ← qref_size r buf;
  b ← slice_from buf (r + offKeyLen);
  kl ← get_uint 2 b;
  slice_range buf (r + offKeyStr + kl) (r + l).

Definition qref_read (r : qref) (buf : list Z) : option (result CacheEntry) :=
  v ← qref_valid r buf;
  if negb v then Some (Err ErrCacheEntryCorrupted)
  else
    ts ← qref_ts r buf;
    h ← qref_hash r buf;
    k ← qref_key r buf;
    d ← qref_data r buf;
    Some (Ok (mkEntry ts h k d)).

Definition qref_write (r : qref) (buf : list Z) (ce : CacheEntry) : option (list Z) :=
  b1 ← put_uint 4 buf (r + offLen) (Size (Some ce) mod 2 ^ 32);
  b2 ← put_uint 8 b1 (r + offTS) (TS ce);
  b3 ← put_uint 8 b2 (r + offHash) (Hash ce);
  b4 ← put_uint 2 b3 (r + offKeyLen) (len (Key ce) mod 2 ^ 16);
  b5 ← copy_at b4 (r + offKeyStr) (Key ce);
  copy_at b5 (r + offKeyStr + len (Key ce)) (Data ce).

(** [r.plug(s, buf)]: a size field of [s - r] followed by zeroes up to [s]. *)
Definition qref_plug (r s : qref) (buf : list Z) : option (list Z) :=
  let l := s - r in
  b1 ← put_uint 4 buf (r + offLen) (l mod 2 ^ 32);
  z ← slice_range b1 (r + sizeLen) s;
  Some (overlay b1 (Z.to_nat (r + sizeLen)) (replicate (length z) 0)).

Definition qref_clearHash (r : qref) (buf : list Z) : option (list Z) :=
  put_uint 8 buf (r + offHash) 0.

(** ** bytes_queue.go *)

Record bytesQueue : Type := mkQueue {
  count : Z;
  maxCapacity : Z;
  array : list Z;
  head : qref;
  tail : qref;
  right : qref
}.

Definition queue_cap (q : bytesQueue) : Z := len (array q).

Definition set_array (q : bytesQueue) (a : list Z) : bytesQueue :=
  mkQueue (count q) (maxCapacity q) a (head q) (tail q) (right q).
Definition set_head (q : bytesQueue) (h : qref) : bytesQueue :=
  mkQueue (count q) (maxCapacity q) (array q) h (tail q) (right q).
Definition set_tail (q : bytesQueue) (t : qref) : bytesQueue :=
  mkQueue (count q) (maxCapacity q) (array q) (head q) t (right q).
Definition set_right (q : bytesQueue) (r : qref) : bytesQueue :=
  mkQueue (count q) (maxCapacity q) (array q) (head q) (tail q) r.
Definition set_count (q : bytesQueue) (c : Z) : bytesQueue :=
  mkQueue c (maxCapacity q) (array q) (head q) (tail q) (right q).

Definition newBytesQueue (initialCapacity maxCap : Z) : bytesQueue :=
  mkQueue 0 maxCap (replicate (Z.to_nat initialCapacity) 0) 0 0 0.

(** The capacity [expand] settles on, before its final test. *)
Definition expand_capacity (q : bytesQueue) (minimum : Z) : Z :=
  let capacity := queue_cap q in
  let capacity := if capacity <? minimum then capacity + minimum else capacity in
  let capacity := capacity * 2 in
  if (0 <? maxCapacity q) && (maxCapacity q <? capacity) then maxCapacity q
  else capacity.

Definition expand (q : bytesQueue) (minimum : Z) : option (bytesQueue * result unit) :=
  let capacity := expand_capacity q minimum in
  if (capacity <? minimum) || (capacity <=? 0) then Some (q, Err ErrQueueEntryTooBig)
  else
    let old := array q in
    let q := set_array q (replicate (Z.to_nat capacity) 0) in
    if negb (right q =? 0) then
      src ← slice_range old 0 (right q);
      a ← copy_at (array q) 0 src;
      let q := set_array q a in
      if tail q <? head q then
        a ← qref_plug (tail q) (head q) (array q);
        let q := set_array q a in
        let q := set_head q 0 in
        let q := set_tail q (right q) in
        let q := set_count q (count q + 1) in
        Some (q, Ok tt)
      else Some (q, Ok tt)
    else Some (q, Ok tt).

(** The part of [push] after room has been found: write at the tail, move
    the tail, move the end-of-data marker, count. *)
Definition push_store (q : bytesQueue) (ce : CacheEntry) : option (bytesQueue * result qref) :=
  let size := Size (Some ce) in
  a ← qref_write (tail q) (array q) ce;
  let q := set_array q a in
  let ref := tail q in
  let q := set_tail q (tail q + size) in
  let q := if head q <? tail q then set_right q (tail q) else q in
  let q := set_count q (count q + 1) in
  Some (q, Ok ref).

Definition push (q : bytesQueue) (ce : CacheEntry) : option (bytesQueue * result qref) :=
  let size := Size (Some ce) in
  let blobSize := Size None in
  if head q <=? tail q then
    if queue_cap q - tail q <? size then
      if size <=? head q - blobSize then
        push_store (set_tail q 0) ce
      else if (0 <? maxCapacity q) && (maxCapacity q <=? queue_cap q + size) then
        Some (q, Err ErrQueueFull)
      else
        match expand q size with
        | None => None
        | Some (q', Err e) => Some (q', Err e)
        | Some (q', Ok _) => push_store q' ce
        end
    else push_store q ce
  else
    if head q - tail q - blobSize <? size then
      if (0 <? maxCapacity q) && (maxCapacity q <=? queue_cap q + size) then
        Some (q, Err ErrQueueFull)
      else
        match expand q size with
        | None => None
        | Some (q', Err e) => Some (q', Err e)
        | Some (q', Ok _) => push_store q' ce
        end
    else push_store q ce.

Definition pop (q : bytesQueue) : option (bytesQueue * result qref) :=
  if count q =? 0 then Some (q, Err ErrQueueEmpty)
  else
    v ← qref_valid (head q) (array q);
    if negb v then Some (q, Err ErrQueueInvalidIndex)
    else
      let ref := head q in
      sz ← qref_size (head q) (array q);
      let q := set_head q (head q + sz) in
      let q :=
        if head q =? right q then
          let q := set_head q 0 in
          let q := if tail q =? right q then set_tail q 0 else q in
          set_right q (tail q)
        else q in
      let q := set_count q (count q - 1) in
      Some (q, Ok ref).

Definition peek (q : bytesQueue) (r : qref) : option (result unit) :=
  if count q =? 0 then Some (Err ErrQueueEmpty)
  else
    v ← qref_valid r (array q);
    if negb v || (right q <? r) then Some (Err ErrQueueInvalidIndex)
    else Some (Ok tt).

Definition oldest (q : bytesQueue) : option (result qref) :=
  match peek q (head q) with
  | None => None
  | Some (Err e) => Some (Err e)
  | Some (Ok _) => Some (Ok (head q))
  end.

Definition collide (q : bytesQueue) (r : qref) (key : list Z) : option bool :=
  k ← qref_key r (array q);
  Some (negb (bool_decide (key = k))).

Definition get (q : bytesQueue) (r : qref) : option (result CacheEntry) :=
  qref_read r (array q).

Definition getTS (q : bytesQueue) (r : qref) : option Z := qref_ts r (array q).
Definition getHash (q : bytesQueue) (r : qref) : option Z := qref_hash r (array q).
Definition getKey (q : bytesQueue) (r : qref) : option (list Z) := qref_key r (array q).
Definition getDataCopy (q : bytesQueue) (r : qref) : option (list Z) := qref_data r (array q).

(** [delete]: named [queue_delete] here, [delete] being stdpp's map operation. *)
Definition queue_delete (q : bytesQueue) (r : qref) : option (bytesQueue * result unit) :=
  if count q =? 0 then Some (q, Err ErrQueueEmpty)
  else
    v ← qref_valid r (array q);
    if negb v || (right q <? r) then Some (q, Err ErrQueueInvalidIndex)
    else
      a ← qref_clearHash r (array q);
      Some (set_array q a, Ok tt).

Definition queue_reset (q : bytesQueue) : bytesQueue :=
  mkQueue 0 (maxCapacity q) (array q) 0 0 0.

Definition queue_len (q : bytesQueue) : Z := count q.

(** ** Scenarios of bytes_queue_test.go, run on the embedding *)

Definition makeCacheBlob (char : Z) (entrySize : nat) : CacheEntry :=
  mkEntry 0x5555555555555555 0xDADADADADADADADA [] (replicate entrySize char).

(** Operations on a queue and what each returned. *)
Inductive qop : Type :=
  | OpPush (ce : CacheEntry)
  | OpPop
  | OpExpand (minimum : Z)
  | OpReset.

Inductive event : Type :=
  | EvPush (ce : CacheEntry) (res : result qref)
  | EvPop (res : result qref)
  | EvExpand (minimum : Z) (res : result unit)
  | EvReset.

Definition run_op (q : bytesQueue) (o : qop) : option (bytesQueue * event) :=
  match o with
  | OpPush ce => '(q', res) ← push q ce; Some (q', EvPush ce res)
  | OpPop => '(q', res) ← pop q; Some (q', EvPop res)
  | OpExpand m => '(q', res) ← expand q m; Some (q', EvExpand m res)
  | OpReset => Some (queue_reset q, EvReset)
  end.

(** Runs the operations in sequence; [None] if one of them faults. *)
Fixpoint run_ops (q : bytesQueue) (os : list qop) : option (bytesQueue * list event) :=
  match os with
  | [] => Some (q, [])
  | o :: os' =>
      '(q', ev) ← run_op q o;
      '(q'', evs) ← run_ops q' os';
      Some (q'', ev :: evs)
  end.

(** ** shard.go *)

Inductive RemoveReason : Type := NoReason | Expired | NoSpace | Deleted.

Record Stats : Type := mkStats {
  Hits : Z;
  Misses : Z;
  DelHits : Z;
  DelMisses : Z;
  Collisions : Z;
  EvictedExpired : Z;
  EvictedNoSpace : Z
}.

(** [atomic.AddInt64(&x, 1)] on a signed 64-bit counter. *)
Definition incr (x : Z) : Z := (x + 1 + 2 ^ 63) mod 2 ^ 64 - 2 ^ 63.

(** [a - b] on [uint64]. *)
Definition sub64 (a b : Z) : Z := (a - b) mod 2 ^ 64.

(** A [Processor] is called with a possibly nil entry and returns an error
    or nil; [None] is a panic inside it. *)
Definition Processor : Type := option CacheEntry -> option (option error).

(** The shard.  The read-write lock is left out: every operation below runs
    under it from start to end.  [onRemove] tells whether a callback is
    installed and [removed] records the calls made to it, oldest first; the
    clock is passed to [setWithoutLock] as the value [clock.epoch()]
    returned. *)
Record cacheShard : Type := mkShard {
  hashmap : gmap Z qref;
  entries : bytesQueue;
  onRemove : bool;
  removed : list (option CacheEntry * RemoveReason);
  lifeWindow : Z;
  stats : Stats
}.

Definition set_hashmap (s : cacheShard) (m : gmap Z qref) : cacheShard :=
  mkShard m (entries s) (onRemove s) (removed s) (lifeWindow s) (stats s).
Definition set_entries (s : cacheShard) (q : bytesQueue) : cacheShard :=
  mkShard (hashmap s) q (onRemove s) (removed s) (lifeWindow s) (stats s).
Definition set_stats (s : cacheShard) (st : Stats) : cacheShard :=
  mkShard (hashmap s) (entries s) (onRemove s) (removed s) (lifeWindow s) st.
Definition call_onRemove (s : cacheShard) (ce : option CacheEntry)
    (reason : RemoveReason) : cacheShard :=
  mkShard (hashmap s) (entries s) (onRemove s) (removed s ++ [(ce, reason)])
    (lifeWindow s) (stats s).

Definition hit (s : cacheShard) : cacheShard :=
  let st := stats s in
  set_stats s (mkStats (incr (Hits st)) (Misses st) (DelHits st) (DelMisses st)
                 (Collisions st) (EvictedExpired st) (EvictedNoSpace st)).
Definition miss (s : cacheShard) : cacheShard :=
  let st := stats s in
  set_stats s (mkStats (Hits st) (incr (Misses st)) (DelHits st) (DelMisses st)
                 (Collisions st) (EvictedExpired st) (EvictedNoSpace st)).
Definition delhit (s : cacheShard) : cacheShard :=
  let st := stats s in
  set_stats s (mkStats (Hits st) (Misses st) (incr (DelHits st)) (DelMisses st)
                 (Collisions st) (EvictedExpired st) (EvictedNoSpace st)).
Definition delmiss (s : cacheShard) : cacheShard :=
  let st := stats s in
  set_stats s (mkStats (Hits st) (Misses st) (DelHits st) (incr (DelMisses st))
                 (Collisions st) (EvictedExpired st) (EvictedNoSpace st)).
Definition collision (s : cacheShard) : cacheShard :=
  let st := stats s in
  set_stats s (mkStats (Hits st) (Misses st) (DelHits st) (DelMisses st)
                 (incr (Collisions st)) (EvictedExpired st) (EvictedNoSpace st)).
Definition expired (s : cacheShard) : cacheShard :=
  let st := stats s in
  set_stats s (mkStats (Hits st) (Misses st) (DelHits st) (DelMisses st)
                 (Collisions st) (incr (EvictedExpired st)) (EvictedNoSpace st)).
Definition nospace (s : cacheShard) : cacheShard :=
  let st := stats s in
  set_stats s (mkStats (Hits st) (Misses st) (DelHits st) (DelMisses st)
                 (Collisions st) (EvictedExpired st) (incr (EvictedNoSpace st))).

(** The entry pointer [ce, _ := s.entries.get(r)] leaves in [ce]: nil when
    [get] reports an error. *)
Definition get_ptr (q : bytesQueue) (r : qref) : option (option CacheEntry) :=
  match get q r with
  | None => None
  | Some (Ok ce) => Some (Some ce)
  | Some (Err _) => Some None
  end.

(** [getWithoutLock]; with a processor the payload returned is nil, here
    the empty list. *)
Definition getWithoutLock (s : cacheShard) (key : list Z) (hash : Z)
    (f : option Processor) : option (cacheShard * result (list Z)) :=
  match hashmap s !! hash with
  | None => Some (miss s, Err ErrEntryNotFound)
  | Some ref =>
      match peek (entries s) ref with
      | None => None
      | Some (Err e) => Some (miss s, Err e)
      | Some (Ok _) =>
          c ← (if 0 <? len key then collide (entries s) ref key else Some false);
          if c : bool then Some (collision s, Err ErrEntryNotFound)
          else
            let s := hit s in
            match f with
            | Some f =>
                ce ← get_ptr (entries s) ref;
                e ← f ce;
                match e with
                | Some e => Some (s, Err e)
                | None => Some (s, Ok [])
                end
            | None =>
                d ← getDataCopy (entries s) ref;
                Some (s, Ok d)
            end
      end
  end.

Definition evictOldest (s : cacheShard) (reason : RemoveReason) :
    option (cacheShard * option error) :=
  '(q, res) ← pop (entries s);
  let s := set_entries s q in
  match res with
  | Err e => Some (s, Some e)
  | Ok oldest =>
      hash ← getHash (entries s) oldest;
      if hash =? 0 then Some (s, None)
      else
        let s := set_hashmap s (delete hash (hashmap s)) in
        s ← match reason with
            | Expired => Some (expired s)
            | NoSpace => Some (nospace s)
            | Deleted | NoReason => None
            end;
        if onRemove s then
          ce ← get_ptr (entries s) oldest;
          Some (call_onRemove s ce reason, None)
        else Some (s, None)
  end.

(** The first step of [setWithoutLock]: tombstone the entry already bound to
    the hash and, if that went well, drop the binding. *)
Definition set_displace (s : cacheShard) (hash : Z) : option cacheShard :=
  match hashmap s !! hash with
  | Some prev =>
      '(q, res) ← queue_delete (entries s) prev;
      let s := set_entries s q in
      match res with
      | Ok _ => Some (set_hashmap s (delete hash (hashmap s)))
      | Err _ => Some s
      end
  | None => Some s
  end.

(** The second step: evict the oldest entry if it is past the life window;
    the outcome of that eviction is ignored. *)
Definition set_expire (s : cacheShard) (current : Z) : option cacheShard :=
  match oldest (entries s) with
  | None => None
  | Some (Err _) => Some s
  | Some (Ok o) =>
      ts ← getTS (entries s) o;
      if lifeWindow s <? sub64 current ts then
        '(s', _) ← evictOldest s Expired; Some s'
      else Some s
  end.

(** The outcome of a loop run with a bound on its iterations. *)
Inductive run (A : Type) : Type :=
  | Returns (a : A)
  | Faults
  | OutOfFuel.
Arguments Returns {A} a.
Arguments Faults {A}.
Arguments OutOfFuel {A}.

(** The third step, the [for] loop: push, or make room and try again. *)
Fixpoint set_loop (fuel : nat) (s : cacheShard) (hash : Z) (ce : CacheEntry) :
    run (cacheShard * option error) :=
  match fuel with
  | O => OutOfFuel
  | S fuel' =>
      match push (entries s) ce with
      | None => Faults
      | Some (q, Ok ref) =>
          let s := set_entries s q in
          Returns (set_hashmap s (<[hash := ref]> (hashmap s)), None)
      | Some (q, Err _) =>
          let s := set_entries s q in
          match evictOldest s NoSpace with
          | None => Faults
          | Some (s', Some e) => Returns (s', Some (ErrBiggerThanShard e))
          | Some (s', None) => set_loop fuel' s' hash ce
          end
      end
  end.

(** [setWithoutLock], with [current] the reading of the clock. *)
Definition setWithoutLock (fuel : nat) (s : cacheShard) (current : Z)
    (key : list Z) (hash : Z) (entry : list Z) : run (cacheShard * option error) :=
  match set_displace s hash with
  | None => Faults
  | Some s =>
      match set_expire s current with
      | None => Faults
      | Some s => set_loop fuel s hash (mkEntry current hash key entry)
      end
  end.

Fixpoint cleanUp (fuel : nat) (s : cacheShard) (timestamp : Z) : run cacheShard :=
  match fuel with
  | O => OutOfFuel
  | S fuel' =>
      match oldest (entries s) with
      | None => Faults
      | Some (Err _) => Returns s
      | Some (Ok o) =>
          match getTS (entries s) o with
          | None => Faults
          | Some ts =>
              if sub64 timestamp ts <=? lifeWindow s then Returns s
              else
                match evictOldest s Expired with
                | None => Faults
                | Some (s', Some _) => Returns s'
                | Some (s', None) => cleanUp fuel' s' timestamp
                end
          end
      end
  end.

(** The closure [append] hands to [getWithoutLock]; it reads [ce.Data] and
    so panics on a nil entry. *)
Definition appender : Processor :=
  fun ce => match ce with None => None | Some _ => Some None end.

(** [append]: the bytes the closure stores in [data] are recomputed from
    the entry it was called with. *)
Definition append (fuel : nat) (s : cacheShard) (current : Z)
    (key : list Z) (hash : Z) (entry : list Z) : run (cacheShard * option error) :=
  match getWithoutLock s key hash (Some appender) with
  | None => Faults
  | Some (s1, Err e) =>
      match e with
      | ErrEntryNotFound => setWithoutLock fuel s1 current key hash entry
      | _ => Returns (s1, Some e)
      end
  | Some (s1, Ok _) =>
      match hashmap s !! hash with
      | None => Faults
      | Some ref =>
          match get_ptr (entries s) ref with
          | Some (Some ce) => setWithoutLock fuel s1 current key hash (Data ce ++ entry)
          | _ => Faults
          end
      end
  end.

Definition del (s : cacheShard) (hash : Z) : option (cacheShard * option error) :=
  match hashmap s !! hash with
  | None => Some (delmiss s, Some ErrEntryNotFound)
  | Some ref =>
      '(q, res) ← queue_delete (entries s) ref;
      let s := set_entries s q in
      match res with
      | Err e => Some (delmiss s, Some e)
      | Ok _ =>
          let s := set_hashmap s (delete hash (hashmap s)) in
          s ← (if onRemove s then
                 ce ← get_ptr (entries s) ref;
                 match ce with
                 | None => None
                 | Some ce =>
                     Some (call_onRemove s
                             (Some (mkEntry (TS ce) hash (Key ce) (Data ce))) Deleted)
                 end
               else Some s);
          Some (delhit s, None)
      end
  end.

Definition shard_reset (s : cacheShard) : cacheShard :=
  set_entries (set_hashmap s ∅) (queue_reset (entries s)).

Definition shard_len (s : cacheShard) : Z := Z.of_nat (size (hashmap s)).

(** [initNewShard], from the two sizes it computes from the configuration. *)
Definition initNewShard (initialCapacity maxCap : Z) (callback : bool)
    (life : Z) : cacheShard :=
  let initialCapacity :=
    if (0 <? maxCap) && (maxCap <? initialCapacity) then maxCap
    else initialCapacity in
  mkShard ∅ (newBytesQueue initialCapacity maxCap) callback [] life
    (mkStats 0 0 0 0 0 0 0).

(** ** The controller's read and delete paths *)

Record BigCache : Type := mkCache {
  shards : list cacheShard;
  hasher : list Z -> Z;
  shardMask : Z
}.

Definition getShard (c : BigCache) (hashedKey : Z) : option (nat * cacheShard) :=
  let i := Z.to_nat (Z.land hashedKey (shardMask c)) in
  s ← shards c !! i; Some (i, s).

Definition put_shard (c : BigCache) (i : nat) (s : cacheShard) : BigCache :=
  mkCache (<[i := s]> (shards c)) (hasher c) (shardMask c).

Definition Get (c : BigCache) (key : list Z) : option (BigCache * result (list Z)) :=
  let hashedKey := hasher c key in
  '(i, shard) ← getShard c hashedKey;
  '(shard', res) ← getWithoutLock shard key hashedKey None;
  Some (put_shard c i shard', res).

Definition GetHashed (c : BigCache) (hashedKey : Z) : option (BigCache * result (list Z)) :=
  '(i, shard) ← getShard c hashedKey;
  '(shard', res) ← getWithoutLock shard [] hashedKey None;
  Some (put_shard c i shard', res).

Definition Delete (c : BigCache) (key : list Z) : option (BigCache * option error) :=
  let hashedKey := hasher c key in
  '(i, shard) ← getShard c hashedKey;
  '(shard', res) ← del shard hashedKey;
  Some (put_shard c i shard', res).

(** ** Sequences of shard operations *)

Inductive sop : Type :=
  | SSet (current : Z) (key : list Z) (hash : Z) (entry : list Z)
  | SAppend (current : Z) (key : list Z) (hash : Z) (entry : list Z)
  | SDel (hash : Z)
  | SCleanUp (timestamp : Z).

(** Runs the operations in sequence, whatever error each returns. *)
Fixpoint run_shard (fuel : nat) (s : cacheShard) (os : list sop) : run cacheShard :=
  match os with
  | [] => Returns s
  | o :: os' =>
      let r :=
        match o with
        | SSet t k h e =>
            match setWithoutLock fuel s t k h e with
            | Returns (s', _) => Returns s'
            | Faults => Faults
            | OutOfFuel => OutOfFuel
            end
        | SAppend t k h e =>
            match append fuel s t k h e with
            | Returns (s', _) => Returns s'
            | Faults => Faults
            | OutOfFuel => OutOfFuel
            end
        | SDel h =>
            match del s h with
            | Some (s', _) => Returns s'
            | None => Faults
            end
        | SCleanUp t => cleanUp fuel s t
        end in
      match r with
      | Returns s' => run_shard fuel s' os'
      | Faults => Faults
      | OutOfFuel => OutOfFuel
      end
  end.

(** ** shard.go: the helpers of the controller *)

(** [getEntry]: the entry pointer and the error it returns. *)
Definition getEntry (s : cacheShard) (r : qref) (f : option Processor) :
    option (option CacheEntry * option error) :=
  match get (entries s) r with
  | None => None
  | Some (Err e) => Some (None, Some e)
  | Some (Ok ce) =>
      match f with
      | Some f => e ← f (Some ce); Some (Some ce, e)
      | None => Some (Some ce, None)
      end
  end.

(** [copyRefs]: the qrefs bound in the map, in the order the map yields
    them (Go leaves that order unspecified). *)
Definition copyRefs (s : cacheShard) : list qref := (map_to_list (hashmap s)).*2.

Definition shard_cap (s : cacheShard) : Z := queue_cap (entries s).

(** [getStats] loads the seven counters one by one. *)
Definition getStats (s : cacheShard) : Stats :=
  mkStats (Hits (stats s)) (Misses (stats s)) (DelHits (stats s))
    (DelMisses (stats s)) (Collisions (stats s)) (EvictedExpired (stats s))
    (EvictedNoSpace (stats s)).

(** ** bigcache.go: the rest of the controller *)




Definition Reset (c : BigCache) : BigCache :=
  mkCache (map shard_reset (shards c)) (hasher c) (shardMask c).

Definition Len (c : BigCache) : Z :=
  foldl (fun n s => n + shard_len s) 0 (shards c).

Definition Capacity (c : BigCache) : Z :=
  foldl (fun n s => n + shard_cap s) 0 (shards c).

(** [a += b] on [int64]. *)
Definition add64 (a b : Z) : Z := (a + b + 2 ^ 63) mod 2 ^ 64 - 2 ^ 63.

Definition add_stats (s tmp : Stats) : Stats :=
  mkStats (add64 (Hits s) (Hits tmp)) (add64 (Misses s) (Misses tmp))
    (add64 (DelHits s) (DelHits tmp)) (add64 (DelMisses s) (DelMisses tmp))
    (add64 (Collisions s) (Collisions tmp))
    (add64 (EvictedExpired s) (EvictedExpired tmp))
    (add64 (EvictedNoSpace s) (EvictedNoSpace tmp)).

(** [Stats]; named [CacheStats] here, [Stats] being the record. *)
Definition CacheStats (c : BigCache) : Stats :=
  foldl (fun acc s => add_stats acc (getStats s)) (mkStats 0 0 0 0 0 0 0) (shards c).

(** [errors.Is(err, ErrEntryNotFound)]. *)
Fixpoint is_not_found (e : error) : bool :=
  match e with
  | ErrEntryNotFound => true
  | ErrBiggerThanShard cause => is_not_found cause
  | _ => false
  end.

(** The closure [Range] hands to [getEntry]: it replaces key and payload by
    copies and returns nil; on a nil entry it would panic. *)
Definition duplicator : Processor :=
  fun ce => match ce with None => None | Some _ => Some None end.

(** The inner loop of [Range] over the qrefs of one shard.  The result is
    the list of entries handed to [f], in order, and [Some e] if [Range] is
    to return [e] at once, [None] if it is to go on with the next shard.
    The shards are not modified, so they are not returned. *)
Fixpoint range_refs (s : cacheShard) (f : Processor) (refs : list qref) :
    option (list CacheEntry * option (option error)) :=
  match refs with
  | [] => Some ([], None)
  | ref :: refs' =>
      match getEntry s ref (Some duplicator) with
      | None => None
      | Some (_, Some err) =>
          if is_not_found err then range_refs s f refs'
          else Some ([], Some (Some err))
      | Some (None, None) => None
      | Some (Some ce, None) =>
          match f (Some ce) with
          | None => None
          | Some (Some err) =>
              if is_not_found err then Some ([ce], Some None)
              else Some ([ce], Some (Some err))
          | Some None =>
              '(visited, out) ← range_refs s f refs';
              Some (ce :: visited, out)
          end
      end
  end.

Fixpoint range_shards (ss : list cacheShard) (f : Processor) :
    option (list CacheEntry * option error) :=
  match ss with
  | [] => Some ([], None)
  | s :: ss' =>
      '(visited, out) ← range_refs s f (copyRefs s);
      match out with
      | Some e => Some (visited, e)
      | None =>
          '(visited', e) ← range_shards ss' f;
          Some (visited ++ visited', e)
      end
  end.

Definition Range (c : BigCache) (f : Processor) :
    option (list CacheEntry * option error) :=
  range_shards (shards c) f.

(** ** The serialized form of an entry and the cells of a ring *)

(** The bytes [qref.write] lays down for an entry. *)
Definition encode (ce : CacheEntry) : list Z :=
  le_encode 4 (Size (Some ce) mod 2 ^ 32) ++ le_encode 8 (TS ce) ++
  le_encode 8 (Hash ce) ++ le_encode 2 (len (Key ce) mod 2 ^ 16) ++
  Key ce ++ Data ce.

(** The bytes [qref.plug] lays down over a gap of [n] bytes. *)
Definition plug_bytes (n : Z) : list Z :=
  le_encode 4 (n mod 2 ^ 32) ++ replicate (Z.to_nat (n - 4)) 0.

(** A cell after [clearHash]. *)
Definition tombstone (bs : list Z) : list Z :=
  take 12 bs ++ le_encode 8 0 ++ drop 20 bs.

Arguments encode : simpl never.
Arguments plug_bytes : simpl never.
Arguments tombstone : simpl never.

(** An entry of the data model: 64-bit timestamp and hash, a key no longer
    than 65535 bytes. *)
Definition entry_wf (ce : CacheEntry) : Prop :=
  0 <= TS ce < 2 ^ 64 /\ 0 <= Hash ce < 2 ^ 64 /\ len (Key ce) < 2 ^ 16.

(** [stored buf o bs]: the buffer holds exactly [bs] from offset [o] on. *)
Definition stored (buf : list Z) (o : Z) (bs : list Z) : Prop :=
  0 <= o /\ o + len bs <= len buf /\
  take (length bs) (drop (Z.to_nat o) buf) = bs.

Definition cell_size (bs : list Z) : Z := le_decode (take 4 bs).
Definition cell_ts (bs : list Z) : Z := le_decode (take 8 (drop 4 bs)).
Definition cell_hash (bs : list Z) : Z := le_decode (take 8 (drop 12 bs)).
Definition cell_klen (bs : list Z) : Z := le_decode (take 2 (drop 20 bs)).
Definition cell_key (bs : list Z) : list Z :=
  take (Z.to_nat (cell_klen bs)) (drop 22 bs).
Definition cell_data (bs : list Z) : list Z :=
  take (Z.to_nat (cell_size bs - 22 - cell_klen bs))
       (drop (22 + Z.to_nat (cell_klen bs)) bs).
Definition cell_entry (bs : list Z) : CacheEntry :=
  mkEntry (cell_ts bs) (cell_hash bs) (cell_key bs) (cell_data bs).

(** A well-formed cell: at least a header, whose size field is the cell's
    length and whose key fits. *)
Definition cell_ok (bs : list Z) : Prop :=
  22 <= len bs /\ cell_size bs = len bs /\
  0 <= cell_klen bs /\ 22 + cell_klen bs <= len bs.

(** A cell of the ring: the offset it starts at and its bytes. *)
Definition cell : Type := Z * list Z.

(** [chain buf a b cs]: the cells [cs] tile [buf] from [a] to [b], one
    after the other. *)
Fixpoint chain (buf : list Z) (a b : Z) (cs : list cell) : Prop :=
  match cs with
  | [] => a = b
  | c :: cs' =>
      c.1 = a /\ cell_ok c.2 /\ stored buf a c.2 /\
      chain buf (a + len c.2) b cs'
  end.

(** The queue is unwrapped: the cells run from [head] to [tail = right];
    an empty queue has all three at 0. *)
Definition unwrapped (q : bytesQueue) (cs : list cell) : Prop :=
  0 <= head q /\ tail q <= queue_cap q /\ right q = tail q /\
  chain (array q) (head q) (tail q) cs /\ (cs = [] -> head q = 0).

(** The queue is wrapped: the older cells run from [head] to [right], the
    newer ones from 0 to [tail], and a header-sized gap is left before
    [head]. *)
Definition wrapped (q : bytesQueue) (cs : list cell) : Prop :=
  exists upper lower,
    cs = upper ++ lower /\ upper <> [] /\
    tail q + 22 <= head q /\ right q <= queue_cap q /\
    chain (array q) (head q) (right q) upper /\
    chain (array q) 0 (tail q) lower.

(** The representation invariant of the queue; [cs] lists its cells in the
    order [pop] will return them. *)
Definition queue_inv (q : bytesQueue) (cs : list cell) : Prop :=
  count q = len cs /\
  (maxCapacity q <= 0 \/ queue_cap q <= maxCapacity q) /\
  (unwrapped q cs \/ wrapped q cs).

(** An event removes the entry at [r] from the queue: a pop that returns
    [r], or a reset. *)
Definition evicts (r : qref) (ev : event) : bool :=
  match ev with
  | EvPop (Ok r') => r' =? r
  | EvReset => true
  | _ => false
  end.

(** The queue after [push] has stored an entry at its tail. *)
Definition stored_queue (q : bytesQueue) (ce : CacheEntry) : bytesQueue :=
  let t := tail q + Size (Some ce) in
  mkQueue (count q + 1) (maxCapacity q)
    (overlay (array q) (Z.to_nat (tail q)) (encode ce))
    (head q) t (if head q <? t then t else right q).

(** The array [expand] allocates: the old bytes up to [right], then zeroes. *)
Definition grown (q : bytesQueue) (capacity : Z) : list Z :=
  take (Z.to_nat (right q)) (array q) ++
  replicate (Z.to_nat (capacity - right q)) 0.

(** The queue after a successful [expand] to [capacity]. *)
Definition expanded_queue (q : bytesQueue) (capacity : Z) : bytesQueue :=
  if tail q <? head q then
    mkQueue (count q + 1) (maxCapacity q)
      (overlay (grown q capacity) (Z.to_nat (tail q))
               (plug_bytes (head q - tail q)))
      0 (right q) (right q)
  else
    mkQueue (count q) (maxCapacity q) (grown q capacity)
      (head q) (tail q) (right q).

(** The cells of the queue after [expand]: a wrapped queue is straightened
    out, the gap between its two runs being plugged. *)
Definition expanded_cells (q : bytesQueue) (upper lower : list cell) : list cell :=
  lower ++ (tail q, plug_bytes (head q - tail q)) :: upper.

(** What [push] does on the branches that expand. *)
Definition push_expanding (q : bytesQueue) (ce : CacheEntry) :
    option (bytesQueue * result qref) :=
  match expand q (Size (Some ce)) with
  | None => None
  | Some (q', Err e) => Some (q', Err e)
  | Some (q', Ok _) => push_store q' ce
  end.

(** A hard cap, when set, bounds the capacity. *)
Definition cap_ok (q : bytesQueue) : Prop :=
  maxCapacity q <= 0 \/ queue_cap q <= maxCapacity q.

(** The growth policy as the specification words it: twice the larger of
    the current capacity and the minimum, clamped to the hard cap. *)
Definition spec_expand_capacity (q : bytesQueue) (minimum : Z) : Z :=
  let c := Z.max (queue_cap q) minimum * 2 in
  if (0 <? maxCapacity q) && (maxCapacity q <? c) then maxCapacity q else c.

(** ** Cells and the shard *)

(** The cells after the one at offset [r] has been tombstoned. *)
Definition tomb_cells (r : qref) (cs : list cell) : list cell :=
  map (fun c : cell => if c.1 =? r then (c.1, tombstone c.2) else c) cs.

(** The call [evictOldest] makes to the callback for a cell: none for a
    tombstone or a plug. *)
Definition evict_event (reason : RemoveReason) (c : cell) :
    list (option CacheEntry * RemoveReason) :=
  if cell_hash c.2 =? 0 then [] else [(Some (cell_entry c.2), reason)].

(** The map after the cell has been evicted. *)
Definition evict_map (c : cell) (m : gmap Z qref) : gmap Z qref :=
  if cell_hash c.2 =? 0 then m else delete (cell_hash c.2) m.

(** Every binding of the map points at a cell of the ring that carries the
    bound hash, and no entry is stored under hash 0, the tombstone mark. *)
Definition map_in_ring (m : gmap Z qref) (cs : list cell) : Prop :=
  forall h r, m !! h = Some r ->
    h <> 0 /\ exists bs, (r, bs) ∈ cs /\ cell_hash bs = h.



(** ** A small shard used in examples: two entries written at times 0 and 8
    into a 200-byte ring, life window 10, callback installed. *)

Definition example_entry1 : CacheEntry := mkEntry 0 1 [107] [1].
Definition example_entry2 : CacheEntry := mkEntry 8 2 [108] [2].

Definition example_cells : list cell :=
  [(0, encode example_entry1); (24, encode example_entry2)].

Definition example_shard : cacheShard :=
  mkShard (<[2 := 24]> (<[1 := 0]> ∅))
    (mkQueue 2 0
       (encode example_entry1 ++ encode example_entry2 ++ replicate 152 0)
       0 48 48)
    true [] 10 (mkStats 0 0 0 0 0 0 0).

(** The cells [setWithoutLock] finds in the ring after its first step. *)
Definition displaced_cells (s : cacheShard) (cs : list cell) (hash : Z) : list cell :=
  match hashmap s !! hash with
  | Some prev => tomb_cells prev cs
  | None => cs
  end.

(** The calls a failing [setWithoutLock] makes to the callback: one per cell
    that is neither tombstone nor plug, oldest first, with reason [NoSpace],
    except that the oldest cell goes with reason [Expired] when it is past
    the life window. *)
Definition set_failure_events (s : cacheShard) (cs : list cell)
    (current hash : Z) : list (option CacheEntry * RemoveReason) :=
  match displaced_cells s cs hash with
  | [] => []
  | c :: rest =>
      evict_event (if lifeWindow s <? sub64 current (cell_ts c.2)
                   then Expired else NoSpace) c ++
      flat_map (evict_event NoSpace) rest
  end.

(** A shard with a hard cap of 79 bytes, filled by one 47-byte entry. *)
Definition example_full_cells : list cell :=
  [(0, encode (mkEntry 0 1 [] (replicate 25 1)))].

Definition example_full_shard : cacheShard :=
  mkShard (<[1 := 0]> ∅)
    (mkQueue 1 79 (encode (mkEntry 0 1 [] (replicate 25 1))) 0 47 47)
    true [] 10 (mkStats 0 0 0 0 0 0 0).

(** ** The invariant of a shard *)

(** The ring is well formed and every binding of the map points at a cell
    of the ring that carries the bound hash. *)
Definition shard_inv (s : cacheShard) : Prop :=
  exists cs, queue_inv (entries s) cs /\ map_in_ring (hashmap s) cs.

(** The hashes a shard is asked to store under: unsigned 64-bit and not 0,
    the mark of a deleted entry. *)
Definition sop_ok (o : sop) : Prop :=
  match o with
  | SSet _ _ h _ | SAppend _ _ h _ => 0 < h < 2 ^ 64
  | SDel _ | SCleanUp _ => True
  end.

(** ** The invariant of a cache *)

(** The shard mask selects a shard: the number of shards is a power of two
    and the mask is that number less one, as [newBigCache] sets it up. *)
Definition mask_ok (c : BigCache) : Prop :=
  exists k : nat, len (shards c) = 2 ^ Z.of_nat k /\ shardMask c = 2 ^ Z.of_nat k - 1.

(** The index of the shard a hash selects. *)
Definition shard_index (c : BigCache) (hashedKey : Z) : nat :=
  Z.to_nat (Z.land hashedKey (shardMask c)).

(** * Proofs *)

(** ** Buffers: overlaying bytes and reading them back *)

Section Buffers.
Implicit Types (buf bs : list Z) (a o n : nat).
Local Open Scope nat_scope.

Lemma overlay_length buf a bs :
  a + length bs ≤ length buf → length (overlay buf a bs) = length buf.
Proof.
  intros H. unfold overlay.
  rewrite !length_app, length_take, length_drop. lia.
Qed.

Lemma overlay_app buf a x y :
  a ≤ length buf →
  overlay (overlay buf a x) (a + length x) y = overlay buf a (x ++ y).
Proof.
  intros H. unfold overlay.
  assert (Ha : length (take a buf) = a) by (rewrite length_take; lia).
  rewrite (app_assoc (take a buf) x).
  rewrite take_app_length' by (rewrite length_app; lia).
  rewrite drop_app_ge by (rewrite length_app; lia).
  rewrite length_app, Ha.
  rewrite drop_drop, <- !app_assoc, length_app.
  do 3 f_equal. f_equal. lia.
Qed.

Lemma overlay_nil buf a : overlay buf a [] = buf.
Proof.
  unfold overlay. simpl. rewrite Nat.add_0_r. apply take_drop.
Qed.

Lemma read_overlay_same buf a bs :
  a ≤ length buf → take (length bs) (drop a (overlay buf a bs)) = bs.
Proof.
  intros H. unfold overlay.
  rewrite drop_app_length' by (rewrite length_take; lia).
  apply take_app_length.
Qed.

Lemma read_overlay_left buf a bs o n :
  o + n ≤ a → a ≤ length buf →
  take n (drop o (overlay buf a bs)) = take n (drop o buf).
Proof.
  intros H1 H2. unfold overlay.
  rewrite drop_app_le by (rewrite length_take; lia).
  rewrite take_app_le by (rewrite length_drop, length_take; lia).
  rewrite !take_drop_commute, take_take. do 2 f_equal. lia.
Qed.

Lemma read_overlay_right buf a bs o n :
  a + length bs ≤ o → a ≤ length buf →
  take n (drop o (overlay buf a bs)) = take n (drop o buf).
Proof.
  intros H1 H2. unfold overlay.
  rewrite drop_app_ge by (rewrite length_take; lia).
  rewrite drop_app_ge by (rewrite length_take; lia).
  rewrite drop_drop, length_take. do 2 f_equal. lia.
Qed.

Lemma read_sub buf o n bs k m :
  take n (drop o buf) = bs → k + m ≤ n →
  take m (drop (o + k) buf) = take m (drop k bs).
Proof.
  intros <- H.
  rewrite (take_drop_commute _ _ k), take_take.
  replace (min (k + m) n) with (k + m) by lia.
  rewrite <- take_drop_commute, drop_drop. reflexivity.
Qed.
End Buffers.

(** ** Little-endian integers *)

Lemma le_encode_length n x : length (le_encode n x) = n.
Proof. revert x. induction n as [|n IH]; intros x; simpl; [reflexivity | by rewrite IH]. Qed.

Lemma le_decode_encode n x : le_decode (le_encode n x) = x mod 256 ^ Z.of_nat n.
Proof.
  revert x. induction n as [|n IH]; intros x.
  - simpl. by rewrite Z.mod_1_r.
  - cbn [le_encode le_decode]. rewrite IH.
    rewrite Nat2Z.inj_succ, Z.pow_succ_r by lia.
    rewrite Z.rem_mul_r by lia. reflexivity.
Qed.

Lemma le_decode_zeros n : le_decode (replicate n 0) = 0.
Proof. induction n as [|n IH]; simpl; [reflexivity | rewrite IH; reflexivity]. Qed.

(** ** Bytes stored at an offset *)

Lemma stored_inj buf o bs1 bs2 :
  stored buf o bs1 -> stored buf o bs2 -> length bs1 = length bs2 -> bs1 = bs2.
Proof.
  intros (_ & _ & H1) (_ & _ & H2) Hl. rewrite <- H1, <- H2, Hl. reflexivity.
Qed.

Lemma stored_overlay_same buf o bs :
  0 <= o -> o + len bs <= len buf -> stored (overlay buf (Z.to_nat o) bs) o bs.
Proof.
  intros Ho Hb. repeat split; [lia | rewrite overlay_length; lia |].
  apply read_overlay_same. lia.
Qed.

Lemma stored_overlay_other buf w x o bs :
  stored buf o bs -> 0 <= w -> w + len x <= len buf ->
  o + len bs <= w \/ w + len x <= o ->
  stored (overlay buf (Z.to_nat w) x) o bs.
Proof.
  intros (Ho & Hb & Hs) Hw Hx Hd. repeat split; [lia | rewrite overlay_length; lia |].
  rewrite <- Hs at 2. destruct Hd.
  - apply read_overlay_left; lia.
  - apply read_overlay_right; lia.
Qed.

Lemma stored_sub buf o bs k n :
  stored buf o bs -> (k + n <= length bs)%nat ->
  take n (drop (Z.to_nat o + k) buf) = take n (drop k bs).
Proof. intros (_ & _ & Hs) H. by apply (read_sub _ _ (length bs)). Qed.

Lemma stored_prefix old new o bs r :
  stored old o bs -> o + len bs <= r -> r <= len old ->
  take (Z.to_nat r) new = take (Z.to_nat r) old -> len old <= len new ->
  stored new o bs.
Proof.
  intros (Ho & Hb & Hs) Hr Hr' Hpre Hlen. repeat split; [lia | lia |].
  rewrite <- Hs at 2.
  rewrite !take_drop_commute.
  replace (Z.to_nat o + length bs)%nat
    with (min (Z.to_nat o + length bs) (Z.to_nat r)) by lia.
  rewrite <- !take_take, Hpre. reflexivity.
Qed.

(** ** Reading fields of a stored cell *)

Lemma stored_slice_from buf r bs (k : Z) :
  stored buf r bs -> 0 <= k -> k <= len bs ->
  slice_from buf (r + k) = Some (drop (Z.to_nat r + Z.to_nat k) buf).
Proof.
  intros (Ho & Hb & _) Hk Hn. unfold slice_from.
  destruct (Z.ltb_spec (r + k) 0); [lia|].
  destruct (Z.ltb_spec (len buf) (r + k)); [lia|].
  cbn [orb]. do 2 f_equal. lia.
Qed.

Lemma stored_get_uint buf r bs (k n : nat) :
  stored buf r bs -> (k + n <= length bs)%nat ->
  get_uint n (drop (Z.to_nat r + k) buf) = Some (le_decode (take n (drop k bs))).
Proof.
  intros Hs Hn. pose proof Hs as (Ho & Hb & _). unfold get_uint.
  destruct (Nat.ltb_spec (length (drop (Z.to_nat r + k) buf)) n) as [Hlt|_].
  - rewrite length_drop in Hlt. lia.
  - by rewrite (stored_sub _ _ bs).
Qed.

Lemma stored_field buf r bs (k : Z) (n : nat) :
  stored buf r bs -> 0 <= k -> k + Z.of_nat n <= len bs ->
  (b ← slice_from buf (r + k); get_uint n b)
  = Some (le_decode (take n (drop (Z.to_nat k) bs))).
Proof.
  intros Hs Hk Hn.
  rewrite (stored_slice_from _ _ bs) by (assumption || lia).
  cbn [mbind option_bind]. apply stored_get_uint; [assumption | lia].
Qed.

Lemma stored_size buf r bs :
  stored buf r bs -> 4 <= len bs -> qref_size r buf = Some (cell_size bs).
Proof. intros Hs Hl. unfold qref_size, offLen. by rewrite (stored_field _ _ bs) by (assumption || lia). Qed.

Lemma stored_ts buf r bs :
  stored buf r bs -> 12 <= len bs -> qref_ts r buf = Some (cell_ts bs).
Proof. intros Hs Hl. unfold qref_ts. by rewrite (stored_field _ _ bs) by (assumption || (cbv; lia) || (change offTS with 4; lia)). Qed.

Lemma stored_hash buf r bs :
  stored buf r bs -> 20 <= len bs -> qref_hash r buf = Some (cell_hash bs).
Proof. intros Hs Hl. unfold qref_hash. by rewrite (stored_field _ _ bs) by (assumption || (change offHash with 12; lia)). Qed.

Lemma stored_valid buf r bs :
  stored buf r bs -> cell_ok bs -> qref_valid r buf = Some true.
Proof.
  intros Hs (Hl & Hsz & _). pose proof Hs as (Ho & Hb & _).
  unfold qref_valid.
  destruct (Z.ltb_spec r 0); [lia|].
  destruct (Z.ltb_spec (len buf) sizeLen); [unfold sizeLen in *; lia|].
  rewrite (stored_size _ _ bs) by (assumption || lia). cbn [mbind option_bind].
  rewrite Hsz. f_equal. apply orb_true_intro. left. apply Z.leb_le.
  change offKeyStr with 22. lia.
Qed.

Lemma stored_range buf r bs (a b : Z) :
  stored buf r bs -> 0 <= a -> a <= b -> b <= len bs ->
  slice_range buf (r + a) (r + b)
  = Some (take (Z.to_nat (b - a)) (drop (Z.to_nat a) bs)).
Proof.
  intros Hs Ha Hab Hb. pose proof Hs as (Ho & Hbd & _).
  unfold slice_range.
  destruct (Z.ltb_spec (r + a) 0); [lia|].
  destruct (Z.ltb_spec (r + b) (r + a)); [lia|].
  destruct (Z.ltb_spec (len buf) (r + b)); [lia|].
  cbn [orb]. f_equal.
  replace (r + b - (r + a)) with (b - a) by lia.
  replace (Z.to_nat (r + a)) with (Z.to_nat r + Z.to_nat a)%nat by lia.
  apply (stored_sub _ _ bs); [assumption | lia].
Qed.

Lemma stored_key buf r bs :
  stored buf r bs -> cell_ok bs -> qref_key r buf = Some (cell_key bs).
Proof.
  intros Hs (Hl & Hsz & Hk0 & Hk). unfold qref_key.
  change offKeyLen with 20. change offKeyStr with 22.
  rewrite (stored_slice_from _ _ bs) by (assumption || lia).
  cbn [mbind option_bind].
  rewrite (stored_get_uint _ _ bs) by (assumption || lia).
  cbn [mbind option_bind]. change (Z.to_nat 20) with 20%nat. fold (cell_klen bs).
  rewrite <- Z.add_assoc.
  rewrite (stored_range _ _ bs) by (assumption || lia).
  unfold cell_key. do 2 f_equal. lia.
Qed.

Lemma stored_data buf r bs :
  stored buf r bs -> cell_ok bs -> qref_data r buf = Some (cell_data bs).
Proof.
  intros Hs (Hl & Hsz & Hk0 & Hk). unfold qref_data.
  rewrite (stored_size _ _ bs) by (assumption || lia).
  cbn [mbind option_bind].
  change offKeyLen with 20. change offKeyStr with 22.
  rewrite (stored_slice_from _ _ bs) by (assumption || lia).
  cbn [mbind option_bind].
  rewrite (stored_get_uint _ _ bs) by (assumption || lia).
  cbn [mbind option_bind]. change (Z.to_nat 20) with 20%nat. fold (cell_klen bs).
  rewrite <- Z.add_assoc.
  rewrite (stored_range _ _ bs) by (assumption || lia).
  unfold cell_data. f_equal. f_equal; [lia | f_equal; lia].
Qed.

Lemma stored_read buf r bs :
  stored buf r bs -> cell_ok bs -> qref_read r buf = Some (Ok (cell_entry bs)).
Proof.
  intros Hs Hok. pose proof Hok as (Hl & _). unfold qref_read.
  rewrite (stored_valid _ _ bs), (stored_ts _ _ bs), (stored_hash _ _ bs),
    (stored_key _ _ bs), (stored_data _ _ bs) by (assumption || lia).
  reflexivity.
Qed.

Lemma overlay_same buf (a : nat) bs :
  take (length bs) (drop a buf) = bs -> (a + length bs <= length buf)%nat ->
  overlay buf a bs = buf.
Proof.
  intros H Hl. unfold overlay. rewrite <- H at 1.
  rewrite <- (take_drop a buf) at 4. f_equal.
  rewrite <- (take_drop (length bs) (drop a buf)) at 2.
  rewrite drop_drop. reflexivity.
Qed.

(** ** The codec on well-formed input *)

Lemma put_uint_ok n buf a v :
  0 <= a -> a + Z.of_nat n <= len buf ->
  put_uint n buf a v = Some (overlay buf (Z.to_nat a) (le_encode n v)).
Proof.
  intros Ha Hn. unfold put_uint.
  destruct (Z.ltb_spec a 0); [lia|].
  destruct (Z.ltb_spec (len buf) a); [lia|]. cbn [orb].
  destruct (Nat.ltb_spec (length buf - Z.to_nat a) n); [lia|]. reflexivity.
Qed.

Lemma copy_at_ok buf a src :
  0 <= a -> a + len src <= len buf ->
  copy_at buf a src = Some (overlay buf (Z.to_nat a) src).
Proof.
  intros Ha Hn. unfold copy_at.
  destruct (Z.ltb_spec a 0); [lia|].
  destruct (Z.ltb_spec (len buf) a); [lia|]. cbn [orb].
  rewrite take_ge by lia. reflexivity.
Qed.

Lemma encode_length ce : len (encode ce) = Size (Some ce).
Proof.
  unfold encode, Size. rewrite !length_app, !le_encode_length.
  change offKeyStr with 22. lia.
Qed.

Lemma qref_write_ok r buf ce :
  0 <= r -> r + Size (Some ce) <= len buf ->
  qref_write r buf ce = Some (overlay buf (Z.to_nat r) (encode ce)).
Proof.
  intros Hr Hs. unfold qref_write.
  assert (Hsz : Size (Some ce) = 22 + (len (Key ce) + len (Data ce))) by reflexivity.
  change offLen with 0. change offTS with 4. change offHash with 12.
  change offKeyLen with 20. change offKeyStr with 22.
  rewrite put_uint_ok by lia. cbn [mbind option_bind].
  rewrite put_uint_ok by (rewrite ?overlay_length; rewrite ?le_encode_length; lia).
  cbn [mbind option_bind].
  replace (Z.to_nat (r + 4)) with (Z.to_nat (r + 0) + length (le_encode 4 (Size (Some ce) mod 2 ^ 32)))%nat
    by (rewrite le_encode_length; lia).
  rewrite overlay_app by lia.
  rewrite put_uint_ok by (rewrite ?overlay_length; rewrite ?length_app, ?le_encode_length; lia).
  cbn [mbind option_bind].
  replace (Z.to_nat (r + 12)) with (Z.to_nat (r + 0) + length (le_encode 4 (Size (Some ce) mod 2 ^ 32) ++ le_encode 8 (TS ce)))%nat
    by (rewrite length_app, !le_encode_length; lia).
  rewrite overlay_app by lia.
  rewrite put_uint_ok by (rewrite ?overlay_length; rewrite ?length_app, ?le_encode_length; lia).
  cbn [mbind option_bind].
  match goal with |- context [overlay (overlay buf ?a ?x) (Z.to_nat (r + 20)) ?y] =>
    replace (Z.to_nat (r + 20)) with (a + length x)%nat
      by (rewrite !length_app, !le_encode_length; lia);
    rewrite overlay_app by lia
  end.
  rewrite copy_at_ok by (rewrite ?overlay_length; rewrite ?length_app, ?le_encode_length; lia).
  cbn [mbind option_bind].
  match goal with |- context [overlay (overlay buf ?a ?x) (Z.to_nat (r + 22)) ?y] =>
    replace (Z.to_nat (r + 22)) with (a + length x)%nat
      by (rewrite !length_app, !le_encode_length; lia);
    rewrite overlay_app by lia
  end.
  rewrite copy_at_ok by (rewrite ?overlay_length; rewrite ?length_app, ?le_encode_length; lia).
  match goal with |- context [overlay (overlay buf ?a ?x) (Z.to_nat ?p) ?y] =>
    replace (Z.to_nat p) with (a + length x)%nat
      by (rewrite !length_app, !le_encode_length; lia);
    rewrite overlay_app by lia
  end.
  unfold encode. rewrite Z.add_0_r, <- !app_assoc. reflexivity.
Qed.

Lemma encode_cell_size ce : cell_size (encode ce) = Size (Some ce) mod 2 ^ 32.
Proof.
  unfold cell_size, encode.
  rewrite take_app_length' by (by rewrite le_encode_length).
  rewrite le_decode_encode. change (256 ^ Z.of_nat 4) with (2 ^ 32).
  apply Z.mod_mod. lia.
Qed.

Lemma encode_cell_ts ce : cell_ts (encode ce) = TS ce mod 2 ^ 64.
Proof.
  unfold cell_ts, encode.
  rewrite drop_app_length' by (by rewrite le_encode_length).
  rewrite take_app_length' by (by rewrite le_encode_length).
  by rewrite le_decode_encode.
Qed.

Lemma encode_cell_hash ce : cell_hash (encode ce) = Hash ce mod 2 ^ 64.
Proof.
  unfold cell_hash, encode.
  rewrite (app_assoc (le_encode 4 _)).
  rewrite drop_app_length' by (by rewrite length_app, !le_encode_length).
  rewrite take_app_length' by (by rewrite le_encode_length).
  by rewrite le_decode_encode.
Qed.

Lemma encode_drop20 ce :
  drop 20 (encode ce) = le_encode 2 (len (Key ce) mod 2 ^ 16) ++ Key ce ++ Data ce.
Proof.
  unfold encode.
  rewrite (app_assoc (le_encode 8 (TS ce))), (app_assoc (le_encode 4 _)).
  by rewrite drop_app_length' by (by rewrite !length_app, !le_encode_length).
Qed.

Lemma encode_cell_klen ce : cell_klen (encode ce) = len (Key ce) mod 2 ^ 16.
Proof.
  unfold cell_klen. rewrite encode_drop20.
  rewrite take_app_length' by (by rewrite le_encode_length).
  rewrite le_decode_encode. change (256 ^ Z.of_nat 2) with (2 ^ 16).
  apply Z.mod_mod. lia.
Qed.

Lemma encode_drop22 ce : drop 22 (encode ce) = Key ce ++ Data ce.
Proof.
  change 22%nat with (20 + 2)%nat. rewrite <- drop_drop, encode_drop20.
  by rewrite drop_app_length' by (by rewrite le_encode_length).
Qed.

Lemma encode_cell_ok ce : Size (Some ce) < 2 ^ 32 -> cell_ok (encode ce).
Proof.
  intros Hs. unfold cell_ok.
  rewrite encode_cell_size, encode_cell_klen, encode_length.
  assert (Hsz : Size (Some ce) = 22 + (len (Key ce) + len (Data ce))) by reflexivity.
  pose proof (Z.mod_pos_bound (len (Key ce)) (2 ^ 16) ltac:(lia)).
  pose proof (Z.mod_le (len (Key ce)) (2 ^ 16) ltac:(lia) ltac:(lia)).
  rewrite Z.mod_small by lia. lia.
Qed.

Lemma encode_cell_entry ce :
  entry_wf ce -> Size (Some ce) < 2 ^ 32 -> cell_entry (encode ce) = ce.
Proof.
  intros (Hts & Hh & Hk) Hs. destruct ce as [ts h k d]. cbn [TS Hash Key Data] in *.
  assert (Hsz : Size (Some (mkEntry ts h k d)) = 22 + (len k + len d)) by reflexivity.
  unfold cell_entry, cell_key, cell_data.
  rewrite encode_cell_ts, encode_cell_hash, encode_cell_klen, encode_cell_size.
  cbn [TS Hash Key Data].
  rewrite (Z.mod_small ts), (Z.mod_small h), (Z.mod_small (len k)), Z.mod_small by lia.
  rewrite encode_drop22. cbn [Key Data].
  f_equal.
  - rewrite Nat2Z.id. apply take_app_length.
  - rewrite <- drop_drop, encode_drop22. cbn [Key Data].
    rewrite Nat2Z.id, drop_app_length. rewrite Hsz.
    apply take_ge. lia.
Qed.

Lemma plug_bytes_length n : 4 <= n -> len (plug_bytes n) = n.
Proof.
  intros H. unfold plug_bytes. rewrite length_app, le_encode_length, length_replicate. lia.
Qed.

Lemma plug_cell_ok n : 22 <= n -> n < 2 ^ 32 -> cell_ok (plug_bytes n).
Proof.
  intros H1 H2. unfold cell_ok. rewrite plug_bytes_length by lia.
  unfold cell_size, cell_klen, plug_bytes.
  rewrite take_app_length' by (by rewrite le_encode_length).
  rewrite le_decode_encode. change (256 ^ Z.of_nat 4) with (2 ^ 32).
  rewrite Z.mod_mod, Z.mod_small by lia.
  rewrite drop_app_ge by (rewrite le_encode_length; lia).
  rewrite drop_replicate, take_replicate, le_decode_zeros. lia.
Qed.

Lemma plug_cell_hash n : cell_hash (plug_bytes n) = 0.
Proof.
  unfold cell_hash, plug_bytes.
  rewrite drop_app_ge by (rewrite le_encode_length; lia).
  by rewrite drop_replicate, take_replicate, le_decode_zeros.
Qed.

Lemma qref_plug_ok r s buf :
  0 <= r -> r + 4 <= s -> s <= len buf ->
  qref_plug r s buf = Some (overlay buf (Z.to_nat r) (plug_bytes (s - r))).
Proof.
  intros Hr Hs Hb. unfold qref_plug. change offLen with 0. change sizeLen with 4.
  rewrite put_uint_ok by lia. cbn [mbind option_bind].
  unfold slice_range.
  destruct (Z.ltb_spec (r + 4) 0); [lia|].
  destruct (Z.ltb_spec s (r + 4)); [lia|].
  match goal with |- context [len ?b <? s] => destruct (Z.ltb_spec (len b) s) as [Hlt|_] end.
  { rewrite overlay_length in Hlt by (rewrite le_encode_length; lia). lia. }
  cbn [orb mbind option_bind]. f_equal.
  rewrite length_take, length_drop, overlay_length by (rewrite le_encode_length; lia).
  replace (Z.to_nat (r + 4)) with (Z.to_nat (r + 0) + length (le_encode 4 ((s - r) mod 2 ^ 32)))%nat
    by (rewrite le_encode_length; lia).
  rewrite overlay_app by lia. rewrite Z.add_0_r. unfold plug_bytes.
  do 3 f_equal. rewrite le_encode_length. lia.
Qed.

Lemma tombstone_length bs : 20 <= len bs -> length (tombstone bs) = length bs.
Proof.
  intros H. unfold tombstone.
  rewrite !length_app, length_take, length_drop, le_encode_length. lia.
Qed.

Lemma qref_clearHash_ok r buf bs :
  stored buf r bs -> 20 <= len bs ->
  qref_clearHash r buf = Some (overlay buf (Z.to_nat r) (tombstone bs)).
Proof.
  intros Hs Hl. pose proof Hs as (Hr & Hb & Heq).
  unfold qref_clearHash. change offHash with 12.
  rewrite put_uint_ok by lia. f_equal.
  unfold tombstone.
  assert (H12 : length (take 12 bs) = 12%nat) by (rewrite length_take; lia).
  rewrite <- (overlay_app _ _ (take 12 bs)) by lia.
  rewrite (overlay_same buf (Z.to_nat r) (take 12 bs)); cycle 1.
  { rewrite H12. rewrite <- (Nat.add_0_r (Z.to_nat r)).
    rewrite (stored_sub _ _ bs) by (assumption || lia). reflexivity. }
  { lia. }
  rewrite H12.
  rewrite <- (overlay_app _ _ (le_encode 8 0)) by lia.
  replace (Z.to_nat r + 12)%nat with (Z.to_nat (r + 12)) by lia.
  symmetry. apply overlay_same.
  - rewrite read_overlay_right by (rewrite ?le_encode_length; lia).
    rewrite le_encode_length.
    replace (Z.to_nat (r + 12) + 8)%nat with (Z.to_nat r + 20)%nat by lia.
    rewrite length_drop.
    rewrite (stored_sub _ _ bs) by (assumption || lia).
    apply take_ge. rewrite length_drop. lia.
  - rewrite overlay_length by (rewrite le_encode_length; lia).
    rewrite length_drop, le_encode_length. lia.
Qed.

Lemma tombstone_cell_ok bs : cell_ok bs -> cell_ok (tombstone bs).
Proof.
  intros (Hl & Hsz & Hk0 & Hk).
  assert (H12 : length (take 12 bs) = 12%nat) by (rewrite length_take; lia).
  unfold cell_ok. rewrite tombstone_length by lia.
  assert (cell_size (tombstone bs) = cell_size bs) as ->.
  { unfold cell_size, tombstone. rewrite take_app_le by lia.
    rewrite take_take. reflexivity. }
  assert (cell_klen (tombstone bs) = cell_klen bs) as ->.
  { unfold cell_klen, tombstone.
    rewrite app_assoc, drop_app_length'
      by (rewrite length_app, H12, le_encode_length; reflexivity).
    reflexivity. }
  lia.
Qed.

Lemma tombstone_cell_hash bs : 20 <= len bs -> cell_hash (tombstone bs) = 0.
Proof.
  intros Hl. unfold cell_hash, tombstone.
  rewrite drop_app_length' by (rewrite length_take; lia).
  rewrite take_app_length' by (by rewrite le_encode_length).
  reflexivity.
Qed.

Lemma tombstone_cell_ts bs : 20 <= len bs -> cell_ts (tombstone bs) = cell_ts bs.
Proof.
  intros Hl. unfold cell_ts, tombstone.
  rewrite drop_app_le by (rewrite length_take; lia).
  rewrite take_app_le by (rewrite length_drop, length_take; lia).
  rewrite !take_drop_commute, take_take. reflexivity.
Qed.

(** ** Chains of cells *)

Lemma chain_le buf a b cs : chain buf a b cs -> a <= b.
Proof.
  revert a. induction cs as [|c cs IH]; intros a H; cbn in H.
  - lia.
  - destruct H as (_ & (Hl & _) & _ & H). apply IH in H. lia.
Qed.

Lemma chain_gap buf a b cs : chain buf a b cs -> cs <> [] -> a + 22 <= b.
Proof.
  destruct cs as [|c cs]; [done|]. intros (_ & (Hl & _) & _ & H) _.
  apply chain_le in H. lia.
Qed.

Lemma chain_nil_iff buf a b cs : chain buf a b cs -> (cs = [] <-> a = b).
Proof.
  intros H. split.
  - intros ->. exact H.
  - intros ->. destruct cs as [|c cs]; [done|].
    apply chain_gap in H; [lia | done].
Qed.

Lemma chain_upper buf a b cs : chain buf a b cs -> cs <> [] -> 0 <= a /\ b <= len buf.
Proof.
  revert a. induction cs as [|c cs IH]; [done|].
  intros a (_ & _ & (Ha & Hb & _) & H) _. split; [exact Ha|].
  destruct cs as [|c' cs'].
  - cbn in H. lia.
  - apply IH in H; [lia | done].
Qed.

Lemma chain_in buf a b cs c :
  chain buf a b cs -> c ∈ cs ->
  cell_ok c.2 /\ stored buf c.1 c.2 /\ a <= c.1 /\ c.1 + len c.2 <= b.
Proof.
  revert a. induction cs as [|c0 cs IH]; intros a H Hin.
  - by apply elem_of_nil in Hin.
  - destruct H as (Ho & Hok & Hst & H).
    apply elem_of_cons in Hin as [-> | Hin].
    + rewrite Ho. pose proof (chain_le _ _ _ _ H).
      split; [assumption|]. split; [assumption|]. lia.
    + destruct (IH _ H Hin) as (? & ? & ? & ?). destruct Hok as (? & _).
      split; [assumption|]. split; [assumption|]. lia.
Qed.

Lemma chain_app buf a m b l1 l2 :
  chain buf a m l1 -> chain buf m b l2 -> chain buf a b (l1 ++ l2).
Proof.
  revert a. induction l1 as [|c l1 IH]; intros a H1 H2; cbn in *.
  - by subst.
  - destruct H1 as (? & ? & ? & H1).
    split; [assumption|]. split; [assumption|]. split; [assumption|]. by apply IH.
Qed.

Lemma chain_frame buf buf' a b cs :
  chain buf a b cs ->
  (forall o bs, a <= o -> o + len bs <= b -> stored buf o bs -> stored buf' o bs) ->
  chain buf' a b cs.
Proof.
  revert a. induction cs as [|c cs IH]; intros a H Hf; cbn in *; [exact H|].
  destruct H as (Ho & Hok & Hst & H). pose proof (chain_le _ _ _ _ H).
  split; [assumption|]. split; [assumption|]. split.
  - apply Hf; [lia | lia | assumption].
  - apply IH; [assumption|]. intros o bs ? ?. apply Hf; [|lia].
    destruct Hok as (? & _). lia.
Qed.

Lemma chain_snoc buf a b cs bs :
  chain buf a b cs -> stored buf b bs -> cell_ok bs ->
  chain buf a (b + len bs) (cs ++ [(b, bs)]).
Proof.
  intros H Hs Hok. apply (chain_app _ _ b); [assumption|].
  cbn. split; [reflexivity|]. split; [assumption|]. split; [assumption|]. reflexivity.
Qed.

(** Two cells of a chain that start at the same offset are the same cell. *)
Lemma cells_same_offset buf o bs1 bs2 :
  stored buf o bs1 -> cell_ok bs1 -> stored buf o bs2 -> cell_ok bs2 -> bs1 = bs2.
Proof.
  intros H1 (Hl1 & Hs1 & _) H2 (Hl2 & Hs2 & _).
  assert (length bs1 = length bs2).
  { pose proof (stored_size _ _ _ H1 ltac:(lia)) as E1.
    pose proof (stored_size _ _ _ H2 ltac:(lia)) as E2.
    rewrite E1 in E2. injection E2 as E2. lia. }
  by apply (stored_inj buf o).
Qed.

(** ** The queue invariant *)

Lemma queue_inv_in q cs c :
  queue_inv q cs -> c ∈ cs ->
  cell_ok c.2 /\ stored (array q) c.1 c.2 /\ c.1 <= right q.
Proof.
  intros (_ & _ & [(H0 & Ht & Hr & Hc & _) | (up & lo & -> & Hne & Hg & Hr & Hu & Hl)]) Hin.
  - destruct (chain_in _ _ _ _ _ Hc Hin) as (Hok & ? & ? & ?).
    pose proof Hok as (? & _). split; [assumption|]. split; [assumption|]. lia.
  - apply elem_of_app in Hin as [Hin | Hin].
    + destruct (chain_in _ _ _ _ _ Hu Hin) as (Hok & ? & ? & ?).
      pose proof Hok as (? & _). split; [assumption|]. split; [assumption|]. lia.
    + destruct (chain_in _ _ _ _ _ Hl Hin) as (Hok & ? & ? & ?).
      pose proof (chain_gap _ _ _ _ Hu Hne).
      pose proof Hok as (? & _). split; [assumption|]. split; [assumption|]. lia.
Qed.

Lemma queue_inv_new initial maxCap :
  0 <= initial -> maxCap <= 0 \/ initial <= maxCap ->
  queue_inv (newBytesQueue initial maxCap) [].
Proof.
  intros Hi Hm. unfold queue_inv, newBytesQueue, queue_cap. cbn.
  rewrite length_replicate. split; [reflexivity|]. split; [lia|].
  left. unfold unwrapped, queue_cap. cbn. rewrite length_replicate.
  repeat split; try lia; done.
Qed.

Lemma queue_inv_reset q cs : queue_inv q cs -> queue_inv (queue_reset q) [].
Proof.
  intros (_ & Hm & _). unfold queue_inv, queue_reset, queue_cap in *. cbn.
  split; [reflexivity|]. split; [exact Hm|].
  left. unfold unwrapped, queue_cap. cbn. repeat split; try lia; done.
Qed.

Lemma pop_empty q : queue_inv q [] -> pop q = Some (q, Err ErrQueueEmpty).
Proof. intros (Hc & _). unfold pop. rewrite Hc. reflexivity. Qed.

Ltac qsimpl :=
  unfold queue_inv, unwrapped, wrapped, queue_cap,
    set_head, set_tail, set_right, set_count, set_array in *;
  cbn [count maxCapacity array head tail right length app fst snd] in *.

Lemma pop_inv q c cs :
  queue_inv q (c :: cs) ->
  exists q', pop q = Some (q', Ok c.1) /\ queue_inv q' cs /\
             array q' = array q /\ maxCapacity q' = maxCapacity q.
Proof.
  intros Hinv.
  destruct (queue_inv_in _ _ c Hinv ltac:(left)) as (Hok & Hst & _).
  destruct Hinv as (Hc & Hm & Hshape).
  pose proof Hok as (Hl & Hsz & _).
  unfold pop.
  destruct (Z.eqb_spec (count q) 0) as [E|_]; [cbn [length] in Hc; lia|].
  assert (Hhead : head q = c.1).
  { destruct Hshape as [(_ & _ & _ & Hch & _) | (up & lo & E & Hne & _ & _ & Hu & _)].
    - symmetry. apply Hch.
    - destruct up as [|c' up]; [done|]. injection E as <- _. symmetry. apply Hu. }
  rewrite Hhead, (stored_valid _ _ c.2), (stored_size _ _ c.2) by (assumption || lia).
  cbn [mbind option_bind negb]. rewrite Hsz.
  destruct q as [n m a h t r]. qsimpl. subst h.
  destruct Hshape as [(H0 & Ht & -> & Hch & _) | (up & lo & E & Hne & Hg & Hr & Hu & Hlo)].
  - destruct Hch as (_ & _ & _ & Hch). pose proof (chain_le _ _ _ _ Hch).
    destruct (Z.eqb_spec (c.1 + len c.2) t) as [E|E].
    + rewrite Z.eqb_refl. qsimpl.
      eexists. split; [reflexivity|].
      assert (cs = []) as -> by (by apply (chain_nil_iff _ _ _ _ Hch)).
      qsimpl. split; [|done]. split; [lia|]. split; [exact Hm|].
      left. repeat split; try lia; done.
    + eexists. split; [reflexivity|]. qsimpl. split; [|done].
      split; [lia|]. split; [exact Hm|].
      left. split; [lia|]. split; [lia|]. split; [reflexivity|]. split; [assumption|].
      intros ->. cbn in Hch. lia.
  - destruct up as [|c' up]; [done|]. injection E as <- ->.
    destruct Hu as (_ & _ & _ & Hu). pose proof (chain_le _ _ _ _ Hu).
    pose proof (chain_le _ _ _ _ Hlo).
    destruct (Z.eqb_spec (c.1 + len c.2) r) as [E|E].
    + destruct (Z.eqb_spec t r) as [E'|_]; [lia|]. qsimpl.
      eexists. split; [reflexivity|].
      assert (up = []) as -> by (by apply (chain_nil_iff _ _ _ _ Hu)).
      qsimpl. split; [|done]. split; [lia|]. split; [exact Hm|].
      left. split; [lia|]. split; [lia|]. split; [reflexivity|]. split; [assumption|]. done.
    + eexists. split; [reflexivity|]. qsimpl. split; [|done].
      rewrite !length_app in *. cbn [length] in *.
      split; [lia|]. split; [exact Hm|].
      right. exists up, lo.
      split; [reflexivity|]. split; [intros ->; cbn in Hu; lia|].
      split; [lia|]. split; [lia|]. split; assumption.
Qed.

(** ** Storing at the tail *)

Lemma Size_ge ce : 22 <= Size (Some ce).
Proof. unfold Size. change offKeyStr with 22. lia. Qed.

Lemma push_store_eq q ce :
  0 <= tail q -> tail q + Size (Some ce) <= queue_cap q ->
  push_store q ce = Some (stored_queue q ce, Ok (tail q)).
Proof.
  intros H0 H1. unfold push_store, stored_queue.
  rewrite qref_write_ok by assumption. cbn [mbind option_bind].
  destruct q as [n m a h t r]. qsimpl.
  destruct (h <? t + Size (Some ce)); reflexivity.
Qed.

Lemma stored_queue_cap q ce :
  0 <= tail q -> tail q + Size (Some ce) <= queue_cap q ->
  queue_cap (stored_queue q ce) = queue_cap q.
Proof.
  intros H0 H1. unfold stored_queue, queue_cap in *. cbn [array].
  rewrite overlay_length; [reflexivity|]. pose proof (encode_length ce). lia.
Qed.

Lemma push_store_unwrapped q cs ce :
  queue_inv q cs -> unwrapped q cs ->
  tail q + Size (Some ce) <= queue_cap q -> Size (Some ce) < 2 ^ 32 ->
  queue_inv (stored_queue q ce) (cs ++ [(tail q, encode ce)]).
Proof.
  intros (Hc & Hm & _) (H0 & Ht & Hr & Hch & Hnil) Hroom Hsz.
  pose proof (Size_ge ce) as Hge. pose proof (encode_length ce) as Hel.
  pose proof (chain_le _ _ _ _ Hch) as Hle.
  unfold stored_queue. destruct q as [n m a h t r]. qsimpl.
  rewrite overlay_length by lia. rewrite length_app. cbn [length].
  split; [lia|]. split; [exact Hm|]. left.
  destruct (Z.ltb_spec h (t + Size (Some ce))); [|lia].
  split; [lia|]. split; [lia|]. split; [reflexivity|]. split.
  - rewrite <- Hel. apply chain_snoc.
    + apply (chain_frame a); [assumption|].
      intros o bs ? ? Hs. apply stored_overlay_other; [assumption | lia | lia | lia].
    + apply stored_overlay_same; lia.
    + by apply encode_cell_ok.
  - intros E. by apply app_eq_nil in E as [_ ?].
Qed.

Lemma push_store_wrapped q cs ce :
  queue_inv q cs -> wrapped q cs ->
  tail q + Size (Some ce) + 22 <= head q -> Size (Some ce) < 2 ^ 32 ->
  queue_inv (stored_queue q ce) (cs ++ [(tail q, encode ce)]).
Proof.
  intros (Hc & Hm & _) (up & lo & -> & Hne & Hg & Hr & Hu & Hlo) Hroom Hsz.
  pose proof (Size_ge ce) as Hge. pose proof (encode_length ce) as Hel.
  pose proof (chain_le _ _ _ _ Hu) as Hle. pose proof (chain_le _ _ _ _ Hlo) as Hle'.
  unfold stored_queue. destruct q as [n m a h t r]. qsimpl.
  rewrite overlay_length by lia. rewrite !length_app in *. cbn [length].
  split; [lia|]. split; [exact Hm|]. right.
  destruct (Z.ltb_spec h (t + Size (Some ce))); [lia|].
  exists up, (lo ++ [(t, encode ce)]).
  split; [by rewrite app_assoc|]. split; [assumption|].
  split; [lia|]. split; [lia|]. split.
  - apply (chain_frame a); [assumption|].
    intros o bs ? ? Hs. apply stored_overlay_other; [assumption | lia | lia | lia].
  - rewrite <- Hel. apply chain_snoc.
    + apply (chain_frame a); [assumption|].
      intros o bs ? ? Hs. apply stored_overlay_other; [assumption | lia | lia | lia].
    + apply stored_overlay_same; lia.
    + by apply encode_cell_ok.
Qed.

Lemma push_store_wrap q cs ce :
  queue_inv q cs -> unwrapped q cs ->
  Size (Some ce) + 22 <= head q -> Size (Some ce) < 2 ^ 32 ->
  queue_inv (stored_queue (set_tail q 0) ce) (cs ++ [(0, encode ce)]).
Proof.
  intros (Hc & Hm & _) (H0 & Ht & Hr & Hch & Hnil) Hroom Hsz.
  pose proof (Size_ge ce) as Hge. pose proof (encode_length ce) as Hel.
  pose proof (chain_le _ _ _ _ Hch) as Hle.
  unfold stored_queue. destruct q as [n m a h t r]. qsimpl.
  rewrite overlay_length by lia. rewrite !length_app in *. cbn [length].
  split; [lia|]. split; [exact Hm|]. right.
  destruct (Z.ltb_spec h (0 + Size (Some ce))); [lia|].
  exists cs, [(0, encode ce)].
  split; [reflexivity|]. split; [intros E; specialize (Hnil E); lia|].
  split; [lia|]. split; [lia|]. split.
  - subst r. apply (chain_frame a); [assumption|].
    intros o bs ? ? Hs. apply stored_overlay_other; [assumption | lia | lia | lia].
  - cbn [chain fst snd]. split; [reflexivity|]. split; [by apply encode_cell_ok|].
    split; [apply stored_overlay_same; lia | lia].
Qed.

(** ** Expansion *)

Lemma queue_inv_bounds q cs :
  queue_inv q cs -> 0 <= tail q /\ 0 <= right q <= queue_cap q /\ 0 <= head q /\
                    tail q <= right q /\ head q <= right q.
Proof.
  intros (_ & _ & [(H0 & Ht & Hr & Hch & _) | (up & lo & _ & Hne & Hg & Hr & Hu & Hlo)]).
  - apply chain_le in Hch. lia.
  - pose proof (chain_gap _ _ _ _ Hu Hne). apply chain_le in Hlo. lia.
Qed.

Lemma expand_capacity_ge q m :
  maxCapacity q <= 0 \/ queue_cap q <= maxCapacity q ->
  0 < expand_capacity q m -> queue_cap q <= expand_capacity q m.
Proof.
  unfold expand_capacity. set (c := queue_cap q).
  assert (0 <= c) by (unfold c, queue_cap; lia).
  intros Hm. destruct (Z.ltb_spec c m);
    destruct (Z.ltb_spec 0 (maxCapacity q));
    cbn [andb]; try (match goal with |- context [?a <? ?b] => destruct (Z.ltb_spec a b) end);
    lia.
Qed.

Lemma expand_capacity_max q m :
  0 < maxCapacity q -> expand_capacity q m <= maxCapacity q.
Proof.
  unfold expand_capacity. intros Hm.
  destruct (Z.ltb_spec 0 (maxCapacity q)); [|lia]. cbn [andb].
  match goal with |- context [?a <? ?b] => destruct (Z.ltb_spec a b) end; lia.
Qed.

Lemma grown_length q c :
  0 <= right q <= queue_cap q -> queue_cap q <= c -> len (grown q c) = c.
Proof.
  intros Hr Hc. unfold grown, queue_cap in *.
  rewrite length_app, length_take, length_replicate. lia.
Qed.

Lemma grown_prefix q c :
  0 <= right q <= queue_cap q ->
  take (Z.to_nat (right q)) (grown q c) = take (Z.to_nat (right q)) (array q).
Proof.
  intros Hr. unfold grown, queue_cap in *.
  rewrite take_app_length'; [reflexivity|]. rewrite length_take. lia.
Qed.

Lemma expand_eq q cs m :
  queue_inv q cs ->
  let c := expand_capacity q m in
  expand q m = if (c <? m) || (c <=? 0) then Some (q, Err ErrQueueEntryTooBig)
               else Some (expanded_queue q c, Ok tt).
Proof.
  intros Hinv c. pose proof (queue_inv_bounds _ _ Hinv) as (Ht & Hr & Hh & Htr & Hhr).
  destruct Hinv as (Hc & Hm & Hshape).
  unfold expand. fold c. destruct ((c <? m) || (c <=? 0)) eqn:E; [reflexivity|].
  apply orb_false_elim in E as [_ E]. apply Z.leb_gt in E.
  pose proof (expand_capacity_ge q m Hm E) as Hge. fold c in Hge.
  unfold expanded_queue.
  destruct q as [n mx a h t r]. qsimpl.
  assert (Hgrown : overlay (replicate (Z.to_nat c) 0) (Z.to_nat 0)
                     (take (length (replicate (Z.to_nat c) 0) - Z.to_nat 0)
                        (take (Z.to_nat (r - 0)) (drop (Z.to_nat 0) a)))
                   = grown (mkQueue n mx a h t r) c).
  { unfold grown, overlay. cbn [right array].
    change (Z.to_nat 0) with 0%nat. cbn [take drop app Nat.add].
    rewrite length_replicate, Z.sub_0_r, Nat.sub_0_r.
    rewrite (take_ge (take _ _)) by (rewrite length_take; lia).
    rewrite drop_replicate, length_take. rewrite drop_0.
    change (take 0 (replicate (Z.to_nat c) 0)) with (@nil Z). cbn [app].
    do 2 f_equal. lia. }
  destruct (Z.eqb_spec r 0) as [->|Hr0]; cbn [negb].
  - destruct (Z.ltb_spec t h); [lia|].
    do 3 f_equal. unfold grown. cbn [right array]. rewrite Z.sub_0_r. reflexivity.
  - unfold slice_range, copy_at.
    destruct (Z.ltb_spec r 0); [lia|].
    destruct (Z.ltb_spec (len a) r); [lia|].
    destruct (Z.ltb_spec (len (replicate (Z.to_nat c) 0)) 0); [lia|].
    cbn [orb Z.ltb Z.compare mbind option_bind].
    rewrite Hgrown.
    destruct (Z.ltb_spec t h) as [Hth|Hth]; [|reflexivity].
    assert (t + 22 <= h).
    { destruct Hshape as [(_ & _ & _ & Hch & _) | (up & lo & _ & _ & Hg & _)]; [|exact Hg].
      apply chain_le in Hch. lia. }
    rewrite qref_plug_ok; [reflexivity | lia | lia |].
    rewrite grown_length; cbn [right array]; unfold queue_cap; cbn [array]; lia.
Qed.

Lemma expand_inv q cs m :
  queue_inv q cs ->
  let c := expand_capacity q m in
  0 < c -> c < 2 ^ 32 ->
  exists cs', queue_inv (expanded_queue q c) cs' /\
              unwrapped (expanded_queue q c) cs' /\
              (forall x, x ∈ cs -> x ∈ cs') /\
              tail (expanded_queue q c) = right q /\
              queue_cap (expanded_queue q c) = c /\
              maxCapacity (expanded_queue q c) = maxCapacity q.
Proof.
  intros Hinv c Hpos Hbound.
  pose proof (queue_inv_bounds _ _ Hinv) as (Ht & Hr & Hh & Htr & Hhr).
  destruct Hinv as (Hc & Hm & Hshape).
  pose proof (expand_capacity_ge q m Hm Hpos) as Hge. fold c in Hge.
  pose proof (grown_length q c Hr Hge) as Hgl.
  pose proof (grown_prefix q c Hr) as Hgp.
  assert (Hm' : maxCapacity q <= 0 \/ c <= maxCapacity q).
  { destruct (Z.le_gt_cases (maxCapacity q) 0); [by left|].
    right. apply expand_capacity_max. lia. }
  assert (Hframe : forall o bs, o + len bs <= right q ->
                     stored (array q) o bs -> stored (grown q c) o bs).
  { intros o bs Ho Hs. apply (stored_prefix (array q) _ _ _ (right q));
      [assumption | lia | unfold queue_cap in *; lia | assumption | unfold queue_cap in *; lia]. }
  unfold expanded_queue.
  destruct Hshape as [(H0 & Htc & Hrt & Hch & Hnil) | (up & lo & -> & Hne & Hg & Hrc & Hu & Hlo)].
  - pose proof (chain_le _ _ _ _ Hch).
    destruct (Z.ltb_spec (tail q) (head q)); [lia|].
    exists cs.
    assert (Hun : unwrapped (mkQueue (count q) (maxCapacity q) (grown q c)
                              (head q) (tail q) (right q)) cs).
    { unfold unwrapped, queue_cap. cbn [count maxCapacity array head tail right].
      split; [lia|]. split; [lia|]. split; [assumption|]. split; [|assumption].
      apply (chain_frame (array q)); [assumption|].
      intros o bs ? ? Hs. apply Hframe; [lia | assumption]. }
    split; [|split; [exact Hun|]].
    + split; [exact Hc|]. split; [|left; exact Hun].
      unfold queue_cap. cbn [maxCapacity array]. lia.
    + split; [done|]. split; [cbn; lia|]. split; [unfold queue_cap; cbn [array]; lia | reflexivity].
  - pose proof (chain_gap _ _ _ _ Hu Hne). pose proof (chain_le _ _ _ _ Hlo).
    destruct (Z.ltb_spec (tail q) (head q)); [|lia].
    exists (expanded_cells q up lo).
    pose proof (plug_bytes_length (head q - tail q) ltac:(lia)) as Hpl.
    assert (Hun : unwrapped
      (mkQueue (count q + 1) (maxCapacity q)
         (overlay (grown q c) (Z.to_nat (tail q)) (plug_bytes (head q - tail q)))
         0 (right q) (right q)) (expanded_cells q up lo)).
    { unfold unwrapped, queue_cap. cbn [count maxCapacity array head tail right].
      rewrite overlay_length by lia.
      split; [lia|]. split; [lia|]. split; [reflexivity|]. split; [|done].
      unfold expanded_cells. apply (chain_app _ _ (tail q)).
      - apply (chain_frame (array q)); [assumption|].
        intros o bs ? ? Hs. apply stored_overlay_other; [|lia|lia|lia].
        apply Hframe; [lia | assumption].
      - cbn [chain fst snd]. split; [reflexivity|].
        split; [apply plug_cell_ok; unfold queue_cap in *; lia|].
        split; [apply stored_overlay_same; lia|].
        rewrite Hpl. replace (tail q + (head q - tail q)) with (head q) by lia.
        apply (chain_frame (array q)); [assumption|].
        intros o bs ? ? Hs. apply stored_overlay_other; [|lia|lia|lia].
        apply Hframe; [lia | assumption]. }
    split; [|split; [exact Hun|]].
    + split.
      { cbn [count]. unfold expanded_cells. rewrite Hc, !length_app. cbn [length]. lia. }
      split; [|left; exact Hun].
      unfold queue_cap. cbn [maxCapacity array]. rewrite overlay_length by lia. lia.
    + split.
      { intros x Hx. unfold expanded_cells.
        apply elem_of_app in Hx as [Hx|Hx]; apply elem_of_app; [right; by right | by left]. }
      split; [reflexivity|]. split; [|reflexivity].
      unfold queue_cap. cbn [array]. rewrite overlay_length by lia. lia.
Qed.

(** ** Push *)

Lemma expand_capacity_room q m :
  0 <= m -> ~ (0 < maxCapacity q /\ maxCapacity q <= queue_cap q + m) ->
  queue_cap q + m <= expand_capacity q m.
Proof.
  unfold expand_capacity. set (c := queue_cap q).
  assert (0 <= c) by (unfold c, queue_cap; lia).
  intros Hm Hg. destruct (Z.ltb_spec c m);
    destruct (Z.ltb_spec 0 (maxCapacity q));
    cbn [andb]; try (match goal with |- context [?a <? ?b] => destruct (Z.ltb_spec a b) end);
    lia.
Qed.

Lemma push_expanding_inv q cs ce :
  queue_inv q cs ->
  ~ (0 < maxCapacity q /\ maxCapacity q <= queue_cap q + Size (Some ce)) ->
  exists q',
    push_expanding q ce = Some (q', Ok (right q)) /\
    queue_cap q <= queue_cap q' /\ maxCapacity q' = maxCapacity q /\
    right q + Size (Some ce) <= queue_cap q' /\
    (queue_cap q' < 2 ^ 32 ->
     exists cs', queue_inv q' (cs' ++ [(right q, encode ce)]) /\
                 forall x, x ∈ cs -> x ∈ cs').
Proof.
  intros Hinv Hg. pose proof (Size_ge ce) as Hge.
  pose proof (queue_inv_bounds _ _ Hinv) as (Ht & Hr & Hh & Htr & Hhr).
  pose proof (expand_capacity_room q (Size (Some ce)) ltac:(lia) Hg) as Hroom.
  unfold push_expanding. rewrite (expand_eq q cs) by assumption.
  set (c := expand_capacity q (Size (Some ce))) in *.
  destruct (Z.ltb_spec c (Size (Some ce))); [lia|].
  destruct (Z.leb_spec c 0); [lia|]. cbn [orb].
  assert (Htail : tail (expanded_queue q c) = right q).
  { unfold expanded_queue. destruct (Z.ltb_spec (tail q) (head q)); cbn [tail]; [reflexivity|].
    pose proof Hinv as (_ & _ & [(_ & _ & E & _) | (up & lo & _ & Hne & Hgap & _)]); [by symmetry | lia]. }
  assert (Hcap : queue_cap (expanded_queue q c) = c).
  { pose proof Hinv as (_ & Hm & _).
    pose proof (expand_capacity_ge q (Size (Some ce)) Hm ltac:(fold c; lia)) as Hcge. fold c in Hcge.
    pose proof (grown_length q c Hr Hcge) as Hgl.
    unfold expanded_queue. destruct (Z.ltb_spec (tail q) (head q)); unfold queue_cap; cbn [array].
    - rewrite overlay_length; [lia|]. rewrite Nat2Z.inj_le, Nat2Z.inj_add, Hgl.
      pose proof (plug_bytes_length (head q - tail q)).
      assert (tail q + 22 <= head q).
      { pose proof Hinv as (_ & _ & [(_ & _ & _ & Hch & _) | (up & lo & _ & _ & Hgap & _)]); [|lia].
        apply chain_le in Hch. lia. }
      lia.
    - exact Hgl. }
  assert (Hmax : maxCapacity (expanded_queue q c) = maxCapacity q).
  { unfold expanded_queue. destruct (tail q <? head q); reflexivity. }
  exists (stored_queue (expanded_queue q c) ce).
  rewrite push_store_eq by (rewrite ?Htail, ?Hcap; lia).
  rewrite Htail.
  rewrite stored_queue_cap by (rewrite ?Htail, ?Hcap; lia).
  rewrite Hcap. split; [reflexivity|]. split; [lia|]. split; [exact Hmax|]. split; [lia|].
  intros Hb.
  destruct (expand_inv q cs (Size (Some ce)) Hinv ltac:(fold c; lia) ltac:(fold c; lia))
    as (cs' & Hinv' & Hun' & Hsub & _).
  fold c in Hinv', Hun'. exists cs'. split; [|exact Hsub].
  rewrite <- Htail. apply push_store_unwrapped; [assumption | assumption | | lia].
  rewrite Htail, Hcap. lia.
Qed.

Lemma push_inv q cs ce :
  queue_inv q cs ->
  exists q' res,
    push q ce = Some (q', res) /\
    queue_cap q <= queue_cap q' /\ maxCapacity q' = maxCapacity q /\
    match res with
    | Err e => q' = q /\ e = ErrQueueFull /\
               0 < maxCapacity q <= queue_cap q + Size (Some ce)
    | Ok r => 0 <= r /\ r + Size (Some ce) <= queue_cap q' /\
              (queue_cap q' < 2 ^ 32 ->
               exists cs', queue_inv q' (cs' ++ [(r, encode ce)]) /\
                           forall x, x ∈ cs -> x ∈ cs')
    end.
Proof.
  intros Hinv. pose proof (Size_ge ce) as Hge.
  pose proof (queue_inv_bounds _ _ Hinv) as (Ht & Hr & Hh & Htr & Hhr).
  unfold push. fold (push_expanding q ce). change (Size None) with 22.
  pose proof Hinv as (_ & _ & [Hun | Hwr]).
  - pose proof Hun as (_ & Htc & Hrt & Hch & _). pose proof (chain_le _ _ _ _ Hch).
    destruct (Z.leb_spec (head q) (tail q)); [|lia].
    destruct (Z.ltb_spec (queue_cap q - tail q) (Size (Some ce))).
    + destruct (Z.leb_spec (Size (Some ce)) (head q - 22)).
      * exists (stored_queue (set_tail q 0) ce), (Ok 0).
        assert (queue_cap (set_tail q 0) = queue_cap q) as Hc0 by reflexivity.
        assert (tail (set_tail q 0) = 0) as Ht0 by reflexivity.
        rewrite push_store_eq by (rewrite ?Ht0, ?Hc0; lia).
        rewrite stored_queue_cap by (rewrite ?Ht0, ?Hc0; lia). rewrite Ht0.
        split; [reflexivity|]. split; [rewrite Hc0; lia|]. split; [reflexivity|].
        split; [lia|]. split; [rewrite Hc0; lia|].
        intros Hb. rewrite Hc0 in Hb. exists cs. split; [|done].
        apply push_store_wrap; [assumption | assumption | lia | lia].
      * destruct ((0 <? maxCapacity q) && (maxCapacity q <=? queue_cap q + Size (Some ce))) eqn:E.
        -- apply andb_prop in E as [E1 E2]. apply Z.ltb_lt in E1. apply Z.leb_le in E2.
           exists q, (Err ErrQueueFull). repeat split; try reflexivity; lia.
        -- assert (Hg : ~ (0 < maxCapacity q /\ maxCapacity q <= queue_cap q + Size (Some ce))).
           { intros [E1 E2]. apply Z.ltb_lt in E1. apply Z.leb_le in E2.
             rewrite E1, E2 in E. discriminate. }
           destruct (push_expanding_inv q cs ce Hinv Hg) as (q' & Heq & ? & ? & ? & Hpost).
           exists q', (Ok (right q)). rewrite Heq.
           split; [reflexivity|]. split; [assumption|]. split; [assumption|].
           split; [lia|]. split; assumption.
    + exists (stored_queue q ce), (Ok (tail q)).
      rewrite push_store_eq by lia. rewrite stored_queue_cap by lia.
      split; [reflexivity|]. split; [lia|]. split; [reflexivity|].
      split; [lia|]. split; [lia|].
      intros Hb. exists cs. split; [|done].
      apply push_store_unwrapped; [assumption | assumption | lia | lia].
  - pose proof Hwr as (up & lo & _ & Hne & Hgap & Hrc & Hu & Hlo).
    destruct (Z.leb_spec (head q) (tail q)); [lia|].
    destruct (Z.ltb_spec (head q - tail q - 22) (Size (Some ce))).
    + destruct ((0 <? maxCapacity q) && (maxCapacity q <=? queue_cap q + Size (Some ce))) eqn:E.
      * apply andb_prop in E as [E1 E2]. apply Z.ltb_lt in E1. apply Z.leb_le in E2.
        exists q, (Err ErrQueueFull). repeat split; try reflexivity; lia.
      * assert (Hg : ~ (0 < maxCapacity q /\ maxCapacity q <= queue_cap q + Size (Some ce))).
        { intros [E1 E2]. apply Z.ltb_lt in E1. apply Z.leb_le in E2.
          rewrite E1, E2 in E. discriminate. }
        destruct (push_expanding_inv q cs ce Hinv Hg) as (q' & Heq & ? & ? & ? & Hpost).
        exists q', (Ok (right q)). rewrite Heq.
        split; [reflexivity|]. split; [assumption|]. split; [assumption|].
        split; [lia|]. split; assumption.
    + exists (stored_queue q ce), (Ok (tail q)).
      rewrite push_store_eq by lia. rewrite stored_queue_cap by lia.
      split; [reflexivity|]. split; [lia|]. split; [reflexivity|].
      split; [lia|]. split; [lia|].
      intros Hb. exists cs. split; [|done].
      apply push_store_wrapped; [assumption | assumption | lia | lia].
Qed.

(** ** Traces of queue operations *)

Lemma run_op_inv q cs o :
  queue_inv q cs ->
  exists q' ev,
    run_op q o = Some (q', ev) /\
    queue_cap q <= queue_cap q' /\ maxCapacity q' = maxCapacity q /\
    (queue_cap q' < 2 ^ 32 ->
     exists cs', queue_inv q' cs' /\
       (forall x, x ∈ cs -> evicts x.1 ev = false -> x ∈ cs') /\
       (forall ce r, ev = EvPush ce (Ok r) -> (r, encode ce) ∈ cs')).
Proof.
  intros Hinv. destruct o as [ce| |m|]; cbn [run_op].
  - destruct (push_inv q cs ce Hinv) as (q' & res & -> & Hcap & Hmax & Hres).
    exists q', (EvPush ce res). cbn [mbind option_bind].
    split; [reflexivity|]. split; [assumption|]. split; [assumption|].
    intros Hb. destruct res as [r|e].
    + destruct Hres as (_ & _ & Hpost). destruct (Hpost Hb) as (cs' & Hinv' & Hsub).
      exists (cs' ++ [(r, encode ce)]). split; [assumption|]. split.
      * intros x Hx _. apply elem_of_app. left. by apply Hsub.
      * intros ce' r' [= <- <-]. apply elem_of_app. right. by left.
    + destruct Hres as (-> & _). exists cs. split; [assumption|]. split; [done|].
      intros ? ? [=].
  - destruct cs as [|c cs].
    + rewrite (pop_empty q Hinv). exists q, (EvPop (Err ErrQueueEmpty)).
      cbn [mbind option_bind]. split; [reflexivity|]. split; [lia|]. split; [reflexivity|].
      intros _. exists []. split; [assumption|]. split; [done|]. intros ? ? [=].
    + destruct (pop_inv q c cs Hinv) as (q' & -> & Hinv' & Harr & Hmax).
      exists q', (EvPop (Ok c.1)). cbn [mbind option_bind].
      split; [reflexivity|]. split; [unfold queue_cap; rewrite Harr; lia|].
      split; [assumption|]. intros _. exists cs. split; [assumption|]. split.
      * intros x Hx Hev. cbn [evicts] in Hev. apply Z.eqb_neq in Hev.
        apply elem_of_cons in Hx as [-> | Hx]; [by destruct Hev | assumption].
      * intros ? ? [=].
  - rewrite (expand_eq q cs m Hinv).
    set (c := expand_capacity q m).
    destruct ((c <? m) || (c <=? 0)) eqn:E.
    + exists q, (EvExpand m (Err ErrQueueEntryTooBig)). cbn [mbind option_bind].
      split; [reflexivity|]. split; [lia|]. split; [reflexivity|].
      intros _. exists cs. split; [assumption|]. split; [done|]. intros ? ? [=].
    + apply orb_false_elim in E as [_ E]. apply Z.leb_gt in E.
      exists (expanded_queue q c), (EvExpand m (Ok tt)). cbn [mbind option_bind].
      pose proof Hinv as (_ & Hm & _).
      pose proof (expand_capacity_ge q m Hm E) as Hge. fold c in Hge.
      pose proof (queue_inv_bounds _ _ Hinv) as (Ht & Hr & Hh & Htr & Hhr).
      assert (Hcap : queue_cap (expanded_queue q c) = c).
      { pose proof (grown_length q c Hr Hge) as Hgl.
        unfold expanded_queue.
        destruct (Z.ltb_spec (tail q) (head q)); unfold queue_cap; cbn [array]; [|exact Hgl].
        rewrite overlay_length; [lia|]. rewrite Nat2Z.inj_le, Nat2Z.inj_add, Hgl.
        pose proof (plug_bytes_length (head q - tail q)).
        assert (tail q + 22 <= head q).
        { pose proof Hinv as (_ & _ & [(_ & _ & _ & Hch & _) | (up & lo & _ & _ & Hgap & _)]); [|lia].
          apply chain_le in Hch. lia. }
        lia. }
      split; [reflexivity|]. rewrite Hcap. split; [assumption|].
      split; [unfold expanded_queue; destruct (tail q <? head q); reflexivity|].
      intros Hb.
      destruct (expand_inv q cs m Hinv E Hb) as (cs' & Hinv' & _ & Hsub & _).
      exists cs'. split; [assumption|]. split; [intros x Hx _; by apply Hsub|].
      intros ? ? [=].
  - exists (queue_reset q), EvReset. split; [reflexivity|].
    split; [reflexivity|]. split; [reflexivity|].
    intros _. exists []. split; [by apply (queue_inv_reset q cs)|].
    split; [intros x _ [=] | intros ? ? [=]].
Qed.


(** *** The capacity never shrinks *)

Lemma put_uint_length n buf a v b :
  put_uint n buf a v = Some b -> length b = length buf.
Proof.
  unfold put_uint. intros H.
  destruct (Z.ltb_spec a 0); [done|].
  destruct (Z.ltb_spec (len buf) a); [done|]. cbn [orb] in H.
  destruct (Nat.ltb_spec (length buf - Z.to_nat a) n); [done|].
  injection H as <-. apply overlay_length. rewrite le_encode_length. lia.
Qed.

Lemma copy_at_length buf a src b :
  copy_at buf a src = Some b -> length b = length buf.
Proof.
  unfold copy_at. intros H.
  destruct (Z.ltb_spec a 0); [done|].
  destruct (Z.ltb_spec (len buf) a); [done|]. cbn [orb] in H.
  injection H as <-. apply overlay_length. rewrite length_take. lia.
Qed.

Lemma qref_write_length r buf ce b :
  qref_write r buf ce = Some b -> length b = length buf.
Proof.
  unfold qref_write. intros H.
  repeat match type of H with
  | (?x ≫= _) = Some _ =>
      let E := fresh "E" in
      destruct x eqn:E; cbn [mbind option_bind] in H; [|done]
  end.
  apply copy_at_length in H. apply copy_at_length in E3.
  apply put_uint_length in E, E0, E1, E2. congruence.
Qed.

Lemma qref_plug_length r s buf b :
  qref_plug r s buf = Some b -> length b = length buf.
Proof.
  unfold qref_plug. intros H.
  destruct (put_uint 4 buf (r + offLen) _) as [b1|] eqn:E1; cbn [mbind option_bind] in H; [|done].
  apply put_uint_length in E1.
  unfold slice_range in H.
  destruct (Z.ltb_spec (r + sizeLen) 0); [done|].
  destruct (Z.ltb_spec s (r + sizeLen)); [done|].
  destruct (Z.ltb_spec (len b1) s); [done|].
  cbn [orb mbind option_bind] in H. injection H as <-.
  rewrite overlay_length; [assumption|].
  rewrite length_replicate, length_take, length_drop. lia.
Qed.

Lemma push_store_cap q ce q' res :
  push_store q ce = Some (q', res) ->
  queue_cap q' = queue_cap q /\ maxCapacity q' = maxCapacity q.
Proof.
  unfold push_store. intros H.
  destruct (qref_write (tail q) (array q) ce) as [a|] eqn:E; cbn [mbind option_bind] in H; [|done].
  apply qref_write_length in E. injection H as <- _.
  destruct q as [n m a0 h t r]. qsimpl.
  match goal with |- context [if ?c then _ else _] => destruct c end;
    cbn [array maxCapacity]; split; (reflexivity || lia).
Qed.

Lemma expand_cap q m q' res :
  cap_ok q -> expand q m = Some (q', res) ->
  queue_cap q <= queue_cap q' /\ maxCapacity q' = maxCapacity q /\ cap_ok q'.
Proof.
  unfold expand. intros Hok H. set (c := expand_capacity q m) in *.
  destruct (Z.ltb_spec c m);
    [cbn [orb] in H; injection H as <- _; split; [lia|]; by split|].
  destruct (Z.leb_spec c 0);
    [cbn [orb] in H; injection H as <- _; split; [lia|]; by split|].
  cbn [orb] in H.
  pose proof (expand_capacity_ge q m Hok ltac:(fold c; lia)) as Hge. fold c in Hge.
  assert (Hok' : maxCapacity q <= 0 \/ c <= maxCapacity q).
  { destruct (Z.le_gt_cases (maxCapacity q) 0); [by left|].
    right. apply expand_capacity_max. lia. }
  destruct q as [n mx a h t r]. unfold cap_ok in *. qsimpl.
  destruct (negb (r =? 0)).
  - destruct (slice_range a 0 r) as [src|]; cbn [mbind option_bind] in H; [|done].
    destruct (copy_at (replicate (Z.to_nat c) 0) 0 src) as [a1|] eqn:E1;
      cbn [mbind option_bind] in H; [|done].
    apply copy_at_length in E1. rewrite length_replicate in E1.
    destruct (t <? h).
    + destruct (qref_plug t h a1) as [a2|] eqn:E2; cbn [mbind option_bind] in H; [|done].
      apply qref_plug_length in E2. injection H as <- _. qsimpl. lia.
    + injection H as <- _. qsimpl. lia.
  - injection H as <- _. qsimpl. rewrite length_replicate. lia.
Qed.

Lemma push_cap q ce q' res :
  cap_ok q -> push q ce = Some (q', res) ->
  queue_cap q <= queue_cap q' /\ maxCapacity q' = maxCapacity q /\ cap_ok q'.
Proof.
  intros Hok H.
  assert (Hst : forall q0, queue_cap q <= queue_cap q0 -> maxCapacity q0 = maxCapacity q ->
                  cap_ok q0 -> push_store q0 ce = Some (q', res) ->
                  queue_cap q <= queue_cap q' /\ maxCapacity q' = maxCapacity q /\ cap_ok q').
  { intros q0 H1 H2 H3 H4. apply push_store_cap in H4 as [H5 H6].
    unfold cap_ok in *. rewrite H5, H6, H2. split; [lia|]. split; [reflexivity|].
    rewrite <- H2. assumption. }
  assert (Hex : push_expanding q ce = Some (q', res) ->
                  queue_cap q <= queue_cap q' /\ maxCapacity q' = maxCapacity q /\ cap_ok q').
  { unfold push_expanding. intros H'.
    destruct (expand q (Size (Some ce))) as [[q1 [u|e]]|] eqn:E; [| |done].
    - apply (expand_cap _ _ _ _ Hok) in E as (? & ? & ?). by apply (Hst q1).
    - injection H' as <- _. by apply (expand_cap _ _ _ _ Hok) in E. }
  assert (Hsame : Some (q, Err ErrQueueFull) = Some (q', res) ->
                  queue_cap q <= queue_cap q' /\ maxCapacity q' = maxCapacity q /\ cap_ok q').
  { intros [= <- _]. split; [lia|]. by split. }
  unfold push in H. fold (push_expanding q ce) in H.
  repeat match type of H with
  | (if ?c then _ else _) = _ => destruct c
  end; try (by apply Hsame); try (by apply Hex);
    (eapply Hst; [| | |exact H]; [apply Z.le_refl | reflexivity | exact Hok]).
Qed.

Lemma pop_cap q q' res :
  pop q = Some (q', res) -> array q' = array q /\ maxCapacity q' = maxCapacity q.
Proof.
  unfold pop. intros H. destruct (count q =? 0); [by injection H as <- _|].
  destruct (qref_valid (head q) (array q)) as [[]|]; cbn [mbind option_bind negb] in H;
    [|by injection H as <- _|done].
  destruct (qref_size (head q) (array q)) as [sz|]; cbn [mbind option_bind] in H; [|done].
  injection H as <- _. destruct q as [n m a h t r]. qsimpl.
  destruct (h + sz =? r); [destruct (t =? r)|]; split; reflexivity.
Qed.

Lemma run_op_cap q o q' ev :
  cap_ok q -> run_op q o = Some (q', ev) ->
  queue_cap q <= queue_cap q' /\ maxCapacity q' = maxCapacity q /\ cap_ok q'.
Proof.
  intros Hok H. destruct o as [ce| |m|]; cbn [run_op] in H.
  - destruct (push q ce) as [[q1 res]|] eqn:E; cbn [mbind option_bind] in H; [|done].
    injection H as <- _. by apply (push_cap _ _ _ _ Hok) in E.
  - destruct (pop q) as [[q1 res]|] eqn:E; cbn [mbind option_bind] in H; [|done].
    injection H as <- _. apply pop_cap in E as [E1 E2].
    unfold cap_ok, queue_cap in *. rewrite E1, E2. split; [lia|]. by split.
  - destruct (expand q m) as [[q1 res]|] eqn:E; cbn [mbind option_bind] in H; [|done].
    injection H as <- _. by apply (expand_cap _ _ _ _ Hok) in E.
  - injection H as <- _. unfold cap_ok, queue_reset, queue_cap in *. cbn.
    split; [lia|]. by split.
Qed.

Lemma run_ops_cap os : forall q q' evs,
  cap_ok q -> run_ops q os = Some (q', evs) ->
  queue_cap q <= queue_cap q' /\ maxCapacity q' = maxCapacity q /\ cap_ok q'.
Proof.
  induction os as [|o os IH]; intros q q' evs Hok H; cbn [run_ops] in H.
  - injection H as <- _. split; [lia|]. by split.
  - destruct (run_op q o) as [[q1 ev]|] eqn:E; cbn [mbind option_bind] in H; [|done].
    destruct (run_ops q1 os) as [[q2 evs']|] eqn:E'; cbn [mbind option_bind] in H; [|done].
    injection H as <- _.
    apply (run_op_cap _ _ _ _ Hok) in E as (? & ? & Hok1).
    apply (IH _ _ _ Hok1) in E' as (? & ? & ?). split; [lia|]. split; [congruence | assumption].
Qed.

Lemma run_ops_inv os : forall q cs q' evs,
  queue_inv q cs -> run_ops q os = Some (q', evs) -> queue_cap q' < 2 ^ 32 ->
  exists cs', queue_inv q' cs' /\
    forall x, x ∈ cs -> Forall (fun ev => evicts x.1 ev = false) evs -> x ∈ cs'.
Proof.
  induction os as [|o os IH]; intros q cs q' evs Hinv H Hb; cbn [run_ops] in H.
  - injection H as <- <-. exists cs. split; [assumption | done].
  - destruct (run_op q o) as [[q1 ev]|] eqn:E; cbn [mbind option_bind] in H; [|done].
    destruct (run_ops q1 os) as [[q2 evs']|] eqn:E'; cbn [mbind option_bind] in H; [|done].
    injection H as <- <-.
    destruct (run_op_inv q cs o Hinv) as (q1' & ev' & Hop & _ & _ & Hpost).
    rewrite E in Hop. injection Hop as <- <-.
    pose proof Hinv as (_ & Hok & _).
    apply (run_op_cap _ _ _ _ Hok) in E as (_ & _ & Hok1).
    pose proof (run_ops_cap _ _ _ _ Hok1 E') as (Hle & _).
    destruct (Hpost ltac:(lia)) as (cs1 & Hinv1 & Hsub1 & _).
    destruct (IH _ _ _ _ Hinv1 E' Hb) as (cs2 & Hinv2 & Hsub2).
    exists cs2. split; [assumption|].
    intros x Hx Hall. apply Forall_cons in Hall as [Hev Hall].
    apply Hsub2; [|assumption]. by apply Hsub1.
Qed.

(** Every state a fresh queue can reach satisfies the invariant. *)
Lemma reachable_inv initial maxCap os q evs :
  0 <= initial -> maxCap <= 0 \/ initial <= maxCap ->
  run_ops (newBytesQueue initial maxCap) os = Some (q, evs) ->
  queue_cap q < 2 ^ 32 ->
  exists cs, queue_inv q cs.
Proof.
  intros Hi Hm Hrun Hb.
  destruct (run_ops_inv os _ [] _ _ (queue_inv_new _ _ Hi Hm) Hrun Hb) as (cs & Hinv & _).
  by exists cs.
Qed.

Lemma cap_ok_new initial maxCap :
  0 <= initial -> maxCap <= 0 \/ initial <= maxCap ->
  cap_ok (newBytesQueue initial maxCap).
Proof.
  intros Hi Hm. unfold cap_ok, newBytesQueue, queue_cap. cbn.
  rewrite length_replicate. lia.
Qed.

(** ** The claims about the queue *)

(** C1.  An entry pushed at offset [r] is read back unchanged by [get r]
    after any further pushes, pops and expansions, for as long as no pop
    has returned [r] (and the queue was not reset).  The queue is any state
    a fresh queue reaches; buffers stay below 4 GiB, the range of the
    32-bit size field, and the entry is one of the data model (64-bit
    timestamp and hash, key of at most 65535 bytes). *)
Theorem get_after_push initial maxCap os1 q0 evs1 ce q1 r os2 q2 evs2 :
  0 <= initial -> maxCap <= 0 \/ initial <= maxCap ->
  entry_wf ce ->
  run_ops (newBytesQueue initial maxCap) os1 = Some (q0, evs1) ->
  push q0 ce = Some (q1, Ok r) ->
  run_ops q1 os2 = Some (q2, evs2) ->
  Forall (fun ev => evicts r ev = false) evs2 ->
  queue_cap q2 < 2 ^ 32 ->
  get q2 r = Some (Ok ce).
Proof.
  intros Hi Hm Hwf Hrun1 Hpush Hrun2 Hkeep Hb.
  pose proof (run_ops_cap os1 _ _ _ (cap_ok_new _ _ Hi Hm) Hrun1) as (_ & _ & Hok0).
  pose proof (push_cap _ _ _ _ Hok0 Hpush) as (Hle1 & _ & Hok1).
  pose proof (run_ops_cap os2 _ _ _ Hok1 Hrun2) as (Hle2 & _ & _).
  destruct (reachable_inv _ _ _ _ _ Hi Hm Hrun1 ltac:(lia)) as (cs0 & Hinv0).
  destruct (push_inv q0 cs0 ce Hinv0) as (q1' & res & Hpush' & _ & _ & Hres).
  rewrite Hpush in Hpush'. injection Hpush' as <- <-.
  destruct Hres as (Hr0 & Hroom & Hpost).
  destruct (Hpost ltac:(lia)) as (cs1 & Hinv1 & _).
  destruct (run_ops_inv os2 _ _ _ _ Hinv1 Hrun2 Hb) as (cs2 & Hinv2 & Hsub).
  assert (Hin : (r, encode ce) ∈ cs2).
  { apply Hsub; [|exact Hkeep]. apply elem_of_app. right. by left. }
  destruct (queue_inv_in _ _ _ Hinv2 Hin) as (Hok & Hst & _).
  unfold get. cbn [fst snd] in *.
  rewrite (stored_read _ _ _ Hst Hok), encode_cell_entry; [reflexivity | assumption | lia].
Qed.

Lemma get_after_push_witness :
  exists q2, run_ops (newBytesQueue 134 0)
               [OpPush (makeCacheBlob 97 70); OpPush (makeCacheBlob 98 10); OpPop;
                OpPush (makeCacheBlob 99 30); OpPush (makeCacheBlob 100 40)]
             = Some (q2, [EvPush (makeCacheBlob 97 70) (Ok 0);
                          EvPush (makeCacheBlob 98 10) (Ok 92);
                          EvPop (Ok 0);
                          EvPush (makeCacheBlob 99 30) (Ok 0);
                          EvPush (makeCacheBlob 100 40) (Ok 124)]) /\
             queue_cap q2 = 268 /\
             get q2 92 = Some (Ok (makeCacheBlob 98 10)).
Proof.
  eexists. split; [vm_compute; reflexivity|]. split; [vm_compute; reflexivity|].
  eapply (get_after_push 134 0 [OpPush (makeCacheBlob 97 70)] _ _
            (makeCacheBlob 98 10) _ 92
            [OpPop; OpPush (makeCacheBlob 99 30); OpPush (makeCacheBlob 100 40)]).
  - lia.
  - left. lia.
  - unfold entry_wf. cbn. lia.
  - vm_compute. reflexivity.
  - vm_compute. reflexivity.
  - vm_compute. reflexivity.
  - repeat constructor.
  - vm_compute. reflexivity.
Defined.

(** C9.  In every state a fresh queue reaches by push, pop, expand and
    reset (buffers below 4 GiB): a non-empty queue has [tail <> head];
    whenever [tail < head] (the wrapped state) at least a header-sized gap
    of 22 bytes separates them and the queue holds entries; and
    [tail = head] only happens for an empty, unwrapped queue. *)
Theorem count_pos_tail_ne_head initial maxCap os q evs :
  0 <= initial -> maxCap <= 0 \/ initial <= maxCap ->
  run_ops (newBytesQueue initial maxCap) os = Some (q, evs) ->
  queue_cap q < 2 ^ 32 ->
  (0 < count q -> tail q <> head q) /\
  (tail q < head q -> tail q + 22 <= head q /\ 0 < count q) /\
  (tail q = head q -> count q = 0).
Proof.
  intros Hi Hm Hrun Hb.
  destruct (reachable_inv _ _ _ _ _ Hi Hm Hrun Hb) as (cs & Hc & _ & Hshape).
  destruct Hshape as [(H0 & Ht & Hr & Hch & Hnil) | (up & lo & -> & Hne & Hg & Hr & Hu & Hlo)].
  - pose proof (chain_le _ _ _ _ Hch). pose proof (chain_nil_iff _ _ _ _ Hch) as Hiff.
    split; [|split].
    + intros Hpos E. assert (cs = []) as -> by (apply Hiff; lia). cbn in Hc. lia.
    + lia.
    + intros E. assert (cs = []) as -> by (apply Hiff; lia). exact Hc.
  - rewrite length_app in Hc. destruct up as [|c up]; [done|]. cbn [length] in Hc.
    split; [|split]; lia.
Qed.

Lemma count_pos_tail_ne_head_witness :
  exists q, run_ops (newBytesQueue 134 0)
              [OpPush (makeCacheBlob 97 70); OpPush (makeCacheBlob 98 10); OpPop;
               OpPush (makeCacheBlob 99 30)]
            = Some (q, [EvPush (makeCacheBlob 97 70) (Ok 0);
                        EvPush (makeCacheBlob 98 10) (Ok 92);
                        EvPop (Ok 0);
                        EvPush (makeCacheBlob 99 30) (Ok 0)]) /\
            (tail q = 52 /\ head q = 92 /\ count q = 2) /\
            ((0 < count q -> tail q <> head q) /\
             (tail q < head q -> tail q + 22 <= head q /\ 0 < count q) /\
             (tail q = head q -> count q = 0)).
Proof.
  eexists. split; [vm_compute; reflexivity|]. split; [vm_compute; auto|].
  eapply (count_pos_tail_ne_head 134 0
            [OpPush (makeCacheBlob 97 70); OpPush (makeCacheBlob 98 10); OpPop;
             OpPush (makeCacheBlob 99 30)]).
  - lia.
  - left. lia.
  - vm_compute. reflexivity.
  - vm_compute. reflexivity.
Defined.

(** C6.  With a hard cap set, pushing an entry whose size exceeds the cap
    onto any state a fresh queue reaches returns an error without faulting
    and leaves the queue (head, tail, right, count and bytes) as it was.
    The cap test precedes expansion and always fires for such an entry, so
    the error is [ErrQueueFull]; [ErrQueueEntryTooBig] is never reached on
    this path. *)
Theorem push_oversized initial maxCap os q evs ce :
  0 <= initial -> 0 < maxCap -> initial <= maxCap ->
  run_ops (newBytesQueue initial maxCap) os = Some (q, evs) ->
  queue_cap q < 2 ^ 32 ->
  maxCap < Size (Some ce) ->
  push q ce = Some (q, Err ErrQueueFull).
Proof.
  intros Hi Hpos Hm Hrun Hb Hbig.
  pose proof (run_ops_cap os _ _ _ (cap_ok_new _ _ Hi (or_intror Hm)) Hrun)
    as (_ & Hmax & Hok).
  change (maxCapacity (newBytesQueue initial maxCap)) with maxCap in Hmax.
  destruct (reachable_inv _ _ _ _ _ Hi (or_intror Hm) Hrun Hb) as (cs & Hinv).
  destruct (push_inv q cs ce Hinv) as (q' & res & Hpush & _ & Hmax' & Hres).
  destruct res as [r|e].
  - exfalso. destruct Hres as (Hr & Hroom & _).
    destruct (push_cap _ _ _ _ Hok Hpush) as (_ & _ & [Hc|Hc]); lia.
  - destruct Hres as (-> & -> & _). exact Hpush.
Qed.

Lemma push_oversized_witness :
  exists q, run_ops (newBytesQueue 47 79)
              [OpPush (makeCacheBlob 97 25); OpPush (makeCacheBlob 98 5)]
            = Some (q, [EvPush (makeCacheBlob 97 25) (Ok 0);
                        EvPush (makeCacheBlob 98 5) (Ok 47)]) /\
            queue_cap q = 79 /\
            push q (makeCacheBlob 99 58) = Some (q, Err ErrQueueFull).
Proof.
  eexists. split; [vm_compute; reflexivity|]. split; [vm_compute; reflexivity|].
  eapply (push_oversized 47 79
            [OpPush (makeCacheBlob 97 25); OpPush (makeCacheBlob 98 5)]).
  - lia.
  - lia.
  - lia.
  - vm_compute. reflexivity.
  - vm_compute. reflexivity.
  - vm_compute. reflexivity.
Defined.

(** C2, as the specification words it, fails: growing an 11-byte queue for
    a 122-byte entry allocates (11 + 122) * 2 = 266 bytes, not
    max(11, 122) * 2 = 244. *)
Lemma expand_capacity_counterexample :
  exists q', expand (newBytesQueue 11 0) 122 = Some (q', Ok tt) /\
             queue_cap q' = 266 /\
             spec_expand_capacity (newBytesQueue 11 0) 122 = 244.
Proof. eexists. split; [vm_compute; reflexivity|]. split; reflexivity. Qed.

(** C2, amended.  On any state a fresh queue reaches, [expand minimum] (for
    a positive minimum, as [push] passes) takes twice the current capacity
    when that capacity is at least the minimum and twice the sum of both
    otherwise, clamps the result to the hard cap when one is set, returns
    [ErrQueueEntryTooBig] exactly when the clamped capacity is below the
    minimum (leaving the queue as it was), and otherwise reallocates to
    exactly that capacity. *)
Theorem expand_policy initial maxCap os q evs minimum :
  0 <= initial -> maxCap <= 0 \/ initial <= maxCap ->
  run_ops (newBytesQueue initial maxCap) os = Some (q, evs) ->
  queue_cap q < 2 ^ 32 ->
  0 < minimum ->
  let grow := (if queue_cap q <? minimum then queue_cap q + minimum
               else queue_cap q) * 2 in
  let c := if (0 <? maxCapacity q) && (maxCapacity q <? grow)
           then maxCapacity q else grow in
  (c < minimum <-> expand q minimum = Some (q, Err ErrQueueEntryTooBig)) /\
  (minimum <= c ->
   exists q', expand q minimum = Some (q', Ok tt) /\ queue_cap q' = c).
Proof.
  intros Hi Hm Hrun Hb Hmin grow c.
  destruct (reachable_inv _ _ _ _ _ Hi Hm Hrun Hb) as (cs & Hinv).
  assert (Hc : expand_capacity q minimum = c) by reflexivity.
  pose proof (expand_eq q cs minimum Hinv) as Heq. cbv zeta in Heq.
  rewrite Hc in Heq.
  destruct (Z.ltb_spec c minimum) as [Hlt|Hge]; cbn [orb] in Heq.
  - split; [|lia]. split; [intros _; exact Heq | intros _; exact Hlt].
  - destruct (Z.leb_spec c 0) as [|Hpos]; [lia|].
    split.
    + split; [lia|]. rewrite Heq. intros [=].
    + intros _. exists (expanded_queue q c). split; [exact Heq|].
      pose proof Hinv as (_ & Hok & _).
      pose proof (expand_capacity_ge q minimum Hok ltac:(rewrite Hc; lia)) as Hcge.
      rewrite Hc in Hcge.
      pose proof (queue_inv_bounds _ _ Hinv) as (Ht & Hr & Hh & Htr & Hhr).
      pose proof (grown_length q c Hr Hcge) as Hgl.
      unfold expanded_queue.
      destruct (Z.ltb_spec (tail q) (head q)); unfold queue_cap; cbn [array]; [|exact Hgl].
      rewrite overlay_length; [lia|]. rewrite Nat2Z.inj_le, Nat2Z.inj_add, Hgl.
      pose proof (plug_bytes_length (head q - tail q)).
      assert (tail q + 22 <= head q).
      { pose proof Hinv as (_ & _ & [(_ & _ & _ & Hch & _) | (up & lo & _ & _ & Hgap & _)]); [|lia].
        apply chain_le in Hch. lia. }
      lia.
Qed.

Lemma expand_policy_witness :
  (266 < 122 <-> expand (newBytesQueue 11 0) 122
                 = Some (newBytesQueue 11 0, Err ErrQueueEntryTooBig)) /\
  (122 <= 266 ->
   exists q', expand (newBytesQueue 11 0) 122 = Some (q', Ok tt) /\
              queue_cap q' = 266).
Proof.
  apply (expand_policy 11 0 [] (newBytesQueue 11 0) [] 122).
  - lia.
  - left. lia.
  - reflexivity.
  - vm_compute. reflexivity.
  - lia.
Defined.

(** C4.  [valid] is not total: with a buffer of at least four bytes and a
    non-negative offset within the last three bytes (or past the end), the
    size read faults.  The guard compares the whole buffer's length with
    [sizeLen], not the bytes left at the offset. *)
Theorem qref_valid_faults_near_end :
  qref_valid 46 (replicate 48 0) = None /\ qref_valid 1 [0; 0; 0; 0] = None.
Proof. split; reflexivity. Qed.

Lemma qref_valid_faults r buf :
  0 <= r -> 4 <= len buf -> len buf < r + 4 -> qref_valid r buf = None.
Proof.
  intros Hr Hl Hend. unfold qref_valid, qref_size, slice_from, get_uint.
  change sizeLen with 4. change offLen with 0.
  destruct (Z.ltb_spec r 0); [lia|].
  destruct (Z.ltb_spec (len buf) 4); [lia|].
  destruct (Z.ltb_spec (r + 0) 0); [lia|].
  destruct (Z.ltb_spec (len buf) (r + 0)); [reflexivity|].
  cbn [orb mbind option_bind].
  destruct (Nat.ltb_spec (length (drop (Z.to_nat (r + 0)) buf)) 4) as [|Hge];
    [reflexivity|].
  rewrite length_drop in Hge. lia.
Qed.

(** Where four bytes are left at the offset, [valid] answers as the
    specification says. *)
Lemma qref_valid_in_range r buf :
  0 <= r -> r + 4 <= len buf ->
  let l := le_decode (take 4 (drop (Z.to_nat r) buf)) in
  qref_valid r buf = Some ((22 <=? l) || (l <=? len buf)).
Proof.
  intros Hr Hl l. unfold qref_valid, qref_size, slice_from, get_uint.
  change sizeLen with 4. change offLen with 0. change offKeyStr with 22.
  destruct (Z.ltb_spec r 0); [lia|].
  destruct (Z.ltb_spec (len buf) 4); [lia|].
  destruct (Z.ltb_spec (r + 0) 0); [lia|].
  destruct (Z.ltb_spec (len buf) (r + 0)); [lia|].
  cbn [orb mbind option_bind].
  destruct (Nat.ltb_spec (length (drop (Z.to_nat (r + 0)) buf)) 4) as [Hlt|_].
  { rewrite length_drop in Hlt. lia. }
  cbn [mbind option_bind]. rewrite Z.add_0_r. reflexivity.
Qed.

Lemma qref_valid_negative r buf : r < 0 -> qref_valid r buf = Some false.
Proof. intros H. unfold qref_valid. destruct (Z.ltb_spec r 0); [reflexivity | lia]. Qed.

(** ** Peeking at and tombstoning cells *)

Lemma queue_inv_head q c cs : queue_inv q (c :: cs) -> head q = c.1.
Proof.
  intros (_ & _ & [(_ & _ & _ & Hch & _) | (up & lo & E & Hne & _ & _ & Hu & _)]).
  - symmetry. apply Hch.
  - destruct up as [|c' up]; [done|]. injection E as <- _. symmetry. apply Hu.
Qed.

Lemma queue_inv_count q cs : queue_inv q cs -> count q = len cs.
Proof. by intros (? & _). Qed.

Lemma peek_inv q cs c : queue_inv q cs -> c ∈ cs -> peek q c.1 = Some (Ok tt).
Proof.
  intros Hinv Hin. destruct (queue_inv_in _ _ _ Hinv Hin) as (Hok & Hst & Hr).
  pose proof (queue_inv_count _ _ Hinv) as Hc.
  unfold peek. destruct (Z.eqb_spec (count q) 0) as [E|_].
  { destruct cs; [by apply elem_of_nil in Hin | cbn [length] in Hc; lia]. }
  rewrite (stored_valid _ _ _ Hst Hok). cbn [mbind option_bind negb orb].
  destruct (Z.ltb_spec (right q) c.1); [lia | reflexivity].
Qed.

Lemma oldest_inv q c cs : queue_inv q (c :: cs) -> oldest q = Some (Ok c.1).
Proof.
  intros Hinv. unfold oldest. rewrite (queue_inv_head _ _ _ Hinv).
  by rewrite (peek_inv q (c :: cs) c Hinv ltac:(left)).
Qed.

Lemma oldest_empty q : queue_inv q [] -> oldest q = Some (Err ErrQueueEmpty).
Proof. intros (Hc & _). unfold oldest, peek. rewrite Hc. reflexivity. Qed.

Lemma tomb_cells_length r cs : length (tomb_cells r cs) = length cs.
Proof. apply length_map. Qed.

Lemma tomb_cells_nil r cs : tomb_cells r cs = [] <-> cs = [].
Proof. unfold tomb_cells. destruct cs; cbn [map]; split; (reflexivity || discriminate). Qed.

Lemma tomb_cells_app r l1 l2 :
  tomb_cells r (l1 ++ l2) = tomb_cells r l1 ++ tomb_cells r l2.
Proof. apply map_app. Qed.

Lemma tomb_cells_in r cs c :
  c ∈ cs -> (if c.1 =? r then (c.1, tombstone c.2) else c) ∈ tomb_cells r cs.
Proof.
  intros Hin. unfold tomb_cells.
  apply (list_elem_of_fmap_2 (fun c : cell => if c.1 =? r then (c.1, tombstone c.2) else c)).
  exact Hin.
Qed.

(** Writing the eight zero bytes of [clearHash] at cell [r] turns a chain
    into the chain of the tombstoned cells, when [r] is a cell of the chain
    or lies outside it. *)
Lemma chain_tomb buf buf' r bs cs : forall a b,
  chain buf a b cs ->
  stored buf r bs -> cell_ok bs ->
  buf' = overlay buf (Z.to_nat r) (tombstone bs) ->
  r + len bs <= a \/ b <= r \/ (r, bs) ∈ cs ->
  chain buf' a b (tomb_cells r cs).
Proof.
  intros a b Hch Hst Hok ->.
  pose proof Hok as (Hl & _). pose proof Hst as (Hr0 & Hrb & _).
  assert (Htl : len (tombstone bs) = len bs) by (rewrite tombstone_length; lia).
  revert a Hch. induction cs as [|c cs IH]; intros a Hch Hpos; [exact Hch|].
  destruct Hch as (Ho & Hokc & Hstc & Hch).
  pose proof (chain_le _ _ _ _ Hch) as Hle. pose proof Hokc as (Hlc & _).
  cbn [tomb_cells map chain]. fold (tomb_cells r cs).
  destruct (Z.eqb_spec c.1 r) as [E|E]; cbn [fst snd].
  - (* the tombstoned cell itself *)
    assert (c.2 = bs) as Hbs.
    { apply (cells_same_offset buf r); [by rewrite <- E, Ho | assumption..]. }
    rewrite Hbs in *. split; [assumption|]. split; [by apply tombstone_cell_ok|].
    split.
    + rewrite <- Ho, E. apply stored_overlay_same; lia.
    + rewrite Htl. apply IH; [assumption|]. left. lia.
  - split; [assumption|]. split; [assumption|].
    assert (Hdis : r + len bs <= a \/ a + len c.2 <= r).
    { destruct Hpos as [?|[?|Hin]]; [lia | lia |].
      apply elem_of_cons in Hin as [Heq|Hin]; [by subst c|].
      destruct (chain_in _ _ _ _ _ Hch Hin) as (_ & _ & ? & _). cbn [fst] in *. lia. }
    split.
    + apply stored_overlay_other; [assumption | lia | lia | lia].
    + apply IH; [assumption|].
      destruct Hpos as [?|[?|Hin]]; [left; lia | right; left; lia |].
      apply elem_of_cons in Hin as [Heq|Hin]; [by subst c | by right; right].
Qed.

Lemma queue_delete_inv q cs r bs :
  queue_inv q cs -> (r, bs) ∈ cs ->
  queue_delete q r
  = Some (set_array q (overlay (array q) (Z.to_nat r) (tombstone bs)), Ok tt) /\
  queue_inv (set_array q (overlay (array q) (Z.to_nat r) (tombstone bs)))
            (tomb_cells r cs).
Proof.
  intros Hinv Hin.
  destruct (queue_inv_in _ _ _ Hinv Hin) as (Hok & Hst & Hr). cbn [fst snd] in *.
  pose proof Hok as (Hl & _). pose proof Hst as (Hr0 & Hrb & _).
  assert (Htl : len (tombstone bs) = len bs) by (rewrite tombstone_length; lia).
  split.
  - pose proof (peek_inv q cs _ Hinv Hin) as Hpeek. unfold peek in Hpeek.
    unfold queue_delete. cbn [fst] in Hpeek.
    destruct (count q =? 0); [done|].
    destruct (qref_valid r (array q)) as [v|]; cbn [mbind option_bind] in *; [|done].
    destruct (negb v || (right q <? r)); [done|].
    by rewrite (qref_clearHash_ok _ _ bs) by (assumption || lia).
  - destruct Hinv as (Hc & Hm & Hshape). unfold set_array.
    split; [cbn [count]; rewrite tomb_cells_length; exact Hc|].
    split; [unfold queue_cap in *; cbn [maxCapacity array]; rewrite overlay_length; lia|].
    destruct Hshape as [(H0 & Ht & Hrt & Hch & Hnil) | (up & lo & -> & Hne & Hg & Hrc & Hu & Hlo)].
    + left. unfold unwrapped, queue_cap in *. cbn [array head tail right].
      rewrite overlay_length by lia.
      split; [assumption|]. split; [assumption|]. split; [assumption|]. split.
      * apply (chain_tomb (array q) _ r bs); auto.
      * intros E. apply tomb_cells_nil in E. auto.
    + right. exists (tomb_cells r up), (tomb_cells r lo).
      unfold queue_cap in *. cbn [array head tail right]. rewrite overlay_length by lia.
      split; [apply tomb_cells_app|].
      split; [intros E; by apply tomb_cells_nil in E|].
      split; [assumption|]. split; [assumption|].
      pose proof (chain_le _ _ _ _ Hlo). pose proof (chain_le _ _ _ _ Hu).
      apply elem_of_app in Hin as [Hin|Hin].
      * destruct (chain_in _ _ _ _ _ Hu Hin) as (_ & _ & ? & ?). cbn [fst snd] in *.
        split; apply (chain_tomb (array q) _ r bs); auto. right. left. lia.
      * destruct (chain_in _ _ _ _ _ Hlo Hin) as (_ & _ & ? & ?). cbn [fst snd] in *.
        split; apply (chain_tomb (array q) _ r bs); auto. left. lia.
Qed.

(** ** Eviction *)

Ltac ssimpl :=
  unfold set_hashmap, set_entries, set_stats, call_onRemove,
    hit, miss, delhit, delmiss, collision, expired, nospace in *;
  cbn [hashmap entries onRemove removed lifeWindow stats
       Hits Misses DelHits DelMisses Collisions EvictedExpired EvictedNoSpace
       mbind option_bind] in *.

Lemma set_entries_same s : set_entries s (entries s) = s.
Proof. by destruct s. Qed.

Lemma evictOldest_nil s reason :
  queue_inv (entries s) [] -> evictOldest s reason = Some (s, Some ErrQueueEmpty).
Proof.
  intros Hinv. unfold evictOldest. rewrite (pop_empty _ Hinv).
  cbn [mbind option_bind]. by rewrite set_entries_same.
Qed.

Lemma evictOldest_cons s c cs reason :
  queue_inv (entries s) (c :: cs) -> reason = Expired \/ reason = NoSpace ->
  exists s',
    evictOldest s reason = Some (s', None) /\
    queue_inv (entries s') cs /\
    array (entries s') = array (entries s) /\
    maxCapacity (entries s') = maxCapacity (entries s) /\
    hashmap s' = evict_map c (hashmap s) /\
    removed s' = removed s ++ (if onRemove s then evict_event reason c else []) /\
    lifeWindow s' = lifeWindow s /\ onRemove s' = onRemove s.
Proof.
  intros Hinv Hreason.
  destruct (queue_inv_in _ _ c Hinv ltac:(left)) as (Hok & Hst & _).
  pose proof Hok as (Hl & _).
  destruct (pop_inv _ _ _ Hinv) as (q' & Hpop & Hinv' & Harr & Hmax).
  unfold evictOldest. rewrite Hpop. cbn [mbind option_bind].
  unfold getHash, get_ptr, get.
  destruct s as [m q cb log lw st]. ssimpl.
  rewrite Harr, (stored_hash _ _ _ Hst) by lia. cbn [mbind option_bind].
  unfold evict_map, evict_event.
  destruct (Z.eqb_spec (cell_hash c.2) 0) as [E|E].
  - eexists. split; [reflexivity|]. ssimpl.
    destruct cb; rewrite ?app_nil_r; auto 10.
  - destruct Hreason as [-> | ->]; ssimpl;
      (destruct cb;
       [ rewrite Harr, (stored_read _ _ _ Hst Hok); cbn [mbind option_bind];
         eexists; split; [reflexivity|]; ssimpl; auto 10
       | eexists; split; [reflexivity|]; ssimpl; rewrite ?app_nil_r; auto 10 ]).
Qed.

Lemma evict_map_in_ring m c cs :
  map_in_ring m (c :: cs) -> map_in_ring (evict_map c m) cs.
Proof.
  intros Hmap h r Hb. unfold evict_map in Hb.
  destruct (Z.eqb_spec (cell_hash c.2) 0) as [E|E].
  - destruct (Hmap _ _ Hb) as (Hh & bs & Hin & Hhash). split; [assumption|].
    exists bs. split; [|assumption].
    apply elem_of_cons in Hin as [Heq | Hin]; [subst c; cbn [snd] in E; congruence | assumption].
  - apply lookup_delete_Some in Hb as [Hne Hb].
    destruct (Hmap _ _ Hb) as (Hh & bs & Hin & Hhash). split; [assumption|].
    exists bs. split; [|assumption].
    apply elem_of_cons in Hin as [Heq | Hin]; [subst c; cbn [snd] in Hne; congruence | assumption].
Qed.

Lemma evict_map_sub m c h r : evict_map c m !! h = Some r -> m !! h = Some r.
Proof.
  unfold evict_map. destruct (cell_hash c.2 =? 0); [done|].
  intros Hb. by apply lookup_delete_Some in Hb as [_ ?].
Qed.

(** ** cleanUp *)

Lemma cleanUp_inv now : forall cs s,
  queue_inv (entries s) cs -> map_in_ring (hashmap s) cs ->
  exists s' cs',
    (forall fuel, (length cs < fuel)%nat -> cleanUp fuel s now = Returns s') /\
    queue_inv (entries s') cs' /\ map_in_ring (hashmap s') cs' /\
    (exists pre, cs = pre ++ cs') /\
    array (entries s') = array (entries s) /\
    lifeWindow s' = lifeWindow s /\
    match cs' with
    | [] => True
    | c :: _ => sub64 now (cell_ts c.2) <= lifeWindow s
    end.
Proof.
  induction cs as [|c cs IH]; intros s Hinv Hmap.
  - exists s, []. split.
    + intros [|fuel] Hf; [cbn in Hf; lia|]. cbn [cleanUp].
      by rewrite (oldest_empty _ Hinv).
    + split; [assumption|]. split; [assumption|]. split; [by exists []|]. auto.
  - destruct (queue_inv_in _ _ c Hinv ltac:(left)) as (Hok & Hst & _).
    pose proof Hok as (Hl & _).
    destruct (Z.leb_spec (sub64 now (cell_ts c.2)) (lifeWindow s)) as [Hin|Hout].
    + exists s, (c :: cs). split.
      * intros [|fuel] Hf; [cbn in Hf; lia|]. cbn [cleanUp].
        rewrite (oldest_inv _ _ _ Hinv). unfold getTS.
        rewrite (stored_ts _ _ _ Hst) by lia.
        destruct (Z.leb_spec (sub64 now (cell_ts c.2)) (lifeWindow s)); [reflexivity | lia].
      * split; [assumption|]. split; [assumption|]. split; [by exists []|]. auto.
    + destruct (evictOldest_cons s c cs Expired Hinv ltac:(by left))
        as (s1 & Hev & Hinv1 & Harr1 & _ & Hmap1 & _ & Hlw1 & _).
      assert (Hmir1 : map_in_ring (hashmap s1) cs).
      { rewrite Hmap1. by apply evict_map_in_ring. }
      destruct (IH s1 Hinv1 Hmir1) as (s' & cs' & Hrun & Hinv' & Hmap' & [pre Hpre] & Harr' & Hlw' & Hhead).
      exists s', cs'. split.
      * intros [|fuel] Hf; [cbn in Hf; lia|]. cbn [cleanUp].
        rewrite (oldest_inv _ _ _ Hinv). unfold getTS.
        rewrite (stored_ts _ _ _ Hst) by lia.
        destruct (Z.leb_spec (sub64 now (cell_ts c.2)) (lifeWindow s)); [lia|].
        rewrite Hev. apply Hrun. cbn [length] in Hf. lia.
      * split; [assumption|]. split; [assumption|].
        split; [exists (c :: pre); by rewrite Hpre|].
        split; [congruence|]. split; [congruence|].
        rewrite <- Hlw1. exact Hhead.
Qed.

(** ** Timestamps of stored cells *)






(** ** The example shard *)

Lemma example_shard_reached :
  run_shard 10 (initNewShard 200 0 true 10)
    [SSet 0 [107] 1 [1]; SSet 8 [108] 2 [2]] = Returns example_shard.
Proof. vm_compute. reflexivity. Qed.

Lemma example_shard_inv : queue_inv (entries example_shard) example_cells.
Proof.
  split; [reflexivity|]. split; [left; cbn; lia|]. left.
  split; [cbn; lia|]. split; [vm_compute; discriminate|]. split; [reflexivity|].
  split; [|discriminate].
  cbn [chain example_cells fst snd].
  repeat split; try (vm_compute; first [reflexivity | discriminate]).
Qed.

Lemma example_shard_map : map_in_ring (hashmap example_shard) example_cells.
Proof.
  intros h r Hb. cbn [hashmap example_shard] in Hb.
  apply lookup_insert_Some in Hb as [[<- <-] | [_ Hb]].
  { split; [lia|]. exists (encode example_entry2).
    split; [right; left | vm_compute; reflexivity]. }
  apply lookup_insert_Some in Hb as [[<- <-] | [_ Hb]].
  { split; [lia|]. exists (encode example_entry1).
    split; [left | vm_compute; reflexivity]. }
  by rewrite lookup_empty in Hb.
Qed.




(** ** Reading and deleting *)






(** On the example shard: the entry under hash 1 has key "k"; asking for it
    with key "l" is a collision, asking by hash alone returns its payload. *)
Lemma get_collision_example :
  getKey (entries example_shard) 0 = Some [107] /\
  getWithoutLock example_shard [108] 1 None
  = Some (collision example_shard, Err ErrEntryNotFound) /\
  getWithoutLock example_shard [] 1 None = Some (hit example_shard, Ok [1]).
Proof. repeat split; vm_compute; reflexivity. Qed.

(** The hash-only spelling of the controller passes the empty key. *)
Lemma GetHashed_skips_collision_check c hashedKey i s ref payload :
  getShard c hashedKey = Some (i, s) ->
  hashmap s !! hashedKey = Some ref ->
  peek (entries s) ref = Some (Ok tt) ->
  getDataCopy (entries s) ref = Some payload ->
  GetHashed c hashedKey = Some (put_shard c i (hit s), Ok payload).
Proof.
  intros Hs Hb Hpeek Hdata. unfold GetHashed. rewrite Hs. cbn [mbind option_bind].
  unfold getWithoutLock. rewrite Hb, Hpeek. cbn [length].
  cbn [Z.of_nat Z.ltb Z.compare mbind option_bind].
  change (entries (hit s)) with (entries s). by rewrite Hdata.
Qed.

(** ** The first step of set *)

Lemma clearHash_reads_zero r buf buf' :
  qref_clearHash r buf = Some buf' -> qref_hash r buf' = Some 0.
Proof.
  unfold qref_clearHash, put_uint, qref_hash, slice_from, get_uint. intros H.
  pose proof (le_encode_length 8 0) as Hz.
  pose proof (le_decode_encode 8 0) as Hd.
  set (z := le_encode 8 0) in *.
  destruct (Z.ltb_spec (r + offHash) 0); [done|].
  destruct (Z.ltb_spec (len buf) (r + offHash)); [done|]. cbn [orb] in H.
  destruct (Nat.ltb_spec (length buf - Z.to_nat (r + offHash)) 8); [done|].
  injection H as <-.
  rewrite overlay_length by lia.
  destruct (Z.ltb_spec (len buf) (r + offHash)); [lia|].
  cbn [orb mbind option_bind].
  rewrite length_drop, overlay_length by lia.
  destruct (Nat.ltb_spec (length buf - Z.to_nat (r + offHash)) 8); [lia|].
  pose proof (read_overlay_same buf (Z.to_nat (r + offHash)) z ltac:(lia)) as E.
  rewrite Hz in E. rewrite E, Hd. reflexivity.
Qed.

Lemma queue_delete_ok q r q' :
  queue_delete q r = Some (q', Ok tt) ->
  getHash q' r = Some 0 /\ count q' = count q /\ head q' = head q /\
  tail q' = tail q /\ right q' = right q.
Proof.
  unfold queue_delete. intros H.
  destruct (count q =? 0); [done|].
  destruct (qref_valid r (array q)) as [v|]; cbn [mbind option_bind] in H; [|done].
  destruct (negb v || (right q <? r)); [done|].
  destruct (qref_clearHash r (array q)) as [a|] eqn:E; cbn [mbind option_bind] in H; [|done].
  injection H as <-. unfold getHash. cbn. split; [|done].
  by apply (clearHash_reads_zero r (array q)).
Qed.

Lemma queue_delete_err q r q' e : queue_delete q r = Some (q', Err e) -> q' = q.
Proof.
  unfold queue_delete. intros H.
  destruct (count q =? 0); [by injection H as <- _|].
  destruct (qref_valid r (array q)) as [v|]; cbn [mbind option_bind] in H; [|done].
  destruct (negb v || (right q <? r)); [by injection H as <- _|].
  destruct (qref_clearHash r (array q)) as [a|]; cbn [mbind option_bind] in H; done.
Qed.

(** C3, as stated, fails.  An entry set under hash 0 looks like a tombstone,
    so its eviction leaves the binding [0 -> 0] behind; on the next set for
    hash 0 the queue-level delete of that qref fails (the queue is empty)
    and the binding is kept, by the first step and, the new entry being too
    big for the shard, by the whole set. *)
Lemma set_failed_delete_counterexample :
  exists s s' s'' e,
    run_shard 10 (initNewShard 47 79 true 10) [SSet 0 [] 0 [1]; SCleanUp 100]
    = Returns s /\
    hashmap s !! 0 = Some 0 /\
    queue_delete (entries s) 0 = Some (entries s, Err ErrQueueEmpty) /\
    set_displace s 0 = Some s' /\ hashmap s' !! 0 = Some 0 /\
    setWithoutLock 10 s 101 [] 0 (replicate 100 7) = Returns (s'', Some e) /\
    hashmap s'' !! 0 = Some 0.
Proof.
  do 4 eexists. split; [vm_compute; reflexivity|].
  repeat split; vm_compute; reflexivity.
Qed.

(** C3, amended.  When the map already binds the hash, the first step of
    set tombstones the old entry in the ring (its hash field reads 0, the
    offsets and the count stay) and removes the binding if the queue-level
    delete of the old qref succeeds; if that delete fails, ring and map are
    left as they were, binding included. *)
Theorem set_displace_spec s hash prev :
  hashmap s !! hash = Some prev ->
  (forall q', queue_delete (entries s) prev = Some (q', Ok tt) ->
     exists s1, set_displace s hash = Some s1 /\
                hashmap s1 !! hash = None /\ entries s1 = q' /\
                getHash (entries s1) prev = Some 0 /\
                count (entries s1) = count (entries s)) /\
  (forall q' e, queue_delete (entries s) prev = Some (q', Err e) ->
     set_displace s hash = Some s /\ hashmap s !! hash = Some prev) /\
  (forall fuel current key entry,
     setWithoutLock fuel s current key hash entry =
     match set_displace s hash with
     | None => Faults
     | Some s1 =>
         match set_expire s1 current with
         | None => Faults
         | Some s2 => set_loop fuel s2 hash (mkEntry current hash key entry)
         end
     end).
Proof.
  intros Hb. split; [|split].
  - intros q' Hdel. unfold set_displace. rewrite Hb, Hdel. cbn [mbind option_bind].
    eexists. split; [reflexivity|]. ssimpl.
    destruct (queue_delete_ok _ _ _ Hdel) as (Hh & Hc & _).
    split; [apply lookup_delete_eq|]. by repeat split.
  - intros q' e Hdel. unfold set_displace. rewrite Hb, Hdel. cbn [mbind option_bind].
    apply queue_delete_err in Hdel as ->. by rewrite set_entries_same.
  - reflexivity.
Qed.

Lemma set_displace_spec_witness :
  (forall q', queue_delete (entries example_shard) 0 = Some (q', Ok tt) ->
     exists s1, set_displace example_shard 1 = Some s1 /\
                hashmap s1 !! 1 = None /\ entries s1 = q' /\
                getHash (entries s1) 0 = Some 0 /\
                count (entries s1) = count (entries example_shard)) /\
  (forall q' e, queue_delete (entries example_shard) 0 = Some (q', Err e) ->
     set_displace example_shard 1 = Some example_shard /\
     hashmap example_shard !! 1 = Some 0) /\
  (forall fuel current key entry,
     setWithoutLock fuel example_shard current key 1 entry =
     match set_displace example_shard 1 with
     | None => Faults
     | Some s1 =>
         match set_expire s1 current with
         | None => Faults
         | Some s2 => set_loop fuel s2 1 (mkEntry current 1 key entry)
         end
     end).
Proof.
  apply (set_displace_spec example_shard 1 0).
  vm_compute. reflexivity.
Defined.

(** ** set *)

Lemma map_in_ring_nil m : map_in_ring m [] -> m = ∅.
Proof.
  intros H. apply map_empty. intros h.
  destruct (m !! h) as [r|] eqn:E; [|reflexivity].
  destruct (H _ _ E) as (_ & bs & Hin & _). by apply elem_of_nil in Hin.
Qed.

Lemma set_displace_inv s cs hash :
  queue_inv (entries s) cs -> map_in_ring (hashmap s) cs ->
  exists s1,
    set_displace s hash = Some s1 /\
    queue_inv (entries s1) (displaced_cells s cs hash) /\
    map_in_ring (hashmap s1) (displaced_cells s cs hash) /\
    removed s1 = removed s /\ lifeWindow s1 = lifeWindow s /\
    onRemove s1 = onRemove s.
Proof.
  intros Hinv Hmap. unfold set_displace, displaced_cells.
  destruct (hashmap s !! hash) as [prev|] eqn:Hb.
  - destruct (Hmap _ _ Hb) as (Hh & bs & Hin & Hhash).
    destruct (queue_delete_inv _ _ _ _ Hinv Hin) as (Hdel & Hinv1).
    rewrite Hdel. cbn [mbind option_bind].
    eexists. split; [reflexivity|]. ssimpl. split; [exact Hinv1|].
    split; [|by repeat split].
    intros h' r' Hb'. apply lookup_delete_Some in Hb' as [Hne Hb'].
    destruct (Hmap _ _ Hb') as (Hh' & bs' & Hin' & Hhash'). split; [assumption|].
    exists bs'. split; [|assumption].
    pose proof (tomb_cells_in prev cs _ Hin') as Ht. cbn [fst snd] in Ht.
    destruct (Z.eqb_spec r' prev) as [->|_]; [|exact Ht].
    destruct (queue_inv_in _ _ _ Hinv Hin) as (Hok & Hst & _).
    destruct (queue_inv_in _ _ _ Hinv Hin') as (Hok' & Hst' & _).
    cbn [fst snd] in *.
    pose proof (cells_same_offset _ _ _ _ Hst Hok Hst' Hok'). congruence.
  - exists s. split; [reflexivity|]. split; [assumption|]. split; [assumption|].
    by repeat split.
Qed.

Lemma set_expire_inv s cs current :
  queue_inv (entries s) cs -> map_in_ring (hashmap s) cs ->
  exists s1 cs1,
    set_expire s current = Some s1 /\
    queue_inv (entries s1) cs1 /\ map_in_ring (hashmap s1) cs1 /\
    (length cs1 <= length cs)%nat /\
    lifeWindow s1 = lifeWindow s /\ onRemove s1 = onRemove s /\
    removed s1 ++ (if onRemove s then flat_map (evict_event NoSpace) cs1 else [])
    = removed s ++
      (if onRemove s then
         match cs with
         | [] => []
         | c :: rest =>
             evict_event (if lifeWindow s <? sub64 current (cell_ts c.2)
                          then Expired else NoSpace) c ++
             flat_map (evict_event NoSpace) rest
         end
       else []).
Proof.
  intros Hinv Hmap. unfold set_expire.
  destruct cs as [|c cs].
  - rewrite (oldest_empty _ Hinv). exists s, [].
    split; [reflexivity|]. split; [assumption|]. split; [assumption|]. by repeat split.
  - destruct (queue_inv_in _ _ c Hinv ltac:(left)) as (Hok & Hst & _).
    pose proof Hok as (Hl & _).
    rewrite (oldest_inv _ _ _ Hinv). unfold getTS.
    rewrite (stored_ts _ _ _ Hst) by lia. cbn [mbind option_bind].
    destruct (lifeWindow s <? sub64 current (cell_ts c.2)).
    + destruct (evictOldest_cons s c cs Expired Hinv ltac:(by left))
        as (s1 & Hev & Hinv1 & _ & _ & Hmap1 & Hrem & Hlw1 & Hcb).
      rewrite Hev. cbn [mbind option_bind]. exists s1, cs.
      split; [reflexivity|]. split; [assumption|].
      split; [rewrite Hmap1; by apply evict_map_in_ring|].
      split; [cbn [length]; lia|]. split; [assumption|]. split; [assumption|].
      rewrite Hrem. destruct (onRemove s); by rewrite <- ?app_assoc, ?app_nil_r.
    + exists s, (c :: cs). split; [reflexivity|]. split; [assumption|].
      split; [assumption|]. split; [lia|]. by repeat split.
Qed.




Lemma example_full_shard_reached :
  run_shard 10 (initNewShard 47 79 true 10) [SSet 0 [] 1 (replicate 25 1)]
  = Returns example_full_shard.
Proof. vm_compute. reflexivity. Qed.

Lemma example_full_shard_inv :
  queue_inv (entries example_full_shard) example_full_cells.
Proof.
  split; [reflexivity|]. split; [right; vm_compute; discriminate|]. left.
  split; [cbn; lia|]. split; [vm_compute; discriminate|]. split; [reflexivity|].
  split; [|discriminate].
  cbn [chain example_full_cells fst snd].
  repeat split; try (vm_compute; first [reflexivity | discriminate]).
Qed.

Lemma example_full_shard_map :
  map_in_ring (hashmap example_full_shard) example_full_cells.
Proof.
  intros h r Hb. cbn [hashmap example_full_shard] in Hb.
  apply lookup_insert_Some in Hb as [[<- <-] | [_ Hb]].
  { split; [lia|]. eexists. split; [left | vm_compute; reflexivity]. }
  by rewrite lookup_empty in Hb.
Qed.


(** On the example the set does fail, and the one resident entry goes with
    reason [Expired]. *)
Lemma set_failure_example :
  exists s',
    setWithoutLock 2 example_full_shard 100 [] 2 (replicate 100 7)
    = Returns (s', Some (ErrBiggerThanShard ErrQueueEmpty)) /\
    set_failure_events example_full_shard example_full_cells 100 2
    = [(Some (mkEntry 0 1 [] (replicate 25 1)), Expired)].
Proof. eexists. split; vm_compute; reflexivity. Qed.

(** * Further properties of the code *)

(** ** entry.go: writing, reading and plugging *)

Lemma put_uint_some n buf a v b :
  put_uint n buf a v = Some b -> 0 <= a /\ a + Z.of_nat n <= len buf.
Proof.
  unfold put_uint. intros H.
  destruct (Z.ltb_spec a 0); [done|].
  destruct (Z.ltb_spec (len buf) a); [done|]. cbn [orb] in H.
  destruct (Nat.ltb_spec (length buf - Z.to_nat a) n); [done|]. lia.
Qed.

Lemma copy_at_some buf a src b :
  copy_at buf a src = Some b -> 0 <= a /\ a <= len buf.
Proof.
  unfold copy_at. intros H.
  destruct (Z.ltb_spec a 0); [done|].
  destruct (Z.ltb_spec (len buf) a); [done|]. lia.
Qed.

Lemma put_uint_is_some n buf a v :
  0 <= a -> a + Z.of_nat n <= len buf ->
  exists b, put_uint n buf a v = Some b /\ length b = length buf.
Proof.
  intros H1 H2. rewrite put_uint_ok by assumption. eexists. split; [reflexivity|].
  apply overlay_length. rewrite le_encode_length. lia.
Qed.

Lemma copy_at_is_some buf a src :
  0 <= a -> a <= len buf ->
  exists b, copy_at buf a src = Some b /\ length b = length buf.
Proof.
  intros H1 H2. unfold copy_at.
  destruct (Z.ltb_spec a 0); [lia|].
  destruct (Z.ltb_spec (len buf) a); [lia|]. cbn [orb].
  eexists. split; [reflexivity|].
  apply overlay_length. rewrite length_take. lia.
Qed.

(** X1.  Writing an entry of the data model into a buffer (below 4 GiB)
    that has room for it at [r] and reading it back at [r] gives the entry
    again; the write keeps the buffer's length and touches no byte outside
    the [Size] bytes from [r] on. *)
Theorem write_read_roundtrip r buf ce :
  entry_wf ce -> 0 <= r -> r + Size (Some ce) <= len buf -> len buf < 2 ^ 32 ->
  exists buf',
    qref_write r buf ce = Some buf' /\ length buf' = length buf /\
    qref_read r buf' = Some (Ok ce) /\
    take (Z.to_nat r) buf' = take (Z.to_nat r) buf /\
    drop (Z.to_nat (r + Size (Some ce))) buf'
    = drop (Z.to_nat (r + Size (Some ce))) buf.
Proof.
  intros Hwf Hr Hfit Hcap.
  pose proof (Size_ge ce) as Hge. pose proof (encode_length ce) as Hlen.
  exists (overlay buf (Z.to_nat r) (encode ce)).
  split; [by apply qref_write_ok|].
  split; [apply overlay_length; lia|].
  split.
  - assert (Hent : cell_entry (encode ce) = ce) by (apply encode_cell_entry; [assumption|lia]).
    rewrite <- Hent at 2.
    apply stored_read; [apply stored_overlay_same; lia | apply encode_cell_ok; lia].
  - unfold overlay. split.
    + rewrite take_app_le by (rewrite length_take; lia).
      rewrite take_take. f_equal. lia.
    + rewrite app_assoc, drop_app_length'; [f_equal; lia|].
      rewrite length_app, length_take. lia.
Qed.

Lemma write_read_roundtrip_witness :
  exists buf',
    qref_write 3 (replicate 40 9) (mkEntry 7 5 [107; 101] [1; 2; 3]) = Some buf' /\
    length buf' = length (replicate 40 9) /\
    qref_read 3 buf' = Some (Ok (mkEntry 7 5 [107; 101] [1; 2; 3])) /\
    take (Z.to_nat 3) buf' = take (Z.to_nat 3) (replicate 40 9) /\
    drop (Z.to_nat (3 + Size (Some (mkEntry 7 5 [107; 101] [1; 2; 3])))) buf'
    = drop (Z.to_nat (3 + Size (Some (mkEntry 7 5 [107; 101] [1; 2; 3]))))
        (replicate 40 9).
Proof.
  apply (write_read_roundtrip 3 (replicate 40 9) (mkEntry 7 5 [107; 101] [1; 2; 3])).
  - unfold entry_wf. cbn. lia.
  - lia.
  - vm_compute. discriminate.
  - vm_compute. reflexivity.
Defined.

(** X2.  [write] faults exactly when the offset is negative or the header
    and the key do not fit in the buffer.  When only the payload does not
    fit, [copy] cuts it short and the write returns. *)
Theorem write_faults_iff r buf ce :
  qref_write r buf ce = None <->
  r < 0 \/ len buf < r + offKeyStr + len (Key ce).
Proof.
  change offKeyStr with 22. split.
  - intros Hnone.
    destruct (Z.ltb_spec r 0) as [|Hr]; [by left|]. right.
    destruct (Z.ltb_spec (len buf) (r + 22 + len (Key ce))) as [|Hfit]; [assumption|].
    exfalso. revert Hnone. unfold qref_write.
    change offLen with 0. change offTS with 4. change offHash with 12.
    change offKeyLen with 20. change offKeyStr with 22.
    destruct (put_uint_is_some 4 buf (r + 0) (Size (Some ce) mod 2 ^ 32))
      as (b1 & -> & L1); [lia..|]. cbn [mbind option_bind].
    destruct (put_uint_is_some 8 b1 (r + 4) (TS ce))
      as (b2 & -> & L2); [lia..|]. cbn [mbind option_bind].
    destruct (put_uint_is_some 8 b2 (r + 12) (Hash ce))
      as (b3 & -> & L3); [lia..|]. cbn [mbind option_bind].
    destruct (put_uint_is_some 2 b3 (r + 20) (len (Key ce) mod 2 ^ 16))
      as (b4 & -> & L4); [lia..|]. cbn [mbind option_bind].
    destruct (copy_at_is_some b4 (r + 22) (Key ce))
      as (b5 & -> & L5); [lia..|]. cbn [mbind option_bind].
    destruct (copy_at_is_some b5 (r + 22 + len (Key ce)) (Data ce))
      as (b6 & -> & L6); [lia..|]. discriminate.
  - intros Hbad. destruct (qref_write r buf ce) as [b|] eqn:Hw; [exfalso|reflexivity].
    revert Hw. unfold qref_write.
    change offLen with 0. change offTS with 4. change offHash with 12.
    change offKeyLen with 20. change offKeyStr with 22.
    destruct (put_uint 4 buf (r + 0) _) as [b1|] eqn:E1; [|done].
    cbn [mbind option_bind].
    destruct (put_uint 8 b1 (r + 4) _) as [b2|] eqn:E2; [|done].
    cbn [mbind option_bind].
    destruct (put_uint 8 b2 (r + 12) _) as [b3|] eqn:E3; [|done].
    cbn [mbind option_bind].
    destruct (put_uint 2 b3 (r + 20) _) as [b4|] eqn:E4; [|done].
    cbn [mbind option_bind].
    destruct (copy_at b4 (r + 22) _) as [b5|] eqn:E5; [|done].
    cbn [mbind option_bind]. intros E6.
    pose proof (put_uint_some _ _ _ _ _ E1).
    pose proof (put_uint_length _ _ _ _ _ E1).
    pose proof (put_uint_length _ _ _ _ _ E2).
    pose proof (put_uint_length _ _ _ _ _ E3).
    pose proof (put_uint_length _ _ _ _ _ E4).
    pose proof (copy_at_length _ _ _ _ E5).
    pose proof (copy_at_some _ _ _ _ E6). lia.
Qed.

(** The payload that does not fit is cut short without a fault: a 30-byte
    buffer takes the header of an entry of 22 + 20 bytes. *)
Lemma write_truncates_payload :
  exists buf',
    qref_write 0 (replicate 30 0) (mkEntry 1 2 [] (replicate 20 7)) = Some buf' /\
    length buf' = 30%nat /\ qref_size 0 buf' = Some 42.
Proof. eexists. split; [vm_compute; reflexivity|]. split; vm_compute; reflexivity. Qed.

Lemma plug_cell_entry n :
  22 <= n -> n < 2 ^ 32 ->
  cell_entry (plug_bytes n) = mkEntry 0 0 [] (replicate (Z.to_nat (n - 22)) 0).
Proof.
  intros H1 H2.
  assert (Hsz : cell_size (plug_bytes n) = n).
  { pose proof (plug_cell_ok n H1 H2) as (_ & Hs & _).
    by rewrite plug_bytes_length in Hs by lia. }
  assert (Hk : cell_klen (plug_bytes n) = 0).
  { unfold cell_klen, plug_bytes.
    rewrite drop_app_ge by (rewrite le_encode_length; lia).
    by rewrite drop_replicate, take_replicate, le_decode_zeros. }
  unfold cell_entry, cell_key, cell_data. rewrite Hsz, Hk, plug_cell_hash.
  f_equal.
  - unfold cell_ts, plug_bytes.
    rewrite drop_app_ge by (rewrite le_encode_length; lia).
    by rewrite drop_replicate, take_replicate, le_decode_zeros.
  - unfold plug_bytes.
    rewrite drop_app_ge by (rewrite le_encode_length; lia).
    rewrite drop_replicate, take_replicate, le_encode_length. f_equal. lia.
Qed.

(** X3.  Plugging the gap from [r] to [s] (at least a header wide, in a
    buffer below 4 GiB) leaves at [r] an entry that reads back as an empty
    one, with timestamp 0, hash 0 (the tombstone mark), no key and a payload
    of zeroes, whose size field is the width of the gap. *)
Theorem plug_reads_as_empty_entry r s buf :
  0 <= r -> r + 22 <= s -> s <= len buf -> len buf < 2 ^ 32 ->
  exists buf',
    qref_plug r s buf = Some buf' /\ length buf' = length buf /\
    qref_size r buf' = Some (s - r) /\
    qref_read r buf'
    = Some (Ok (mkEntry 0 0 [] (replicate (Z.to_nat (s - r - 22)) 0))).
Proof.
  intros Hr Hs Hb Hcap.
  exists (overlay buf (Z.to_nat r) (plug_bytes (s - r))).
  pose proof (plug_bytes_length (s - r) ltac:(lia)) as Hlen.
  pose proof (plug_cell_ok (s - r) ltac:(lia) ltac:(lia)) as Hok.
  assert (Hst : stored (overlay buf (Z.to_nat r) (plug_bytes (s - r))) r
                  (plug_bytes (s - r)))
    by (apply stored_overlay_same; lia).
  split; [apply qref_plug_ok; lia|].
  split; [apply overlay_length; lia|].
  split.
  - rewrite (stored_size _ _ _ Hst) by lia. f_equal.
    destruct Hok as (_ & Hsz & _). lia.
  - rewrite (stored_read _ _ _ Hst Hok). do 2 f_equal.
    rewrite plug_cell_entry by lia. reflexivity.
Qed.

Lemma plug_reads_as_empty_entry_witness :
  exists buf',
    qref_plug 0 100 (replicate 100 120) = Some buf' /\
    length buf' = length (replicate 100 120) /\
    qref_size 0 buf' = Some (100 - 0) /\
    qref_read 0 buf'
    = Some (Ok (mkEntry 0 0 [] (replicate (Z.to_nat (100 - 0 - 22)) 0))).
Proof.
  apply (plug_reads_as_empty_entry 0 100 (replicate 100 120)).
  - lia.
  - lia.
  - vm_compute. discriminate.
  - vm_compute. reflexivity.
Defined.

(** ** bytes_queue.go: delete, pop, reset and the capacity *)

Lemma tombstone_cell_entry bs :
  cell_ok bs ->
  cell_entry (tombstone bs) = mkEntry (cell_ts bs) 0 (cell_key bs) (cell_data bs).
Proof.
  intros (Hl & Hsz & Hk0 & Hk).
  assert (H12 : length (take 12 bs) = 12%nat) by (rewrite length_take; lia).
  assert (Hd : forall n, (20 <= n)%nat -> drop n (tombstone bs) = drop n bs).
  { intros n Hn. unfold tombstone.
    rewrite app_assoc, drop_app_ge
      by (rewrite length_app, H12, le_encode_length; lia).
    rewrite length_app, H12, le_encode_length, drop_drop. f_equal. lia. }
  assert (Hs : cell_size (tombstone bs) = cell_size bs).
  { unfold cell_size, tombstone. rewrite take_app_le by lia.
    rewrite take_take. reflexivity. }
  assert (Hkl : cell_klen (tombstone bs) = cell_klen bs).
  { unfold cell_klen. by rewrite Hd by lia. }
  unfold cell_entry, cell_key, cell_data.
  rewrite tombstone_cell_ts, tombstone_cell_hash, Hs, Hkl by lia.
  rewrite !Hd by lia. reflexivity.
Qed.

(** X4.  The queue-level delete of a cell of the ring marks it without
    destroying information: it succeeds, the entry read back at the same
    offset has hash 0 and the timestamp, key and payload it had, the
    offsets and the count of the queue stay, and every other cell reads as
    before. *)
Theorem queue_delete_keeps_entry q cs r bs :
  queue_inv q cs -> (r, bs) ∈ cs ->
  exists q',
    queue_delete q r = Some (q', Ok tt) /\
    get q r = Some (Ok (cell_entry bs)) /\
    get q' r = Some (Ok (mkEntry (cell_ts bs) 0 (cell_key bs) (cell_data bs))) /\
    count q' = count q /\ head q' = head q /\ tail q' = tail q /\
    right q' = right q /\ queue_cap q' = queue_cap q /\
    forall r' bs', (r', bs') ∈ cs -> r' <> r -> get q' r' = get q r'.
Proof.
  intros Hinv Hin.
  destruct (queue_delete_inv q cs r bs Hinv Hin) as (Hdel & Hinv').
  destruct (queue_inv_in _ _ _ Hinv Hin) as (Hok & Hst & _). cbn [fst snd] in *.
  pose proof Hok as (Hl & _). pose proof Hst as (Hr0 & Hrb & _).
  eexists. split; [exact Hdel|].
  split; [unfold get; by apply stored_read|].
  split.
  { pose proof (tomb_cells_in r cs _ Hin) as Hin'. cbn [fst snd] in Hin'.
    rewrite Z.eqb_refl in Hin'.
    destruct (queue_inv_in _ _ _ Hinv' Hin') as (Hok' & Hst' & _). cbn [fst snd] in *.
    unfold get. rewrite (stored_read _ _ _ Hst' Hok').
    by rewrite tombstone_cell_entry. }
  unfold set_array, queue_cap. cbn [count head tail right array].
  do 4 (split; [reflexivity|]).
  split; [rewrite overlay_length; [reflexivity | rewrite tombstone_length; lia]|].
  intros r' bs' Hin1 Hne.
  pose proof (tomb_cells_in r cs _ Hin1) as Hin'. cbn [fst snd] in Hin'.
  destruct (Z.eqb_spec r' r); [done|].
  destruct (queue_inv_in _ _ _ Hinv Hin1) as (Hok1 & Hst1 & _).
  destruct (queue_inv_in _ _ _ Hinv' Hin') as (Hok' & Hst' & _). cbn [fst snd] in *.
  unfold get, set_array in *. cbn [array] in *.
  by rewrite (stored_read _ _ _ Hst' Hok'), (stored_read _ _ _ Hst1 Hok1).
Qed.

Lemma queue_delete_keeps_entry_witness :
  exists q',
    queue_delete (entries example_shard) 0 = Some (q', Ok tt) /\
    get (entries example_shard) 0 = Some (Ok (cell_entry (encode example_entry1))) /\
    get q' 0 = Some (Ok (mkEntry (cell_ts (encode example_entry1)) 0
                           (cell_key (encode example_entry1))
                           (cell_data (encode example_entry1)))) /\
    count q' = count (entries example_shard) /\
    head q' = head (entries example_shard) /\
    tail q' = tail (entries example_shard) /\
    right q' = right (entries example_shard) /\
    queue_cap q' = queue_cap (entries example_shard) /\
    forall r' bs', (r', bs') ∈ example_cells -> r' <> 0 ->
      get q' r' = get (entries example_shard) r'.
Proof.
  apply (queue_delete_keeps_entry (entries example_shard) example_cells 0
           (encode example_entry1)).
  - exact example_shard_inv.
  - unfold example_cells. apply elem_of_cons. left. reflexivity.
Defined.

(** X5.  On every state a fresh queue reaches (buffers below 4 GiB), [pop]
    and [oldest] agree and never fault or report an invalid index: on an
    empty queue both return [ErrQueueEmpty] and the queue stays as it is;
    otherwise both return the head offset, where a whole entry can be read,
    and [pop] decrements the count and leaves the bytes in place. *)
Theorem pop_returns_oldest initial maxCap os q evs :
  0 <= initial -> maxCap <= 0 \/ initial <= maxCap ->
  run_ops (newBytesQueue initial maxCap) os = Some (q, evs) ->
  queue_cap q < 2 ^ 32 ->
  (count q = 0 ->
   pop q = Some (q, Err ErrQueueEmpty) /\ oldest q = Some (Err ErrQueueEmpty)) /\
  (count q <> 0 ->
   exists q' ce,
     oldest q = Some (Ok (head q)) /\ get q (head q) = Some (Ok ce) /\
     pop q = Some (q', Ok (head q)) /\
     count q' = count q - 1 /\ array q' = array q).
Proof.
  intros Hi Hm Hrun Hb.
  destruct (reachable_inv _ _ _ _ _ Hi Hm Hrun Hb) as (cs & Hinv).
  pose proof (queue_inv_count _ _ Hinv) as Hc.
  destruct cs as [|c cs].
  - split; [|cbn [length] in Hc; lia].
    intros _. split; [by apply pop_empty | by apply oldest_empty].
  - split; [cbn [length] in Hc; lia|]. intros _.
    destruct (pop_inv _ _ _ Hinv) as (q' & Hpop & Hinv' & Harr & _).
    pose proof (queue_inv_head _ _ _ Hinv) as Hh.
    destruct (queue_inv_in _ _ c Hinv ltac:(apply elem_of_cons; by left))
      as (Hok & Hst & _).
    exists q', (cell_entry c.2). rewrite Hh.
    split; [by apply (oldest_inv _ _ cs)|].
    split; [unfold get; by apply stored_read|].
    split; [assumption|].
    split; [|assumption].
    rewrite Hc, (queue_inv_count _ _ Hinv'). cbn [length]. lia.
Qed.

Lemma pop_returns_oldest_witness :
  exists q,
    run_ops (newBytesQueue 134 0)
      [OpPush (makeCacheBlob 97 70); OpPush (makeCacheBlob 98 10); OpPop]
    = Some (q, [EvPush (makeCacheBlob 97 70) (Ok 0);
                EvPush (makeCacheBlob 98 10) (Ok 92); EvPop (Ok 0)]) /\
    head q = 92 /\
    ((count q = 0 ->
      pop q = Some (q, Err ErrQueueEmpty) /\ oldest q = Some (Err ErrQueueEmpty)) /\
     (count q <> 0 ->
      exists q' ce,
        oldest q = Some (Ok (head q)) /\ get q (head q) = Some (Ok ce) /\
        pop q = Some (q', Ok (head q)) /\
        count q' = count q - 1 /\ array q' = array q)).
Proof.
  eexists. split; [vm_compute; reflexivity|]. split; [reflexivity|].
  eapply (pop_returns_oldest 134 0
            [OpPush (makeCacheBlob 97 70); OpPush (makeCacheBlob 98 10); OpPop]).
  - lia.
  - left. lia.
  - vm_compute. reflexivity.
  - vm_compute. reflexivity.
Defined.

Lemma run_ops_total os : forall q cs,
  queue_inv q cs -> 0 < maxCapacity q < 2 ^ 32 ->
  exists q' evs cs',
    run_ops q os = Some (q', evs) /\ queue_inv q' cs' /\
    length evs = length os.
Proof.
  induction os as [|o os IH]; intros q cs Hinv Hm.
  - exists q, [], cs. cbn [run_ops]. split; [reflexivity|]. by split.
  - destruct (run_op_inv q cs o Hinv) as (q1 & ev & Hop & _ & Hmax & Hpost).
    pose proof Hinv as (_ & Hok & _).
    apply (run_op_cap _ _ _ _ Hok) in Hop as Hcap. destruct Hcap as (_ & _ & Hok1).
    assert (Hb : queue_cap q1 < 2 ^ 32).
    { destruct Hok1 as [?|?]; rewrite Hmax in *; lia. }
    destruct (Hpost Hb) as (cs1 & Hinv1 & _).
    destruct (IH q1 cs1 Hinv1 ltac:(rewrite Hmax; lia)) as (q2 & evs & cs2 & Hrun & Hinv2 & Hlen).
    exists q2, (ev :: evs), cs2. cbn [run_ops]. rewrite Hop. cbn [mbind option_bind].
    rewrite Hrun. cbn [mbind option_bind length]. split; [reflexivity|].
    split; [assumption | by rewrite Hlen].
Qed.

(** X6.  A queue created with a hard cap below 4 GiB (and an initial
    capacity within the cap) never faults: every sequence of push, pop,
    expand and reset runs to its end, each operation returning a value or
    an error, and the capacity stays between the initial one and the
    cap. *)
Theorem capped_queue_never_faults initial maxCap os :
  0 <= initial <= maxCap -> 0 < maxCap < 2 ^ 32 ->
  exists q evs,
    run_ops (newBytesQueue initial maxCap) os = Some (q, evs) /\
    length evs = length os /\
    initial <= queue_cap q <= maxCap /\ maxCapacity q = maxCap.
Proof.
  intros Hi Hm.
  assert (Hinv : queue_inv (newBytesQueue initial maxCap) [])
    by (apply queue_inv_new; lia).
  destruct (run_ops_total os _ _ Hinv Hm) as (q & evs & cs & Hrun & Hinv' & Hlen).
  exists q, evs. split; [assumption|]. split; [assumption|].
  pose proof Hinv as (_ & Hok & _).
  destruct (run_ops_cap os _ _ _ Hok Hrun) as (Hle & Hmax & Hok').
  cbn [newBytesQueue maxCapacity] in Hmax.
  assert (Hc0 : queue_cap (newBytesQueue initial maxCap) = initial).
  { unfold queue_cap, newBytesQueue. cbn [array]. rewrite length_replicate. lia. }
  rewrite Hc0 in Hle. split; [|assumption].
  destruct Hok' as [?|?]; rewrite Hmax in *; lia.
Qed.

Lemma capped_queue_never_faults_witness :
  exists q evs,
    run_ops (newBytesQueue 47 79)
      [OpPush (makeCacheBlob 97 25); OpPush (makeCacheBlob 98 58); OpPop; OpPop]
    = Some (q, evs) /\
    length evs = length [OpPush (makeCacheBlob 97 25); OpPush (makeCacheBlob 98 58);
                         OpPop; OpPop] /\
    47 <= queue_cap q <= 79 /\ maxCapacity q = 79.
Proof.
  apply (capped_queue_never_faults 47 79); lia.
Defined.

(** X7.  The capacity of a queue never shrinks and its hard cap never
    changes, whatever is pushed, popped, expanded or reset; with a cap set
    (and an initial capacity within it) the capacity never exceeds the
    cap. *)
Theorem capacity_never_shrinks initial maxCap os1 q1 evs1 os2 q2 evs2 :
  0 <= initial -> maxCap <= 0 \/ initial <= maxCap ->
  run_ops (newBytesQueue initial maxCap) os1 = Some (q1, evs1) ->
  run_ops q1 os2 = Some (q2, evs2) ->
  initial <= queue_cap q1 /\ queue_cap q1 <= queue_cap q2 /\
  maxCapacity q2 = maxCap /\ (0 < maxCap -> queue_cap q2 <= maxCap).
Proof.
  intros Hi Hm H1 H2.
  pose proof (cap_ok_new _ _ Hi Hm) as Hok.
  destruct (run_ops_cap os1 _ _ _ Hok H1) as (Hle1 & Hmax1 & Hok1).
  destruct (run_ops_cap os2 _ _ _ Hok1 H2) as (Hle2 & Hmax2 & Hok2).
  cbn [newBytesQueue maxCapacity] in Hmax1.
  assert (Hc0 : queue_cap (newBytesQueue initial maxCap) = initial).
  { unfold queue_cap, newBytesQueue. cbn [array]. rewrite length_replicate. lia. }
  rewrite Hc0 in Hle1.
  split; [assumption|]. split; [assumption|]. split; [congruence|].
  intros Hpos. destruct Hok2 as [?|?]; rewrite Hmax2, Hmax1 in *; lia.
Qed.

Lemma capacity_never_shrinks_witness :
  exists q1 q2,
    run_ops (newBytesQueue 11 0) [OpPush (makeCacheBlob 97 100)]
    = Some (q1, [EvPush (makeCacheBlob 97 100) (Ok 0)]) /\
    run_ops q1 [OpPop; OpReset] = Some (q2, [EvPop (Ok 0); EvReset]) /\
    queue_cap q1 = 266 /\
    (11 <= queue_cap q1 /\ queue_cap q1 <= queue_cap q2 /\
     maxCapacity q2 = 0 /\ (0 < 0 -> queue_cap q2 <= 0)).
Proof.
  do 2 eexists. split; [vm_compute; reflexivity|].
  split; [vm_compute; reflexivity|]. split; [vm_compute; reflexivity|].
  eapply (capacity_never_shrinks 11 0 [OpPush (makeCacheBlob 97 100)] _ _
            [OpPop; OpReset]).
  - lia.
  - left. lia.
  - vm_compute. reflexivity.
  - vm_compute. reflexivity.
Defined.



(** ** shard.go: reads of a well-formed shard *)

Lemma getWithoutLock_live s cs hash r bs key :
  queue_inv (entries s) cs -> hashmap s !! hash = Some r -> (r, bs) ∈ cs ->
  key = [] \/ key = cell_key bs ->
  getWithoutLock s key hash None = Some (hit s, Ok (cell_data bs)).
Proof.
  intros Hinv Hb Hin Hkey.
  destruct (queue_inv_in _ _ _ Hinv Hin) as (Hok & Hst & _).
  pose proof (peek_inv _ _ _ Hinv Hin) as Hpeek. cbn [fst snd] in *.
  unfold getWithoutLock. rewrite Hb, Hpeek.
  assert (Hc : (if 0 <? len key then collide (entries s) r key else Some false)
               = Some false).
  { destruct (Z.ltb_spec 0 (len key)); [|reflexivity].
    destruct Hkey as [-> | ->]; [cbn [length] in *; lia|].
    unfold collide. rewrite (stored_key _ _ _ Hst Hok). cbn [mbind option_bind].
    by rewrite bool_decide_eq_true_2. }
  rewrite Hc. cbn [mbind option_bind].
  change (entries (hit s)) with (entries s). unfold getDataCopy.
  by rewrite (stored_data _ _ _ Hst Hok).
Qed.

Lemma getWithoutLock_live_proc s cs hash r bs key f :
  queue_inv (entries s) cs -> hashmap s !! hash = Some r -> (r, bs) ∈ cs ->
  key = [] \/ key = cell_key bs ->
  getWithoutLock s key hash (Some f)
  = e ← f (Some (cell_entry bs));
    match e with
    | Some e => Some (hit s, Err e)
    | None => Some (hit s, Ok [])
    end.
Proof.
  intros Hinv Hb Hin Hkey.
  destruct (queue_inv_in _ _ _ Hinv Hin) as (Hok & Hst & _).
  pose proof (peek_inv _ _ _ Hinv Hin) as Hpeek. cbn [fst snd] in *.
  unfold getWithoutLock. rewrite Hb, Hpeek.
  assert (Hc : (if 0 <? len key then collide (entries s) r key else Some false)
               = Some false).
  { destruct (Z.ltb_spec 0 (len key)); [|reflexivity].
    destruct Hkey as [-> | ->]; [cbn [length] in *; lia|].
    unfold collide. rewrite (stored_key _ _ _ Hst Hok). cbn [mbind option_bind].
    by rewrite bool_decide_eq_true_2. }
  rewrite Hc. cbn [mbind option_bind].
  change (entries (hit s)) with (entries s). unfold get_ptr, get.
  by rewrite (stored_read _ _ _ Hst Hok).
Qed.

Lemma getWithoutLock_collides s cs hash r bs key f :
  queue_inv (entries s) cs -> hashmap s !! hash = Some r -> (r, bs) ∈ cs ->
  key <> [] -> key <> cell_key bs ->
  getWithoutLock s key hash f = Some (collision s, Err ErrEntryNotFound).
Proof.
  intros Hinv Hb Hin Hne Hdiff.
  destruct (queue_inv_in _ _ _ Hinv Hin) as (Hok & Hst & _).
  pose proof (peek_inv _ _ _ Hinv Hin) as Hpeek. cbn [fst snd] in *.
  unfold getWithoutLock. rewrite Hb, Hpeek.
  destruct (Z.ltb_spec 0 (len key)) as [_|Hl].
  - unfold collide. rewrite (stored_key _ _ _ Hst Hok). cbn [mbind option_bind].
    by rewrite bool_decide_eq_false_2.
  - destruct key; [done | cbn [length] in Hl; lia].
Qed.

(** ** shard.go: what the operations keep *)

Lemma chain_cells buf a b cs : chain buf a b cs -> a + 22 * len cs <= b.
Proof.
  revert a. induction cs as [|c cs IH]; intros a H; cbn [chain length] in *; [lia|].
  destruct H as (_ & (Hl & _) & _ & Hch). apply IH in Hch. lia.
Qed.

Lemma queue_inv_cells q cs : queue_inv q cs -> 22 * len cs <= queue_cap q.
Proof.
  intros (_ & _ & [(H0 & Ht & _ & Hch & _) | (up & lo & -> & _ & Hg & Hr & Hu & Hl)]).
  - apply chain_cells in Hch. lia.
  - apply chain_cells in Hu. apply chain_cells in Hl.
    rewrite length_app, Nat2Z.inj_add. lia.
Qed.

Lemma map_in_ring_insert m cs hash ref ce :
  map_in_ring m cs -> Hash ce = hash -> 0 < hash < 2 ^ 64 ->
  map_in_ring (<[hash := ref]> m) (cs ++ [(ref, encode ce)]).
Proof.
  intros Hmap Hh Hr h r Hb.
  destruct (decide (h = hash)) as [->|Hne].
  - rewrite lookup_insert_eq in Hb. injection Hb as <-. split; [lia|].
    exists (encode ce). split; [apply elem_of_app; right; apply elem_of_cons; by left|].
    rewrite encode_cell_hash, Hh. apply Z.mod_small. lia.
  - rewrite lookup_insert_ne in Hb by done.
    destruct (Hmap _ _ Hb) as (? & bs & Hin & ?). split; [assumption|].
    exists bs. split; [|assumption]. apply elem_of_app. by left.
Qed.

Lemma map_in_ring_sub m cs cs' :
  map_in_ring m cs -> (forall x, x ∈ cs -> x ∈ cs') -> map_in_ring m cs'.
Proof.
  intros Hmap Hsub h r Hb. destruct (Hmap _ _ Hb) as (? & bs & Hin & ?).
  split; [assumption|]. exists bs. split; [by apply Hsub | assumption].
Qed.

(** The [for] loop of set, under the invariant: it returns within one
    iteration per cell and one more; on failure the shard is empty, on
    success the new entry is the last cell of the ring and the map binds
    the hash to it. *)
Lemma set_loop_ok hash ce : forall fuel cs s,
  queue_inv (entries s) cs -> map_in_ring (hashmap s) cs ->
  (length cs < fuel)%nat ->
  exists s' r,
    set_loop fuel s hash ce = Returns (s', r) /\
    maxCapacity (entries s') = maxCapacity (entries s) /\
    cap_ok (entries s') /\
    match r with
    | Some e => queue_inv (entries s') [] /\ hashmap s' = ∅
    | None =>
        queue_cap (entries s') < 2 ^ 32 ->
        exists ref cs' m,
          hashmap s' = <[hash := ref]> m /\ map_in_ring m cs' /\
          queue_inv (entries s') (cs' ++ [(ref, encode ce)])
    end.
Proof.
  induction fuel as [|fuel IH]; intros cs s Hinv Hmap Hf; [lia|].
  cbn [set_loop].
  destruct (push_inv _ _ ce Hinv) as (q' & res & Hpush & _ & Hmax & Hres).
  pose proof Hinv as (_ & Hok & _).
  pose proof (push_cap _ _ _ _ Hok Hpush) as (_ & _ & Hok').
  rewrite Hpush. destruct res as [ref|e0].
  - eexists _, None. split; [reflexivity|]. ssimpl.
    split; [assumption|]. split; [assumption|].
    destruct Hres as (_ & _ & Hpost). intros Hb.
    destruct (Hpost Hb) as (cs' & Hinv' & Hsub).
    exists ref, cs', (hashmap s). split; [reflexivity|].
    split; [by apply (map_in_ring_sub _ cs) | assumption].
  - destruct Hres as (-> & _). rewrite set_entries_same.
    destruct cs as [|c cs].
    + rewrite (evictOldest_nil _ _ Hinv). eexists _, _. split; [reflexivity|].
      split; [reflexivity|]. split; [assumption|].
      split; [assumption | by apply map_in_ring_nil].
    + destruct (evictOldest_cons s c cs NoSpace Hinv ltac:(by right))
        as (s1 & Hev & Hinv1 & _ & Hmax1 & Hmap1 & _).
      rewrite Hev.
      assert (Hmir1 : map_in_ring (hashmap s1) cs)
        by (rewrite Hmap1; by apply evict_map_in_ring).
      destruct (IH cs s1 Hinv1 Hmir1 ltac:(cbn [length] in Hf; lia))
        as (s' & r & Hrun & Hmax' & Hok1 & Hpost).
      exists s', r. split; [exact Hrun|]. split; [congruence|].
      split; assumption.
Qed.

Lemma queue_delete_max q r q' res :
  queue_delete q r = Some (q', res) -> maxCapacity q' = maxCapacity q.
Proof.
  unfold queue_delete. intros H.
  destruct (count q =? 0); [by injection H as <- _|].
  destruct (qref_valid r (array q)) as [v|]; cbn [mbind option_bind] in H; [|done].
  destruct (negb v || (right q <? r)); [by injection H as <- _|].
  destruct (qref_clearHash r (array q)); cbn [mbind option_bind] in H; [|done].
  by injection H as <- _.
Qed.

Lemma set_displace_max s hash s1 :
  set_displace s hash = Some s1 ->
  maxCapacity (entries s1) = maxCapacity (entries s).
Proof.
  unfold set_displace. intros H.
  destruct (hashmap s !! hash) as [prev|]; [|by injection H as <-].
  destruct (queue_delete (entries s) prev) as [[q res]|] eqn:E;
    cbn [mbind option_bind] in H; [|done].
  apply queue_delete_max in E.
  destruct res; injection H as <-; exact E.
Qed.

Lemma evictOldest_max s reason s' e :
  evictOldest s reason = Some (s', e) ->
  maxCapacity (entries s') = maxCapacity (entries s).
Proof.
  unfold evictOldest. intros H.
  destruct (pop (entries s)) as [[q res]|] eqn:E; cbn [mbind option_bind] in H; [|done].
  apply pop_cap in E as (_ & Hm).
  destruct s as [m q0 cb log lw st]. ssimpl.
  destruct res as [o|e0]; [|injection H as <- _; exact Hm].
  destruct (getHash q o) as [h|]; cbn [mbind option_bind] in H; [|done].
  destruct (h =? 0); [injection H as <- _; exact Hm|].
  destruct reason; cbn [mbind option_bind] in H; try done;
    (ssimpl; destruct cb; ssimpl;
     [ destruct (get_ptr q o); cbn [mbind option_bind] in H; [|done] |];
     injection H as <- _; exact Hm).
Qed.

Lemma set_expire_max s current s1 :
  set_expire s current = Some s1 ->
  maxCapacity (entries s1) = maxCapacity (entries s).
Proof.
  unfold set_expire. intros H.
  destruct (oldest (entries s)) as [[o|e]|]; [| by injection H as <- | done].
  destruct (getTS (entries s) o) as [ts|]; cbn [mbind option_bind] in H; [|done].
  destruct (lifeWindow s <? sub64 current ts); [|by injection H as <-].
  destruct (evictOldest s Expired) as [[s' e]|] eqn:E; cbn [mbind option_bind] in H; [|done].
  injection H as <-. by apply evictOldest_max in E.
Qed.

(** set under the invariant. *)
Lemma setWithoutLock_ok s cs fuel current key hash entry :
  queue_inv (entries s) cs -> map_in_ring (hashmap s) cs ->
  (length cs < fuel)%nat ->
  exists s' r,
    setWithoutLock fuel s current key hash entry = Returns (s', r) /\
    maxCapacity (entries s') = maxCapacity (entries s) /\
    cap_ok (entries s') /\
    match r with
    | Some e => queue_inv (entries s') [] /\ hashmap s' = ∅
    | None =>
        queue_cap (entries s') < 2 ^ 32 ->
        exists ref cs' m,
          hashmap s' = <[hash := ref]> m /\ map_in_ring m cs' /\
          queue_inv (entries s')
            (cs' ++ [(ref, encode (mkEntry current hash key entry))])
    end.
Proof.
  intros Hinv Hmap Hf. unfold setWithoutLock.
  destruct (set_displace_inv s cs hash Hinv Hmap)
    as (s1 & Hd & Hinv1 & Hmap1 & _).
  pose proof (set_displace_max _ _ _ Hd) as Hm1.
  rewrite Hd.
  destruct (set_expire_inv s1 _ current Hinv1 Hmap1)
    as (s2 & cs2 & He & Hinv2 & Hmap2 & Hlen & _).
  pose proof (set_expire_max _ _ _ He) as Hm2.
  rewrite He.
  assert (Hlen1 : length (displaced_cells s cs hash) = length cs).
  { unfold displaced_cells. destruct (hashmap s !! hash); [apply tomb_cells_length | reflexivity]. }
  destruct (set_loop_ok hash (mkEntry current hash key entry) fuel cs2 s2 Hinv2 Hmap2
              ltac:(lia)) as (s' & r & Hrun & Hm' & Hok' & Hpost).
  exists s', r. split; [assumption|]. split; [congruence|]. split; assumption.
Qed.

(** ** shard.go: set, get, append and delete on a well-formed shard *)






Lemma example_shard_is_inv : shard_inv example_shard.
Proof. exists example_cells. split; [exact example_shard_inv | exact example_shard_map]. Qed.


(** The set of the example returns no error. *)
Lemma set_then_get_example :
  exists s',
    setWithoutLock 10 example_shard 9 [109] 3 [3; 4] = Returns (s', None) /\
    getWithoutLock s' [109] 3 None = Some (hit s', Ok [3; 4]).
Proof. eexists. split; [vm_compute; reflexivity|]. vm_compute. reflexivity. Qed.

(** *** Every operation keeps the invariant *)

Lemma shard_inv_stats s st : shard_inv s -> shard_inv (set_stats s st).
Proof. intros H. exact H. Qed.

Lemma cap_bound q M :
  cap_ok q -> maxCapacity q = M -> 0 < M < 2 ^ 32 -> queue_cap q < 2 ^ 32.
Proof. intros [?|?] ? ?; lia. Qed.

Lemma setWithoutLock_inv s fuel current key hash entry M :
  shard_inv s -> maxCapacity (entries s) = M -> 0 < M < 2 ^ 32 ->
  (Z.to_nat (M / 22) < fuel)%nat -> 0 < hash < 2 ^ 64 ->
  exists s' r,
    setWithoutLock fuel s current key hash entry = Returns (s', r) /\
    shard_inv s' /\ maxCapacity (entries s') = M.
Proof.
  intros (cs & Hinv & Hmap) HM Hb Hf Hh.
  assert (Hlen : (length cs < fuel)%nat).
  { pose proof Hinv as (_ & Hok & _). pose proof (queue_inv_cells _ _ Hinv).
    assert (queue_cap (entries s) <= M) by (destruct Hok; lia).
    assert (len cs <= M / 22) by (apply Z.div_le_lower_bound; lia). lia. }
  destruct (setWithoutLock_ok s cs fuel current key hash entry Hinv Hmap Hlen)
    as (s' & r & Hset & Hmax & Hok & Hpost).
  exists s', r. split; [assumption|]. split; [|congruence].
  destruct r as [e|].
  - destruct Hpost as (Hinv' & Hm). exists []. split; [assumption|].
    rewrite Hm. intros h r Hl. by rewrite lookup_empty in Hl.
  - destruct (Hpost (cap_bound _ M Hok ltac:(congruence) Hb))
      as (ref & cs' & m & Hm & Hmap' & Hinv').
    eexists. split; [exact Hinv'|]. rewrite Hm. by apply map_in_ring_insert.
Qed.

(** delete under the invariant. *)
Lemma del_ok s cs hash :
  queue_inv (entries s) cs -> map_in_ring (hashmap s) cs ->
  match hashmap s !! hash with
  | None => del s hash = Some (delmiss s, Some ErrEntryNotFound)
  | Some ref =>
      exists bs s',
        (ref, bs) ∈ cs /\ cell_hash bs = hash /\
        del s hash = Some (s', None) /\
        hashmap s' = delete hash (hashmap s) /\
        queue_inv (entries s') (tomb_cells ref cs) /\
        map_in_ring (hashmap s') (tomb_cells ref cs) /\
        maxCapacity (entries s') = maxCapacity (entries s) /\
        removed s' = removed s ++
          (if onRemove s
           then [(Some (mkEntry (cell_ts bs) hash (cell_key bs) (cell_data bs)), Deleted)]
           else []) /\
        stats s' = stats (delhit s) /\
        lifeWindow s' = lifeWindow s /\ onRemove s' = onRemove s
  end.
Proof.
  intros Hinv Hmap. destruct (hashmap s !! hash) as [ref|] eqn:Hb.
  - destruct (Hmap _ _ Hb) as (Hh & bs & Hin & Hhash).
    destruct (queue_delete_inv _ _ _ _ Hinv Hin) as (Hdel & Hinv1).
    destruct (set_displace_inv s cs hash Hinv Hmap) as (s1 & Hd & _ & Hmap1 & _).
    unfold set_displace, displaced_cells in *. rewrite Hb in *. rewrite Hdel in Hd.
    cbn [mbind option_bind] in Hd. injection Hd as <-.
    pose proof (tomb_cells_in ref cs _ Hin) as Hin'. cbn [fst snd] in Hin'.
    rewrite Z.eqb_refl in Hin'.
    destruct (queue_inv_in _ _ _ Hinv1 Hin') as (Hok' & Hst' & _). cbn [fst snd] in *.
    destruct (queue_inv_in _ _ _ Hinv Hin) as (Hok & _ & _). cbn [fst snd] in *.
    exists bs. unfold del. rewrite Hb, Hdel. cbn [mbind option_bind].
    destruct s as [m q cb log lw st]. ssimpl.
    destruct cb.
    + unfold get_ptr, get. cbn [array set_array].
      unfold set_array in Hst'. cbn [array] in Hst'.
      rewrite (stored_read _ _ _ Hst' Hok'). cbn [mbind option_bind].
      rewrite tombstone_cell_entry by assumption. cbn [TS Key Data].
      eexists. split; [assumption|]. split; [assumption|].
      split; [reflexivity|]. ssimpl. split; [reflexivity|].
      split; [assumption|]. split; [assumption|]. by repeat split.
    + eexists. split; [assumption|]. split; [assumption|].
      split; [reflexivity|]. ssimpl. split; [reflexivity|].
      split; [assumption|]. split; [assumption|].
      rewrite app_nil_r. by repeat split.
  - unfold del. by rewrite Hb.
Qed.

Lemma del_inv s hash M :
  shard_inv s -> maxCapacity (entries s) = M ->
  exists s' r,
    del s hash = Some (s', r) /\ shard_inv s' /\ maxCapacity (entries s') = M.
Proof.
  intros (cs & Hinv & Hmap) HM.
  pose proof (del_ok s cs hash Hinv Hmap) as H.
  destruct (hashmap s !! hash) as [ref|].
  - destruct H as (bs & s' & _ & _ & Hdel & _ & Hinv' & Hmap' & Hmax & _).
    exists s', None. split; [assumption|]. split; [|congruence].
    by exists (tomb_cells ref cs).
  - exists (delmiss s), (Some ErrEntryNotFound). split; [assumption|].
    split; [|assumption]. by exists cs.
Qed.

Lemma cleanUp_max timestamp : forall fuel s s',
  cleanUp fuel s timestamp = Returns s' ->
  maxCapacity (entries s') = maxCapacity (entries s).
Proof.
  induction fuel as [|fuel IH]; intros s s' H; cbn [cleanUp] in H; [done|].
  destruct (oldest (entries s)) as [[o|e]|]; [| by injection H as <- | done].
  destruct (getTS (entries s) o) as [ts|]; [|done].
  destruct (sub64 timestamp ts <=? lifeWindow s); [by injection H as <-|].
  destruct (evictOldest s Expired) as [[s1 [e|]]|] eqn:E; [| | done].
  - injection H as <-. by apply evictOldest_max in E.
  - apply IH in H. apply evictOldest_max in E. congruence.
Qed.

Lemma cleanUp_shard_inv s fuel timestamp M :
  shard_inv s -> maxCapacity (entries s) = M -> 0 < M < 2 ^ 32 ->
  (Z.to_nat (M / 22) < fuel)%nat ->
  exists s',
    cleanUp fuel s timestamp = Returns s' /\ shard_inv s' /\
    maxCapacity (entries s') = M.
Proof.
  intros (cs & Hinv & Hmap) HM Hb Hf.
  assert (Hlen : (length cs < fuel)%nat).
  { pose proof Hinv as (_ & Hok & _). pose proof (queue_inv_cells _ _ Hinv).
    assert (queue_cap (entries s) <= M) by (destruct Hok; lia).
    assert (len cs <= M / 22) by (apply Z.div_le_lower_bound; lia). lia. }
  destruct (cleanUp_inv timestamp cs s Hinv Hmap)
    as (s' & cs' & Hrun & Hinv' & Hmap' & _).
  exists s'. split; [by apply Hrun|]. split; [by exists cs'|].
  rewrite <- HM. apply (cleanUp_max timestamp fuel). by apply Hrun.
Qed.

(** append under the invariant: what it hands to set. *)
Lemma append_ok s cs fuel current key hash entry :
  queue_inv (entries s) cs -> map_in_ring (hashmap s) cs ->
  match hashmap s !! hash with
  | None => append fuel s current key hash entry
            = setWithoutLock fuel (miss s) current key hash entry
  | Some ref =>
      exists bs, (ref, bs) ∈ cs /\
        ((key = [] \/ key = cell_key bs) /\
         append fuel s current key hash entry
         = setWithoutLock fuel (hit s) current key hash (cell_data bs ++ entry) \/
         (key <> [] /\ key <> cell_key bs) /\
         append fuel s current key hash entry
         = setWithoutLock fuel (collision s) current key hash entry)
  end.
Proof.
  intros Hinv Hmap. destruct (hashmap s !! hash) as [ref|] eqn:Hb.
  - destruct (Hmap _ _ Hb) as (Hh & bs & Hin & Hhash).
    destruct (queue_inv_in _ _ _ Hinv Hin) as (Hok & Hst & _). cbn [fst snd] in *.
    exists bs. split; [assumption|].
    destruct (decide (key = [])) as [Hk|Hk];
      [|destruct (decide (key = cell_key bs)) as [Hk'|Hk']].
    + left. split; [by left|]. unfold append.
      rewrite (getWithoutLock_live_proc s cs hash ref bs key appender Hinv Hb Hin)
        by (by left).
      cbn [appender mbind option_bind]. rewrite Hb. unfold get_ptr, get.
      by rewrite (stored_read _ _ _ Hst Hok).
    + left. split; [by right|]. unfold append.
      rewrite (getWithoutLock_live_proc s cs hash ref bs key appender Hinv Hb Hin)
        by (by right).
      cbn [appender mbind option_bind]. rewrite Hb. unfold get_ptr, get.
      by rewrite (stored_read _ _ _ Hst Hok).
    + right. split; [by split|]. unfold append.
      by rewrite (getWithoutLock_collides s cs hash ref bs key _ Hinv Hb Hin Hk Hk').
  - unfold append, getWithoutLock. by rewrite Hb.
Qed.

Lemma append_inv s fuel current key hash entry M :
  shard_inv s -> maxCapacity (entries s) = M -> 0 < M < 2 ^ 32 ->
  (Z.to_nat (M / 22) < fuel)%nat -> 0 < hash < 2 ^ 64 ->
  exists s' r,
    append fuel s current key hash entry = Returns (s', r) /\
    shard_inv s' /\ maxCapacity (entries s') = M.
Proof.
  intros Hsi HM Hb Hf Hh. pose proof Hsi as (cs & Hinv & Hmap).
  pose proof (append_ok s cs fuel current key hash entry Hinv Hmap) as H.
  destruct (hashmap s !! hash) as [ref|].
  - destruct H as (bs & _ & [(_ & ->) | (_ & ->)]);
      by apply setWithoutLock_inv.
  - rewrite H. by apply setWithoutLock_inv.
Qed.

Lemma run_shard_inv M fuel : forall os s,
  shard_inv s -> maxCapacity (entries s) = M -> 0 < M < 2 ^ 32 ->
  (Z.to_nat (M / 22) < fuel)%nat -> Forall sop_ok os ->
  exists s',
    run_shard fuel s os = Returns s' /\ shard_inv s' /\
    maxCapacity (entries s') = M.
Proof.
  induction os as [|o os IH]; intros s Hsi HM Hb Hf Hall.
  - exists s. by repeat split.
  - apply Forall_cons in Hall as [Ho Hall]. cbn [run_shard].
    destruct o as [t k h e | t k h e | h | t]; cbn [sop_ok] in Ho.
    + destruct (setWithoutLock_inv s fuel t k h e M Hsi HM Hb Hf Ho)
        as (s1 & r & -> & Hsi1 & HM1). by apply IH.
    + destruct (append_inv s fuel t k h e M Hsi HM Hb Hf Ho)
        as (s1 & r & -> & Hsi1 & HM1). by apply IH.
    + destruct (del_inv s h M Hsi HM) as (s1 & r & -> & Hsi1 & HM1). by apply IH.
    + destruct (cleanUp_shard_inv s fuel t M Hsi HM Hb Hf)
        as (s1 & -> & Hsi1 & HM1). by apply IH.
Qed.

Lemma initNewShard_inv initialCapacity maxCap callback life :
  0 <= initialCapacity ->
  shard_inv (initNewShard initialCapacity maxCap callback life) /\
  maxCapacity (entries (initNewShard initialCapacity maxCap callback life)) = maxCap.
Proof.
  intros Hi. split; [|reflexivity]. exists []. unfold initNewShard. cbn [entries hashmap].
  split.
  - destruct (Z.ltb_spec 0 maxCap); destruct (Z.ltb_spec maxCap initialCapacity);
      cbn [andb]; apply queue_inv_new; lia.
  - intros h r Hl. by rewrite lookup_empty in Hl.
Qed.

(** X10.  A shard created with a hard cap below 4 GiB never faults and
    never loops for ever: every sequence of set, append, delete and cleanUp
    whose hashes are non-zero 64-bit values runs to its end (given fuel for
    one loop iteration per cell the capped ring can hold, and one more),
    the shard stays well formed (the ring is a chain of cells and every map
    binding points at a cell carrying its hash) and the ring stays within
    the cap. *)
Theorem shard_never_faults initialCapacity maxCap callback life fuel os :
  0 <= initialCapacity -> 0 < maxCap < 2 ^ 32 ->
  (Z.to_nat (maxCap / 22) < fuel)%nat -> Forall sop_ok os ->
  exists s',
    run_shard fuel (initNewShard initialCapacity maxCap callback life) os
    = Returns s' /\
    shard_inv s' /\ queue_cap (entries s') <= maxCap.
Proof.
  intros Hi Hm Hf Hall.
  destruct (initNewShard_inv initialCapacity maxCap callback life Hi) as (Hsi & HM).
  destruct (run_shard_inv maxCap fuel os _ Hsi HM Hm Hf Hall) as (s' & Hrun & Hsi' & HM').
  exists s'. split; [assumption|]. split; [assumption|].
  destruct Hsi' as (cs & (_ & Hok & _) & _). destruct Hok; lia.
Qed.

Lemma shard_never_faults_witness :
  exists s',
    run_shard 4 (initNewShard 47 79 true 10)
      [SSet 0 [] 1 (replicate 25 1); SAppend 3 [] 1 [2]; SDel 7; SCleanUp 50;
       SSet 60 [107] 2 (replicate 100 7)]
    = Returns s' /\
    shard_inv s' /\ queue_cap (entries s') <= 79.
Proof.
  apply (shard_never_faults 47 79 true 10 4).
  - lia.
  - lia.
  - vm_compute. lia.
  - repeat constructor; cbn; lia.
Defined.





(** On the example shard the append returns no error and the key reads as
    the old payload followed by the appended bytes. *)
Lemma append_then_get_example :
  exists s',
    append 10 example_shard 9 [107] 1 [5; 6] = Returns (s', None) /\
    getWithoutLock s' [107] 1 None = Some (hit s', Ok [1; 5; 6]).
Proof. eexists. split; [vm_compute; reflexivity|]. vm_compute. reflexivity. Qed.





(** ** bigcache.go: the controller *)

Lemma land_mask h (k : nat) : 0 <= h -> Z.land h (2 ^ Z.of_nat k - 1) = h mod 2 ^ Z.of_nat k.
Proof.
  intros Hh. rewrite <- Z.land_ones by lia. f_equal.
  rewrite Z.ones_equiv. lia.
Qed.

(** X15.  With a power-of-two number of shards and the mask set to that
    number less one, every non-negative hash selects a shard: [getShard]
    never indexes out of range, and the shard selected is the one at index
    [hash mod (number of shards)]. *)
Theorem getShard_in_range c hashedKey :
  mask_ok c -> 0 <= hashedKey ->
  exists s,
    getShard c hashedKey = Some (shard_index c hashedKey, s) /\
    Z.of_nat (shard_index c hashedKey) = hashedKey mod len (shards c).
Proof.
  intros (k & Hlen & Hmask) Hh. unfold getShard, shard_index.
  rewrite Hmask, land_mask by assumption.
  assert (Hp : 0 < 2 ^ Z.of_nat k) by (apply Z.pow_pos_nonneg; lia).
  pose proof (Z.mod_pos_bound hashedKey _ Hp) as Hb.
  destruct (lookup_lt_is_Some_2 (shards c) (Z.to_nat (hashedKey mod 2 ^ Z.of_nat k)))
    as (s & Hs); [lia|].
  exists s. rewrite Hs. cbn [mbind option_bind]. split; [reflexivity|].
  rewrite Hlen. lia.
Qed.

Lemma getShard_in_range_witness :
  exists s,
    getShard (mkCache [example_shard; example_full_shard] (fun _ => 0) 1) 7
    = Some (shard_index (mkCache [example_shard; example_full_shard] (fun _ => 0) 1) 7, s) /\
    Z.of_nat (shard_index (mkCache [example_shard; example_full_shard] (fun _ => 0) 1) 7)
    = 7 mod len (shards (mkCache [example_shard; example_full_shard] (fun _ => 0) 1)).
Proof.
  apply (getShard_in_range (mkCache [example_shard; example_full_shard] (fun _ => 0) 1) 7).
  - exists 1%nat. split; reflexivity.
  - lia.
Defined.

Lemma foldl_reset (g : cacheShard -> Z) ss :
  (forall s, g (shard_reset s) = g s) ->
  forall a, foldl (fun n s => n + g s) a (map shard_reset ss)
            = foldl (fun n s => n + g s) a ss.
Proof.
  intros Hg. induction ss as [|s ss IH]; intros a; cbn [map foldl]; [reflexivity|].
  by rewrite Hg, IH.
Qed.

Lemma foldl_zero (g : cacheShard -> Z) ss :
  (forall s, s ∈ ss -> g s = 0) ->
  forall a, foldl (fun n s => n + g s) a ss = a.
Proof.
  induction ss as [|s ss IH]; intros Hg a; cbn [foldl]; [reflexivity|].
  rewrite Hg by (by left). rewrite Z.add_0_r. apply IH.
  intros s' Hs'. apply Hg. by right.
Qed.

(** X16.  [Reset] empties every shard and nothing else: afterwards the
    cache holds no entry ([Len] is 0 and a get of any hash in any shard is
    a miss), while the capacity allocated and the statistics are what they
    were. *)
Theorem Reset_keeps_capacity_and_stats c :
  Len (Reset c) = 0 /\
  Capacity (Reset c) = Capacity c /\
  CacheStats (Reset c) = CacheStats c /\
  forall s key hash f, s ∈ shards (Reset c) ->
    getWithoutLock s key hash f = Some (miss s, Err ErrEntryNotFound).
Proof.
  split; [|split; [|split]].
  - unfold Len, Reset. cbn [shards]. apply foldl_zero.
    intros s Hs. apply list_elem_of_fmap in Hs as (s0 & -> & _).
    unfold shard_len, shard_reset, set_entries, set_hashmap. cbn [hashmap].
    by rewrite map_size_empty.
  - unfold Capacity, Reset. cbn [shards]. by apply foldl_reset.
  - unfold CacheStats, Reset. cbn [shards].
    generalize (mkStats 0 0 0 0 0 0 0).
    induction (shards c) as [|s ss IH]; intros a; cbn [map foldl]; [reflexivity|].
    rewrite IH. reflexivity.
  - intros s key hash f Hs. unfold Reset in Hs. cbn [shards] in Hs.
    apply list_elem_of_fmap in Hs as (s0 & -> & _).
    unfold getWithoutLock, shard_reset, set_entries, set_hashmap. cbn [hashmap].
    by rewrite lookup_empty.
Qed.


Lemma getShard_put_other c i s' h :
  shard_index c h <> i -> getShard (put_shard c i s') h = getShard c h.
Proof.
  unfold getShard, put_shard, shard_index. cbn [shards shardMask]. intros H.
  by rewrite list_lookup_insert_ne.
Qed.



(** X18.  Shards are independent: whatever replaces the shard at one index,
    [Get], [GetHashed] and [Delete] of a key that hashes to another index
    answer as before. *)
Theorem other_shards_unaffected c i s' key :
  shard_index c (hasher c key) <> i ->
  snd <$> Get (put_shard c i s') key = snd <$> Get c key /\
  snd <$> Delete (put_shard c i s') key = snd <$> Delete c key /\
  snd <$> GetHashed (put_shard c i s') (hasher c key)
  = snd <$> GetHashed c (hasher c key).
Proof.
  intros Hne. unfold Get, Delete, GetHashed.
  change (hasher (put_shard c i s') key) with (hasher c key).
  rewrite (getShard_put_other c i s' _ Hne).
  destruct (getShard c (hasher c key)) as [[j s]|];
    cbn [mbind option_bind fmap option_fmap option_map]; [|done].
  split; [|split].
  - by destruct (getWithoutLock s key (hasher c key) None) as [[s2 res]|].
  - by destruct (del s (hasher c key)) as [[s2 res]|].
  - by destruct (getWithoutLock s [] (hasher c key) None) as [[s2 res]|].
Qed.

Lemma other_shards_unaffected_witness :
  snd <$> Get (put_shard (mkCache [example_full_shard; example_shard] (fun _ => 1) 1)
                 0 example_shard) [107]
  = snd <$> Get (mkCache [example_full_shard; example_shard] (fun _ => 1) 1) [107] /\
  snd <$> Delete (put_shard (mkCache [example_full_shard; example_shard] (fun _ => 1) 1)
                    0 example_shard) [107]
  = snd <$> Delete (mkCache [example_full_shard; example_shard] (fun _ => 1) 1) [107] /\
  snd <$> GetHashed (put_shard (mkCache [example_full_shard; example_shard] (fun _ => 1) 1)
                       0 example_shard)
            (hasher (mkCache [example_full_shard; example_shard] (fun _ => 1) 1) [107])
  = snd <$> GetHashed (mkCache [example_full_shard; example_shard] (fun _ => 1) 1)
              (hasher (mkCache [example_full_shard; example_shard] (fun _ => 1) 1) [107]).
Proof.
  apply (other_shards_unaffected
           (mkCache [example_full_shard; example_shard] (fun _ => 1) 1) 0
           example_shard [107]).
  vm_compute. discriminate.
Defined.



(** ** Range *)

Lemma copyRefs_bound s r : r ∈ copyRefs s <-> exists h, hashmap s !! h = Some r.
Proof.
  unfold copyRefs. rewrite list_elem_of_fmap. split.
  - intros ([h r'] & -> & Hin). exists h. by apply elem_of_map_to_list in Hin.
  - intros (h & Hb). exists (h, r). split; [reflexivity|]. by apply elem_of_map_to_list.
Qed.

Lemma copyRefs_length s : len (copyRefs s) = shard_len s.
Proof. unfold copyRefs, shard_len. by rewrite length_fmap, length_map_to_list. Qed.

Lemma bound_entry s cs h r :
  queue_inv (entries s) cs -> map_in_ring (hashmap s) cs ->
  hashmap s !! h = Some r ->
  exists ce, get (entries s) r = Some (Ok ce) /\ Hash ce = h.
Proof.
  intros Hinv Hmap Hb. destruct (Hmap _ _ Hb) as (_ & bs & Hin & Hhash).
  destruct (queue_inv_in _ _ _ Hinv Hin) as (Hok & Hst & _). cbn [fst snd] in *.
  exists (cell_entry bs). split; [unfold get; by apply stored_read | exact Hhash].
Qed.

Lemma getEntry_duplicator s r ce :
  get (entries s) r = Some (Ok ce) ->
  getEntry s r (Some duplicator) = Some (Some ce, None).
Proof. intros H. unfold getEntry. by rewrite H. Qed.

Lemma range_refs_all s f refs :
  (forall ce, f (Some ce) = Some None) ->
  Forall (fun r => exists ce, get (entries s) r = Some (Ok ce)) refs ->
  exists visited,
    range_refs s f refs = Some (visited, None) /\
    Forall2 (fun r ce => get (entries s) r = Some (Ok ce)) refs visited.
Proof.
  intros Hf. induction refs as [|r refs IH]; intros Hall.
  - exists []. split; [reflexivity | constructor].
  - apply Forall_cons in Hall as [(ce & Hget) Hall].
    destruct (IH Hall) as (visited & Hrun & Hrel).
    exists (ce :: visited). cbn [range_refs].
    rewrite (getEntry_duplicator _ _ _ Hget), Hf, Hrun. cbn [mbind option_bind].
    split; [reflexivity | by constructor].
Qed.

Lemma Forall2_elem_r {A B} (P : A -> B -> Prop) l k y :
  Forall2 P l k -> y ∈ k -> exists x, x ∈ l /\ P x y.
Proof.
  induction 1 as [|x y' l k Hp _ IH]; intros Hin; [by apply elem_of_nil in Hin|].
  apply elem_of_cons in Hin as [-> | Hin].
  - exists x. split; [by left | assumption].
  - destruct (IH Hin) as (x' & ? & ?). exists x'. split; [by right | assumption].
Qed.

Lemma Forall2_elem_l {A B} (P : A -> B -> Prop) l k x :
  Forall2 P l k -> x ∈ l -> exists y, y ∈ k /\ P x y.
Proof.
  induction 1 as [|x' y l k Hp _ IH]; intros Hin; [by apply elem_of_nil in Hin|].
  apply elem_of_cons in Hin as [-> | Hin].
  - exists y. split; [by left | assumption].
  - destruct (IH Hin) as (y' & ? & ?). exists y'. split; [by right | assumption].
Qed.

Lemma range_shards_all f ss :
  (forall ce, f (Some ce) = Some None) -> Forall shard_inv ss ->
  exists visited,
    range_shards ss f = Some (visited, None) /\
    (forall a, foldl (fun n s => n + shard_len s) a ss = a + len visited) /\
    forall ce, ce ∈ visited <->
      exists s ref, s ∈ ss /\ hashmap s !! Hash ce = Some ref /\
                    get (entries s) ref = Some (Ok ce).
Proof.
  intros Hf. induction ss as [|s ss IH]; intros Hall.
  - exists []. split; [reflexivity|]. split; [intros a; cbn; lia|].
    intros ce. split; [intros H; by apply elem_of_nil in H|].
    intros (s & ref & H & _). by apply elem_of_nil in H.
  - apply Forall_cons in Hall as [(cs & Hinv & Hmap) Hall].
    destruct (IH Hall) as (vs & Hrun & Hlen & Hiff).
    assert (Hlive : Forall (fun r => exists ce, get (entries s) r = Some (Ok ce))
                      (copyRefs s)).
    { apply Forall_forall. intros r Hr. apply copyRefs_bound in Hr as (h & Hb).
      destruct (bound_entry s cs h r Hinv Hmap Hb) as (ce & ? & _). by exists ce. }
    destruct (range_refs_all s f _ Hf Hlive) as (v1 & Hrun1 & Hrel).
    exists (v1 ++ vs). cbn [range_shards]. rewrite Hrun1. cbn [mbind option_bind].
    rewrite Hrun. cbn [mbind option_bind]. split; [reflexivity|].
    split.
    { intros a. cbn [foldl]. rewrite Hlen, length_app, Nat2Z.inj_add.
      rewrite <- copyRefs_length. apply Forall2_length in Hrel. lia. }
    intros ce. rewrite elem_of_app. split.
    + intros [Hin | Hin].
      * destruct (Forall2_elem_r _ _ _ _ Hrel Hin) as (r & Hr & Hget).
        apply copyRefs_bound in Hr as (h & Hb).
        destruct (bound_entry s cs h r Hinv Hmap Hb) as (ce' & Hget' & Hh).
        assert (ce' = ce) as -> by congruence.
        exists s, r. split; [by left|]. split; [by rewrite Hh | assumption].
      * apply Hiff in Hin as (s' & ref & ? & ? & ?).
        exists s', ref. split; [by right | by split].
    + intros (s' & ref & Hs' & Hb & Hget).
      apply elem_of_cons in Hs' as [-> | Hs'].
      * left. assert (Hr : ref ∈ copyRefs s) by (apply copyRefs_bound; eauto).
        destruct (Forall2_elem_l _ _ _ _ Hrel Hr) as (ce' & Hin & Hget').
        assert (ce' = ce) as <- by congruence. assumption.
      * right. apply Hiff. by exists s', ref.
Qed.

(** X19.  On a cache whose shards are well formed, [Range] with a function
    that returns nil for every entry returns nil after handing that
    function every resident entry exactly once: as many entries as [Len]
    counts, and an entry is handed over if and only if some shard binds its
    hash to a qref at which that entry is read. *)
Theorem Range_visits_all c f :
  Forall shard_inv (shards c) -> (forall ce, f (Some ce) = Some None) ->
  exists visited,
    Range c f = Some (visited, None) /\
    len visited = Len c /\
    forall ce, ce ∈ visited <->
      exists s ref, s ∈ shards c /\ hashmap s !! Hash ce = Some ref /\
                    get (entries s) ref = Some (Ok ce).
Proof.
  intros Hall Hf.
  destruct (range_shards_all f (shards c) Hf Hall) as (visited & Hrun & Hlen & Hiff).
  exists visited. split; [exact Hrun|]. split; [|exact Hiff].
  unfold Len. rewrite Hlen. lia.
Qed.

Lemma example_full_shard_is_inv : shard_inv example_full_shard.
Proof.
  exists example_full_cells.
  split; [exact example_full_shard_inv | exact example_full_shard_map].
Qed.

Lemma Range_visits_all_witness :
  exists visited,
    Range (mkCache [example_full_shard; example_shard] (fun _ => 1) 1)
      (fun _ => Some None) = Some (visited, None) /\
    len visited = Len (mkCache [example_full_shard; example_shard] (fun _ => 1) 1) /\
    forall ce, ce ∈ visited <->
      exists s ref,
        s ∈ shards (mkCache [example_full_shard; example_shard] (fun _ => 1) 1) /\
        hashmap s !! Hash ce = Some ref /\
        get (entries s) ref = Some (Ok ce).
Proof.
  apply (Range_visits_all (mkCache [example_full_shard; example_shard] (fun _ => 1) 1)
           (fun _ => Some None)).
  - cbn [shards]. repeat constructor;
      [exact example_full_shard_is_inv | exact example_shard_is_inv].
  - reflexivity.
Defined.

Lemma range_refs_stop s f e refs r :
  (forall ce, f (Some ce) = Some (Some e)) ->
  Forall (fun r => exists ce, get (entries s) r = Some (Ok ce)) (r :: refs) ->
  exists ce,
    get (entries s) r = Some (Ok ce) /\
    range_refs s f (r :: refs)
    = Some ([ce], Some (if is_not_found e then None else Some e)).
Proof.
  intros Hf Hall. apply Forall_cons in Hall as [(ce & Hget) _].
  exists ce. split; [assumption|]. cbn [range_refs].
  rewrite (getEntry_duplicator _ _ _ Hget), Hf. by destruct (is_not_found e).
Qed.

(** X20.  [Range] stops at the first error of the function it is given: on
    a cache with well-formed shards and at least one entry, a function that
    returns the error [e] is called once; [Range] then returns nil if [e]
    is (or wraps) [ErrEntryNotFound], the request to stop, and [e] itself
    otherwise. *)
Theorem Range_stops_at_error c f e :
  Forall shard_inv (shards c) -> 0 < Len c ->
  (forall ce, f (Some ce) = Some (Some e)) ->
  exists ce,
    Range c f = Some ([ce], if is_not_found e then None else Some e).
Proof.
  unfold Range, Len. intros Hall Hlen Hf.
  induction (shards c) as [|s ss IH]; [cbn in Hlen; lia|].
  apply Forall_cons in Hall as [(cs & Hinv & Hmap) Hall].
  cbn [range_shards foldl] in *.
  assert (Hlive : Forall (fun r => exists ce, get (entries s) r = Some (Ok ce))
                    (copyRefs s)).
  { apply Forall_forall. intros r Hr. apply copyRefs_bound in Hr as (h & Hb).
    destruct (bound_entry s cs h r Hinv Hmap Hb) as (ce & ? & _). by exists ce. }
  destruct (copyRefs s) as [|r refs] eqn:Hrefs.
  - cbn [range_refs mbind option_bind].
    assert (Hz : shard_len s = 0) by (rewrite <- copyRefs_length, Hrefs; reflexivity).
    rewrite Hz in Hlen.
    destruct (IH Hall Hlen) as (ce & ->). cbn [mbind option_bind app]. by exists ce.
  - destruct (range_refs_stop s f e refs r Hf Hlive) as (ce & _ & ->).
    cbn [mbind option_bind]. by exists ce.
Qed.

Lemma Range_stops_at_error_witness :
  exists ce,
    Range (mkCache [example_full_shard; example_shard] (fun _ => 1) 1)
      (fun _ => Some (Some ErrEntryNotFound))
    = Some ([ce], if is_not_found ErrEntryNotFound then None
                  else Some ErrEntryNotFound).
Proof.
  apply (Range_stops_at_error
           (mkCache [example_full_shard; example_shard] (fun _ => 1) 1)
           (fun _ => Some (Some ErrEntryNotFound)) ErrEntryNotFound).
  - cbn [shards]. repeat constructor;
      [exact example_full_shard_is_inv | exact example_shard_is_inv].
  - vm_compute. reflexivity.
  - reflexivity.
Defined.

(** ** shard.go: what cleanUp and set leave alone *)

(** X21.  [cleanUp] evicts from the head only, and only expired entries:
    on a well-formed shard it returns (given fuel for one iteration per
    cell and one more) having popped a prefix of the ring every cell of
    which is past the life window; the first cell left, if any, is within
    the window; the callback (if installed) has been called once per
    evicted entry that is neither deleted nor a plug, oldest first, with
    reason [Expired]; and no binding has been added to the map. *)
Theorem cleanUp_evicts_only_expired now : forall cs s,
  queue_inv (entries s) cs -> map_in_ring (hashmap s) cs ->
  exists s' pre cs',
    cs = pre ++ cs' /\
    (forall fuel, (length cs < fuel)%nat -> cleanUp fuel s now = Returns s') /\
    Forall (fun c : cell => lifeWindow s < sub64 now (cell_ts c.2)) pre /\
    match cs' with
    | [] => True
    | c :: _ => sub64 now (cell_ts c.2) <= lifeWindow s
    end /\
    queue_len (entries s') = len cs' /\
    removed s' = removed s ++
      (if onRemove s then flat_map (evict_event Expired) pre else []) /\
    forall h r, hashmap s' !! h = Some r -> hashmap s !! h = Some r.
Proof.
  induction cs as [|c cs IH]; intros s Hinv Hmap.
  - exists s, [], []. split; [reflexivity|]. split.
    { intros [|fuel] Hf; [cbn in Hf; lia|]. cbn [cleanUp].
      by rewrite (oldest_empty _ Hinv). }
    split; [constructor|]. split; [exact I|].
    split; [exact (queue_inv_count _ _ Hinv)|].
    split; [destruct (onRemove s); by rewrite app_nil_r | auto].
  - destruct (queue_inv_in _ _ c Hinv ltac:(left)) as (Hok & Hst & _).
    pose proof Hok as (Hl & _).
    destruct (Z.leb_spec (sub64 now (cell_ts c.2)) (lifeWindow s)) as [Hin|Hout].
    + exists s, [], (c :: cs). split; [reflexivity|]. split.
      { intros [|fuel] Hf; [cbn in Hf; lia|]. cbn [cleanUp].
        rewrite (oldest_inv _ _ _ Hinv). unfold getTS.
        rewrite (stored_ts _ _ _ Hst) by lia.
        destruct (Z.leb_spec (sub64 now (cell_ts c.2)) (lifeWindow s)); [reflexivity | lia]. }
      split; [constructor|]. split; [assumption|].
      split; [exact (queue_inv_count _ _ Hinv)|].
      split; [destruct (onRemove s); by rewrite app_nil_r | auto].
    + destruct (evictOldest_cons s c cs Expired Hinv ltac:(by left))
        as (s1 & Hev & Hinv1 & _ & _ & Hmap1 & Hrem1 & Hlw1 & Hcb1).
      assert (Hmir1 : map_in_ring (hashmap s1) cs)
        by (rewrite Hmap1; by apply evict_map_in_ring).
      destruct (IH s1 Hinv1 Hmir1)
        as (s' & pre & cs' & Hsplit & Hrun & Hpre & Hhead & Hlen & Hrem & Hsub).
      exists s', (c :: pre), cs'. split; [by rewrite Hsplit|]. split.
      { intros [|fuel] Hf; [cbn in Hf; lia|]. cbn [cleanUp].
        rewrite (oldest_inv _ _ _ Hinv). unfold getTS.
        rewrite (stored_ts _ _ _ Hst) by lia.
        destruct (Z.leb_spec (sub64 now (cell_ts c.2)) (lifeWindow s)); [lia|].
        rewrite Hev. apply Hrun. cbn [length] in Hf. lia. }
      split.
      { constructor; [assumption|]. by rewrite <- Hlw1. }
      split; [by rewrite <- Hlw1|]. split; [assumption|].
      split.
      { rewrite Hrem, Hrem1, Hcb1. cbn [flat_map].
        destruct (onRemove s); by rewrite <- ?app_assoc, ?app_nil_r. }
      intros h r Hb. apply Hsub in Hb. rewrite Hmap1 in Hb.
      by apply evict_map_sub in Hb.
Qed.

Lemma cleanUp_evicts_only_expired_witness :
  exists s' pre cs',
    example_cells = pre ++ cs' /\
    (forall fuel, (length example_cells < fuel)%nat ->
       cleanUp fuel example_shard 15 = Returns s') /\
    Forall (fun c : cell => lifeWindow example_shard < sub64 15 (cell_ts c.2)) pre /\
    match cs' with
    | [] => True
    | c :: _ => sub64 15 (cell_ts c.2) <= lifeWindow example_shard
    end /\
    queue_len (entries s') = len cs' /\
    removed s' = removed example_shard ++
      (if onRemove example_shard then flat_map (evict_event Expired) pre else []) /\
    forall h r, hashmap s' !! h = Some r -> hashmap example_shard !! h = Some r.
Proof.
  apply (cleanUp_evicts_only_expired 15 example_cells example_shard).
  - exact example_shard_inv.
  - exact example_shard_map.
Defined.

(** On the example shard, cleaning up at time 15 with a life window of 10
    evicts the entry written at 0 and keeps the one written at 8. *)
Lemma cleanUp_example :
  exists s',
    cleanUp 3 example_shard 15 = Returns s' /\
    removed s' = [(Some example_entry1, Expired)] /\
    hashmap s' !! 1 = None /\ hashmap s' !! 2 = Some 24.
Proof.
  eexists. split; [vm_compute; reflexivity|].
  split; [vm_compute; reflexivity|]. split; vm_compute; reflexivity.
Qed.



Lemma set_expire_fresh s cs current :
  queue_inv (entries s) cs ->
  Forall (fun c : cell => sub64 current (cell_ts c.2) <= lifeWindow s) cs ->
  set_expire s current = Some s.
Proof.
  intros Hinv Hall. unfold set_expire. destruct cs as [|c cs].
  - by rewrite (oldest_empty _ Hinv).
  - destruct (queue_inv_in _ _ c Hinv ltac:(left)) as (Hok & Hst & _).
    pose proof Hok as (Hl & _). apply Forall_cons in Hall as [Hc _].
    rewrite (oldest_inv _ _ _ Hinv). unfold getTS.
    rewrite (stored_ts _ _ _ Hst) by lia. cbn [mbind option_bind].
    destruct (Z.ltb_spec (lifeWindow s) (sub64 current (cell_ts c.2))); [lia | reflexivity].
Qed.

Lemma tomb_cells_ts r cs (P : Z -> Prop) :
  Forall (fun c : cell => cell_ok c.2) cs ->
  Forall (fun c : cell => P (cell_ts c.2)) cs ->
  Forall (fun c : cell => P (cell_ts c.2)) (tomb_cells r cs).
Proof.
  unfold tomb_cells. induction cs as [|c cs IH]; intros Hok Hall; [constructor|].
  apply Forall_cons in Hok as [(Hl & _) Hok]. apply Forall_cons in Hall as [Hc Hall].
  cbn [map]. constructor; [|by apply IH].
  destruct (c.1 =? r); [|assumption]. cbn [snd].
  by rewrite tombstone_cell_ts by lia.
Qed.

Lemma queue_inv_cells_ok q cs :
  queue_inv q cs -> Forall (fun c : cell => cell_ok c.2) cs.
Proof.
  intros Hinv. apply Forall_forall. intros c Hin.
  by destruct (queue_inv_in _ _ _ Hinv Hin) as (? & _).
Qed.

(** X23.  set leaves the other keys alone when nothing forces an eviction:
    on a well-formed shard without hard cap in which no entry is past the
    life window, set returns no error, calls no callback, changes no
    binding but that of its own hash, and (buffer below 4 GiB) every get
    of another hash that returned a payload before returns it still. *)
Theorem set_keeps_other_keys s cs fuel current key hash entry :
  queue_inv (entries s) cs -> map_in_ring (hashmap s) cs ->
  maxCapacity (entries s) <= 0 ->
  Forall (fun c : cell => sub64 current (cell_ts c.2) <= lifeWindow s) cs ->
  (0 < fuel)%nat ->
  exists s',
    setWithoutLock fuel s current key hash entry = Returns (s', None) /\
    removed s' = removed s /\
    (forall h, h <> hash -> hashmap s' !! h = hashmap s !! h) /\
    (queue_cap (entries s') < 2 ^ 32 ->
     forall key' hash' d, hash' <> hash ->
       getWithoutLock s key' hash' None = Some (hit s, Ok d) ->
       getWithoutLock s' key' hash' None = Some (hit s', Ok d)).
Proof.
  intros Hinv Hmap Hcap Hfresh Hfuel.
  (* the first step: the entry bound to the hash, if any, is tombstoned *)
  assert (Hstep1 : exists s1 dcs,
    set_displace s hash = Some s1 /\ queue_inv (entries s1) dcs /\
    removed s1 = removed s /\ lifeWindow s1 = lifeWindow s /\
    maxCapacity (entries s1) = maxCapacity (entries s) /\
    (forall h, h <> hash -> hashmap s1 !! h = hashmap s !! h) /\
    Forall (fun c : cell => sub64 current (cell_ts c.2) <= lifeWindow s) dcs /\
    (forall h r bs, h <> hash -> hashmap s !! h = Some r -> (r, bs) ∈ cs ->
       (r, bs) ∈ dcs)).
  { destruct (set_displace_inv s cs hash Hinv Hmap) as (s1 & Hd & Hinv1 & _ & Hrem1 & Hlw1 & _).
    pose proof (set_displace_max _ _ _ Hd) as Hmax1.
    exists s1, (displaced_cells s cs hash).
    split; [assumption|]. split; [assumption|]. split; [assumption|].
    split; [assumption|]. split; [assumption|].
    unfold set_displace, displaced_cells in *.
    destruct (hashmap s !! hash) as [prev|] eqn:Hb.
    - destruct (Hmap _ _ Hb) as (_ & bs0 & Hin0 & Hhash0).
      destruct (queue_delete_inv _ _ _ _ Hinv Hin0) as (Hdel & _).
      rewrite Hdel in Hd. cbn [mbind option_bind] in Hd. injection Hd as <-.
      split; [intros h Hne; ssimpl; by rewrite lookup_delete_ne|].
      split; [apply (tomb_cells_ts prev cs (fun ts => sub64 current ts <= lifeWindow s));
              [by apply (queue_inv_cells_ok (entries s)) | assumption]|].
      intros h r bs Hne Hb' Hin.
      pose proof (tomb_cells_in prev cs _ Hin) as Ht. cbn [fst snd] in Ht.
      destruct (Z.eqb_spec r prev) as [->|_]; [|exact Ht].
      destruct (Hmap _ _ Hb') as (_ & bs' & Hin' & Hhash').
      destruct (queue_inv_in _ _ _ Hinv Hin0) as (Hok0 & Hst0 & _).
      destruct (queue_inv_in _ _ _ Hinv Hin') as (Hok' & Hst' & _).
      cbn [fst snd] in *.
      pose proof (cells_same_offset _ _ _ _ Hst0 Hok0 Hst' Hok'). congruence.
    - injection Hd as <-. split; [reflexivity|]. split; [assumption|]. auto. }
  destruct Hstep1 as (s1 & dcs & Hd & Hinv1 & Hrem1 & Hlw1 & Hmax1 & Hmap1 & Hfresh1 & Hkeep1).
  (* the second step finds nothing expired *)
  assert (He : set_expire s1 current = Some s1).
  { apply (set_expire_fresh s1 dcs); [assumption|]. by rewrite Hlw1. }
  (* the push succeeds at once *)
  destruct fuel as [|fuel]; [lia|].
  destruct (push_inv _ _ (mkEntry current hash key entry) Hinv1)
    as (q' & res & Hpush & _ & _ & Hres).
  destruct res as [ref|e]; [|destruct Hres as (_ & _ & ?); lia].
  destruct Hres as (_ & _ & Hpost).
  eexists. split.
  { unfold setWithoutLock. rewrite Hd, He. cbn [set_loop]. rewrite Hpush. reflexivity. }
  ssimpl. split; [assumption|].
  split; [intros h Hne; rewrite lookup_insert_ne by done; by apply Hmap1|].
  intros Hb key' hash' d Hne Hget.
  destruct (Hpost Hb) as (cs' & Hinv' & Hsub).
  destruct (hashmap s !! hash') as [r'|] eqn:Hb';
    [|unfold getWithoutLock in Hget; rewrite Hb' in Hget; discriminate].
  destruct (Hmap _ _ Hb') as (_ & bs' & Hin' & _).
  assert (Hkey : key' = [] \/ key' = cell_key bs').
  { destruct (decide (key' = [])) as [?|Hk]; [by left|].
    destruct (decide (key' = cell_key bs')) as [?|Hk']; [by right|].
    rewrite (getWithoutLock_collides s cs hash' r' bs' key' None Hinv Hb' Hin' Hk Hk') in Hget.
    discriminate. }
  rewrite (getWithoutLock_live s cs hash' r' bs' key' Hinv Hb' Hin' Hkey) in Hget.
  injection Hget as <-.
  match goal with |- getWithoutLock ?s2 _ _ _ = _ =>
    apply (getWithoutLock_live s2 (cs' ++ [(ref, encode (mkEntry current hash key entry))])
             hash' r' bs' key')
  end.
  - exact Hinv'.
  - cbn [hashmap]. rewrite lookup_insert_ne by done. rewrite Hmap1 by done. exact Hb'.
  - apply elem_of_app. left. apply Hsub. by apply (Hkeep1 hash').
  - exact Hkey.
Qed.

Lemma set_keeps_other_keys_witness :
  exists s',
    setWithoutLock 1 example_shard 9 [109] 3 [3; 4] = Returns (s', None) /\
    removed s' = removed example_shard /\
    (forall h, h <> 3 -> hashmap s' !! h = hashmap example_shard !! h) /\
    (queue_cap (entries s') < 2 ^ 32 ->
     forall key' hash' d, hash' <> 3 ->
       getWithoutLock example_shard key' hash' None = Some (hit example_shard, Ok d) ->
       getWithoutLock s' key' hash' None = Some (hit s', Ok d)).
Proof.
  apply (set_keeps_other_keys example_shard example_cells 1 9 [109] 3 [3; 4]).
  - exact example_shard_inv.
  - exact example_shard_map.
  - cbn. lia.
  - unfold example_cells. repeat constructor; vm_compute; discriminate.
  - lia.
Defined.
